(** * llmdoc: scanner, import resolver, token estimator and generator

    A shallow embedding of the algorithmic core of llmdoc
    (src/scanner/index.ts, src/utils/tokens.ts, src/generator/index.ts,
    src/llm/index.ts) and the properties of it that the specification
    states, with further properties read off the code.

    Conventions of the embedding
    - a JavaScript string is a [string]: a sequence of code units, of
      which the ones below 256 are represented;
    - [Set<string>] is [gset string]; arrays are lists;
    - a [Map] keyed by object identity is a list of buckets indexed by the
      position of the key object in the array it was taken from;
    - [number]s that count (lengths, tokens, context windows) are [Z];
      [number]s that are fractions (ratios, prices, costs, percentages)
      are binary64 values, carried as the rational they denote and rounded
      after every operation (module [F64]);
    - the file system, the glob library and the LLM service are the
      environment: explicit read-only data, or state threaded through
      the generator. *)

From Stdlib Require Import ZArith QArith Qround Qpower Lia Lqa Ascii DecimalString.
From stdpp Require Import gmap strings list sorting.

Local Open Scope Z_scope.
Local Open Scope list_scope.
Local Open Scope stdpp_scope.

(* ================================================================== *)
(** * Part I: the embedding *)
(* ================================================================== *)

(** ** JavaScript string primitives *)

Module Js.

(** [s.split(sep)] for a one-character separator. *)
Fixpoint split (sep : ascii) (s : string) : list string :=
  match s with
  | EmptyString => [EmptyString]
  | String c s' =>
      if Ascii.eqb c sep then EmptyString :: split sep s'
      else match split sep s' with
           | [] => [String c EmptyString]
           | w :: ws => String c w :: ws
           end
  end.

(** [parts.join(sep)] *)
Definition join (sep : string) (parts : list string) : string :=
  String.concat sep parts.

(** [s.startsWith(p)] *)
Definition startsWith (s p : string) : bool := String.prefix p s.

(** [s.replace(/\/$/, empty)]: one trailing slash is removed. *)
Fixpoint stripTrailingSlash (s : string) : string :=
  match s with
  | EmptyString => EmptyString
  | String c EmptyString => if Ascii.eqb c "/"%char then EmptyString else s
  | String c s' => String c (stripTrailingSlash s')
  end.

(** [s.replace(/\.js$/, empty)]: a trailing [.js] is removed. *)
Fixpoint stripJsSuffix (s : string) : string :=
  match s with
  | EmptyString => EmptyString
  | String c s' =>
      if String.eqb s ".js" then EmptyString else String c (stripJsSuffix s')
  end.

End Js.

(** ** Data model (src/types.ts) *)

Record IndexedFile := mkFile {
  file_path : string;
  file_content : string;
  file_directory : string
}.

Record SubfolderConfig := mkSubfolder {
  sub_path : string;
  sub_prompt : option string;
  sub_outputPath : option string;
  sub_existingDocs : option string;
  sub_includeImports : option bool;
  sub_additionalFiles : option (list string);
  sub_importDepth : option Q
}.

Record GeneratedDoc := mkDoc {
  doc_outputPath : string;
  doc_content : string;
  doc_sourceFiles : list string
}.

Global Instance IndexedFile_eq_dec : EqDecision IndexedFile.
Proof. solve_decision. Defined.

(** ** Scanner: paths and grouping (src/scanner/index.ts) *)

Definition normalizePath (filePath : string) : string :=
  Js.join "/" (Js.split "\"%char filePath).

Definition belongsToSubfolder (filePath subfolderPath : string) : bool :=
  let normalizedFile := normalizePath filePath in
  let normalizedSubfolder := normalizePath subfolderPath in
  let cleanSubfolder := Js.stripTrailingSlash normalizedSubfolder in
  Js.startsWith normalizedFile (cleanSubfolder +:+ "/")
  || String.eqb normalizedFile cleanSubfolder.

(** [[...subfolders].sort((a, b) => b.path.length - a.path.length)]:
    a stable sort, longest path first.  Every subfolder carries its
    position in [subfolders], which stands for the identity of the object
    that keys the [grouped] map (the entries of the configuration are
    distinct objects, also when two of them have the same path).  An
    array that lists one object twice is outside this: there the map
    has one entry for the object, where [grouped] below has a second,
    empty one.  What is stated of the keys and positions of [grouped]
    is stated for entries that are pairwise different, which are
    different objects. *)

Definition pathLength (s : nat * SubfolderConfig) : nat :=
  String.length (sub_path s.2).

Fixpoint insertByLength (x : nat * SubfolderConfig)
    (l : list (nat * SubfolderConfig)) : list (nat * SubfolderConfig) :=
  match l with
  | [] => [x]
  | y :: l' =>
      if (pathLength x <? pathLength y)%nat then y :: insertByLength x l'
      else x :: y :: l'
  end.

Definition sortedSubfolders (subfolders : list SubfolderConfig)
    : list (nat * SubfolderConfig) :=
  foldr insertByLength [] (imap pair subfolders).

(** The inner loop: the first subfolder, in sorted order, the file belongs
    to ([break] after the first match). *)
Definition firstMatch (sorted : list (nat * SubfolderConfig)) (p : string)
    : option (nat * SubfolderConfig) :=
  List.find (λ s, belongsToSubfolder p (sub_path s.2)) sorted.

(** The state of the outer loop: the buckets of [grouped] and the set
    [assignedFiles]. *)
Definition groupStep (sorted : list (nat * SubfolderConfig))
    (st : list (list IndexedFile) * gset string) (file : IndexedFile)
    : list (list IndexedFile) * gset string :=
  match firstMatch sorted (file_path file) with
  | Some (i, _) =>
      (alter (λ bucket, bucket ++ [file]) i st.1, {[file_path file]} ∪ st.2)
  | None => st
  end.

Record Grouping := mkGrouping {
  grouped : list (SubfolderConfig * list IndexedFile);
  ungrouped : list IndexedFile
}.

Definition groupFilesBySubfolder (files : list IndexedFile)
    (subfolders : list SubfolderConfig) : Grouping :=
  let sorted := sortedSubfolders subfolders in
  let final :=
    foldl (groupStep sorted) (replicate (length subfolders) [], ∅) files in
  {| grouped := zip subfolders final.1;
     ungrouped :=
       filter (λ f, file_path f ∉ final.2) files |}.


(** ** binary64 arithmetic

    A finite double is carried as the rational it denotes.  Every
    operation computes the exact result and rounds it to the nearest
    value with a 53-bit significand, ties to even.  The exponent range is
    not bounded: overflow, underflow, infinities and NaN are outside the
    model (the quantities below are lengths, prices and percentages). *)

Module F64.

Local Open Scope Q_scope.

Definition pow2 (e : Z) : Q := Qpower 2 e.

(** [floor (log2 x)] for a positive [x]. *)
Definition ilog2 (x : Q) : Z :=
  let d := (Z.log2 (Qnum x) - Z.log2 (Zpos (Qden x)))%Z in
  if Qle_bool (pow2 d) x then d else (d - 1)%Z.

(** The nearest integer, ties to even. *)
Definition rne (y : Q) : Z :=
  let f := Qfloor y in
  match Qcompare (y - inject_Z f) (1 # 2) with
  | Lt => f
  | Gt => (f + 1)%Z
  | Eq => if Z.even f then f else (f + 1)%Z
  end.

Definition round_pos (x : Q) : Q :=
  let e := (ilog2 x - 52)%Z in
  inject_Z (rne (x / pow2 e)) * pow2 e.

Definition round (x : Q) : Q :=
  Qred match Qcompare x 0 with
       | Eq => 0
       | Gt => round_pos x
       | Lt => - round_pos (- x)
       end.

(** The value of a decimal literal of the source. *)
Definition lit (x : Q) : Q := round x.

Definition add (x y : Q) : Q := round (x + y).
Definition mul (x y : Q) : Q := round (x * y).
Definition div (x y : Q) : Q := round (x / y).

(** [Math.ceil] and [Math.round] (halves go up). *)
Definition ceil (x : Q) : Z := Qceiling x.
Definition Math_round (x : Q) : Z := Qfloor (x + (1 # 2)).

(** [x > y] *)
Definition gtb (x y : Q) : bool := negb (Qle_bool x y).

End F64.

(** ** Token estimation (src/utils/tokens.ts) *)

Module JsText.

(** [s.toLowerCase()] on the code units represented. *)
Definition lowerChar (c : ascii) : ascii :=
  let n := nat_of_ascii c in
  if ((65 <=? n) && (n <=? 90))%nat
     || ((192 <=? n) && (n <=? 222) && negb (n =? 215))%nat
  then ascii_of_nat (n + 32) else c.

Fixpoint toLowerCase (s : string) : string :=
  match s with
  | EmptyString => EmptyString
  | String c s' => String (lowerChar c) (toLowerCase s')
  end.

(** [s.includes(sub)] *)
Fixpoint includes (s sub : string) : bool :=
  Js.startsWith s sub
  || match s with
     | EmptyString => false
     | String _ s' => includes s' sub
     end.

(** The decimal digits of a natural number. *)
Definition digits (n : Z) : string :=
  DecimalString.NilZero.string_of_uint (N.to_uint (Z.to_N n)).

(** [String(x)] for a non-negative double [x] that is the nearest one
    to a decimal with at most one fractional digit (all that
    [contextUsagePercent] holds): the shortest decimal that reads back
    as [x] is that decimal. *)
Definition numberToString (x : Q) : string :=
  let tenths := Qfloor (x * 10 + (1 # 2))%Q in
  digits (tenths / 10)
  +:+ (if (tenths mod 10 =? 0) then EmptyString
       else "." +:+ digits (tenths mod 10)).

End JsText.

Definition TOKENS_PER_CHAR_code : Q := F64.lit (35 # 100).
Definition TOKENS_PER_CHAR_prose : Q := F64.lit (25 # 100).

Record Pricing := mkPricing {
  price_input : Q;
  price_output : Q;
  price_context : Z
}.

(** The entry [{ input: i, output: o, context: c }], the prices given as
    the decimal literals of the source. *)
Definition pricing (i o : Q) (c : Z) : Pricing :=
  mkPricing (F64.lit i) (F64.lit o) c.

(** Keys in insertion order, which is the order of [Object.entries]. *)
Definition MODEL_PRICING : list (string * Pricing) :=
  [ ("gpt-5", pricing (125 # 100) 10 400000);
    ("gpt-5-mini", pricing (25 # 100) 2 400000);
    ("o1-preview", pricing 15 60 128000);
    ("o1-mini", pricing 3 12 128000);
    ("gpt-4o", pricing (25 # 10) 10 128000);
    ("gpt-4o-mini", pricing (15 # 100) (6 # 10) 128000);
    ("gpt-4-turbo", pricing 10 30 128000);
    ("claude-4-5-opus", pricing 5 25 200000);
    ("claude-4-5-sonnet", pricing 3 15 200000);
    ("claude-3-5-sonnet-20241022", pricing 3 15 200000);
    ("claude-3-5-haiku-20241022", pricing (8 # 10) 4 200000);
    ("claude-3-opus-20240229", pricing 15 75 200000);
    ("gemini-3-pro", pricing 2 12 1000000);
    ("gemini-2.5-pro", pricing (125 # 100) 10 1000000);
    ("gemini-2.5-flash", pricing (3 # 10) (25 # 10) 1000000);
    ("gemini-1.5-pro", pricing (125 # 100) 5 2000000);
    ("gemini-1.5-flash", pricing (75 # 1000) (3 # 10) 1000000);
    ("gemini-1.5-flash-8b", pricing (375 # 10000) (15 # 100) 1000000);
    ("mistral-large-latest", pricing 2 6 128000);
    ("mistral-nemo", pricing (15 # 100) (15 # 100) 128000) ].

Record TokenEstimate := mkEstimate {
  characters : Z;
  tokens : Z;
  estimatedCost : option Q;
  contextWindow : option Z;
  contextUsagePercent : option Q;
  warning : option string
}.

(** [Math.ceil(content.length * ratio)].  A length is below 2^53 and so
    is a double as it stands. *)
Definition estimateTokens (content : string) (isCode : bool) : Z :=
  let ratio := if isCode then TOKENS_PER_CHAR_code else TOKENS_PER_CHAR_prose in
  F64.ceil (F64.mul (inject_Z (Z.of_nat (String.length content))) ratio).

(** The lookup of [getTokenEstimate]: the exact key first, then the first
    entry whose key contains the model name or is contained in it, case
    ignored.  The exact lookup is among the keys of the table: a model
    name that is the name of a member of [Object.prototype]
    ([toString], [constructor], ...) is outside this, since
    [MODEL_PRICING[model]] is then the inherited member, which is truthy
    and not a pricing.  What is stated of a model without a pricing is
    stated for the other names ([objectPrototypeNames] below). *)
Definition exactPricing (model : string) : option Pricing :=
  snd <$> List.find (λ e, String.eqb e.1 model) MODEL_PRICING.

Definition partialPricing (model : string) : option Pricing :=
  let modelLower := JsText.toLowerCase model in
  snd <$> List.find
            (λ e, JsText.includes modelLower (JsText.toLowerCase e.1)
                  || JsText.includes (JsText.toLowerCase e.1) modelLower)
            MODEL_PRICING.

Definition findPricing (model : string) : option Pricing :=
  match exactPricing model with
  | Some p => Some p
  | None => partialPricing model
  end.

(** [Math.round((tokens / window) * 100 * 10) / 10] *)
Definition usagePercent (tokens window : Z) : Q :=
  F64.div
    (inject_Z
       (F64.Math_round
          (F64.mul (F64.mul (F64.div (inject_Z tokens) (inject_Z window)) 100)
                   10)))
    10.

Definition highUsageWarning (percent : Q) : string :=
  "High context usage (" +:+ JsText.numberToString percent
  +:+ "%). Consider splitting into subfolders.".

Definition criticalWarning (percent : Q) : string :=
  "Critical: Approaching context limit (" +:+ JsText.numberToString percent
  +:+ "%). Request may fail.".

Definition getTokenEstimate (content : string) (model : option string)
    (isCode : bool) : TokenEstimate :=
  let characters := Z.of_nat (String.length content) in
  let tokens := estimateTokens content isCode in
  let result := mkEstimate characters tokens None None None None in
  match model with
  | None => result
  | Some EmptyString => result
  | Some model =>
      match findPricing model with
      | None => result
      | Some pricing =>
          let cost :=
            F64.mul (F64.div (inject_Z tokens) 1000000) (price_input pricing) in
          let percent := usagePercent tokens (price_context pricing) in
          mkEstimate characters tokens (Some cost)
            (Some (price_context pricing)) (Some percent)
            (if F64.gtb percent 80 then Some (highUsageWarning percent)
             else if F64.gtb percent 95 then Some (criticalWarning percent)
             else None)
      end
  end.

(** [estimates.find((e) => e.contextWindow)]: a window that is absent or
    zero is falsy. *)
Definition hasContextWindow (e : TokenEstimate) : bool :=
  match contextWindow e with
  | Some w => negb (w =? 0)
  | None => false
  end.

(** The loop of [aggregateEstimates]. *)
Definition addEstimate (total est : TokenEstimate) : TokenEstimate :=
  mkEstimate
    (characters total + characters est)
    (tokens total + tokens est)
    (match estimatedCost est with
     | Some c => Some (F64.add (default 0%Q (estimatedCost total)) c)
     | None => estimatedCost total
     end)
    (contextWindow total) (contextUsagePercent total) (warning total).

Definition aggregateEstimates (estimates : list TokenEstimate) : TokenEstimate :=
  let total :=
    foldl addEstimate (mkEstimate 0 0 (Some 0%Q) None None None) estimates in
  match List.find hasContextWindow estimates with
  | Some withContext =>
      let window := default 0 (contextWindow withContext) in
      let percent := usagePercent (tokens total) window in
      mkEstimate (characters total) (tokens total) (estimatedCost total)
        (contextWindow withContext) (Some percent)
        (if F64.gtb percent 80 then Some (highUsageWarning percent) else None)
  | None => total
  end.

(** ** Regular expressions and [extractImports] (src/scanner/index.ts)

    The four patterns of [extractImports] use literals, the classes [\s],
    [\w] and bracket classes, greedy [*], [+] and [?], alternation and
    one capture group.  [run] is the backtracking matcher of the
    language: alternatives left to right, repetitions greedy, the first
    success wins. *)

Module Regex.

Inductive re : Type :=
| Eps
| Chr (p : ascii → bool)
| Seq (r1 r2 : re)
| Alt (r1 r2 : re)
| Star (r : re)
| Group (r : re).

Definition Plus (r : re) : re := Seq r (Star r).
Definition Opt (r : re) : re := Alt r Eps.

Fixpoint Lit (s : string) : re :=
  match s with
  | EmptyString => Eps
  | String c s' => Seq (Chr (Ascii.eqb c)) (Lit s')
  end.

Fixpoint Seqs (rs : list re) : re :=
  match rs with
  | [] => Eps
  | [r] => r
  | r :: rs' => Seq r (Seqs rs')
  end.

(** The prefix of [s] that was consumed when [rest] is left. *)
Definition consumed (s rest : string) : string :=
  String.substring 0 (String.length s - String.length rest) s.

(** [run r s cap k]: match [r] at the start of [s], then continue with
    [k] on the rest of the input and the capture.  An iteration of a
    repetition that consumes nothing is rejected. *)
Fixpoint run {A} (r : re) (s : string) (cap : option string)
    (k : string → option string → option A) : option A :=
  match r with
  | Eps => k s cap
  | Chr p =>
      match s with
      | String c s' => if p c then k s' cap else None
      | EmptyString => None
      end
  | Seq r1 r2 => run r1 s cap (λ s' cap', run r2 s' cap' k)
  | Alt r1 r2 =>
      match run r1 s cap k with
      | Some a => Some a
      | None => run r2 s cap k
      end
  | Star r1 =>
      (fix loop (fuel : nat) (s : string) (cap : option string) : option A :=
         match fuel with
         | O => k s cap
         | S fuel' =>
             match run r1 s cap
                     (λ s' cap',
                        if (String.length s' <? String.length s)%nat
                        then loop fuel' s' cap' else None) with
             | Some a => Some a
             | None => k s cap
             end
         end) (String.length s) s cap
  | Group r1 => run r1 s cap (λ s' _, k s' (Some (consumed s s')))
  end.

(** A match at the start of [s]: the capture and the rest. *)
Definition matchAt (r : re) (s : string) : option (option string * string) :=
  run r s None (λ rest cap, Some (cap, rest)).

(** The loop [while ((match = re.exec(content)) !== null)] of a global
    pattern: the leftmost match from [lastIndex] on, then on from the
    end of that match.  [skip] counts the characters still covered by
    the last match.  (A pattern that matched the empty string would
    make the loop of the source run forever; none of the four does.) *)
Fixpoint execAll (r : re) (s : string) (skip : nat) : list (option string) :=
  match s with
  | EmptyString => []
  | String _ s' =>
      match skip with
      | S skip' => execAll r s' skip'
      | O =>
          match matchAt r s with
          | Some (cap, rest) =>
              cap :: execAll r s' (String.length s - String.length rest - 1)
          | None => execAll r s' 0
          end
      end
  end.

(** Character classes. *)
Definition space (c : ascii) : bool :=
  let n := nat_of_ascii c in
  ((9 <=? n) && (n <=? 13) || (n =? 32) || (n =? 160))%nat.

Definition word (c : ascii) : bool :=
  let n := nat_of_ascii c in
  ((48 <=? n) && (n <=? 57) || (65 <=? n) && (n <=? 90)
   || (97 <=? n) && (n <=? 122) || (n =? 95))%nat.

Definition quote (c : ascii) : bool :=
  Ascii.eqb c (ascii_of_nat 34) || Ascii.eqb c "'"%char.

Definition s_ : re := Chr space.
Definition w_ : re := Chr word.
Definition q_ : re := Chr quote.
Definition notQuote : re := Chr (λ c, negb (quote c)).
Definition notBrace : re := Chr (λ c, negb (Ascii.eqb c "}"%char)).

(** A quote of either kind, the captured path (one or more characters
    that are not quotes), a quote of either kind. *)
Definition quoted : re := Seqs [q_; Group (Plus notQuote); q_].

(** [\{[^}]*\}|\*\s+as\s+\w+|\w+] *)
Definition clause : re :=
  Alt (Seqs [Lit "{"; Star notBrace; Lit "}"])
      (Alt (Seqs [Lit "*"; Plus s_; Lit "as"; Plus s_; Plus w_])
           (Plus w_)).

Definition es6ImportRegex : re :=
  Seqs [Lit "import"; Plus s_;
        Opt (Seqs [clause;
                   Star (Seqs [Star s_; Lit ","; Star s_; clause]);
                   Plus s_; Lit "from"; Plus s_]);
        quoted].

Definition dynamicImportRegex : re :=
  Seqs [Lit "import"; Star s_; Lit "("; Star s_; quoted; Star s_; Lit ")"].

Definition requireRegex : re :=
  Seqs [Lit "require"; Star s_; Lit "("; Star s_; quoted; Star s_; Lit ")"].

Definition exportFromRegex : re :=
  Seqs [Lit "export"; Plus s_;
        Alt (Seqs [Lit "{"; Star notBrace; Lit "}"]) (Lit "*");
        Plus s_; Lit "from"; Plus s_; quoted].

End Regex.

(** The captures of the four passes, in the order of the source.  The
    capture group is part of every match, so [match[1]] is a non-empty
    string. *)
Definition extractImports (content : string) : list string :=
  omap id (Regex.execAll Regex.es6ImportRegex content 0)
  ++ omap id (Regex.execAll Regex.dynamicImportRegex content 0)
  ++ omap id (Regex.execAll Regex.requireRegex content 0)
  ++ omap id (Regex.execAll Regex.exportFromRegex content 0).

(** ** [node:path] on POSIX and [node:fs]

    Paths are handled by segments, as [normalizeString] of Node does:
    empty segments and [.] are dropped, [..] removes the segment before
    it (at the root of an absolute path it is dropped). *)

Module NodePath.

Definition isAbsolute (p : string) : bool := Js.startsWith p "/".

Fixpoint normalizeSegments (allowAboveRoot : bool) (acc : list string)
    (segs : list string) : list string :=
  match segs with
  | [] => rev acc
  | seg :: rest =>
      if String.eqb seg EmptyString || String.eqb seg "." then
        normalizeSegments allowAboveRoot acc rest
      else if String.eqb seg ".." then
        match acc with
        | top :: acc' =>
            if String.eqb top ".." then
              normalizeSegments allowAboveRoot (seg :: acc) rest
            else normalizeSegments allowAboveRoot acc' rest
        | [] =>
            if allowAboveRoot then
              normalizeSegments allowAboveRoot [seg] rest
            else normalizeSegments allowAboveRoot [] rest
        end
      else normalizeSegments allowAboveRoot (seg :: acc) rest
  end.

Definition normalizeString (p : string) (allowAboveRoot : bool) : string :=
  Js.join "/" (normalizeSegments allowAboveRoot [] (Js.split "/"%char p)).

(** [path.resolve(...paths)]: from the right, up to the first absolute
    path; the working directory (absolute) is the last resort. *)
Fixpoint resolveFrom (cwd : string) (pathsRev : list string)
    (resolvedPath : string) : string :=
  match pathsRev with
  | [] => cwd +:+ "/" +:+ resolvedPath
  | p :: rest =>
      if String.eqb p EmptyString then resolveFrom cwd rest resolvedPath
      else if isAbsolute p then p +:+ "/" +:+ resolvedPath
      else resolveFrom cwd rest (p +:+ "/" +:+ resolvedPath)
  end.

Definition resolve (cwd : string) (paths : list string) : string :=
  "/" +:+ normalizeString (resolveFrom cwd (rev paths) EmptyString) false.

Fixpoint dropCommon (a b : list string) : list string * list string :=
  match a, b with
  | x :: a', y :: b' => if String.eqb x y then dropCommon a' b' else (a, b)
  | _, _ => (a, b)
  end.

(** The segments of a resolved path. *)
Definition segments (resolved : string) : list string :=
  normalizeSegments false [] (Js.split "/"%char resolved).

(** [path.relative(from, to)] *)
Definition relative (cwd from to : string) : string :=
  if String.eqb from to then EmptyString
  else
    let '(up, down) :=
      dropCommon (segments (resolve cwd [from])) (segments (resolve cwd [to])) in
    Js.join "/" (replicate (length up) ".." ++ down).

(** [path.dirname(p)]: the index of the slash before the last
    component, trailing slashes set aside. *)
Fixpoint dirnameEnd (chars : list ascii) (i : nat) (matchedSlash : bool)
    : option nat :=
  match chars, i with
  | c :: rest, S i' =>
      if Ascii.eqb c "/"%char then
        if matchedSlash then dirnameEnd rest i' true else Some i
      else dirnameEnd rest i' false
  | _, _ => None
  end.

Definition dirname (p : string) : string :=
  match p with
  | EmptyString => "."
  | String c0 _ =>
      let hasRoot := Ascii.eqb c0 "/"%char in
      let n := String.length p in
      match dirnameEnd (rev (String.list_ascii_of_string p)) (n - 1) true with
      | None => if hasRoot then "/" else "."
      | Some e =>
          if hasRoot && (e =? 1)%nat then "//"
          else String.substring 0 e p
      end
  end.

(** [path.normalize(p)] and [path.join(a, b)] *)
Definition normalize (p : string) : string :=
  match p with
  | EmptyString => "."
  | _ =>
      let absolute := isAbsolute p in
      let trailingSep :=
        Js.startsWith (String.string_of_list_ascii
                         (rev (String.list_ascii_of_string p))) "/" in
      let q := normalizeString p (negb absolute) in
      match q with
      | EmptyString =>
          if absolute then "/" else if trailingSep then "./" else "."
      | _ =>
          let q' := if trailingSep then q +:+ "/" else q in
          if absolute then "/" +:+ q' else q'
      end
  end.

Definition join (a b : string) : string :=
  match a, b with
  | EmptyString, EmptyString => "."
  | EmptyString, _ => normalize b
  | _, EmptyString => normalize a
  | _, _ => normalize (a +:+ "/" +:+ b)
  end.

End NodePath.

(** The file system: what is at an absolute, normalised path. *)
Inductive FsNode : Type :=
| RegularFile (content : string)
| Directory.

Record FileSystem := mkFs {
  fs_entries : gmap string FsNode;
  fs_cwd : string
}.

Definition existsSync (fs : FileSystem) (p : string) : bool :=
  bool_decide (is_Some (fs_entries fs !! p)).

(** [readFileSync(p, utf-8)]: [None] stands for the exception. *)
Definition readFileSync (fs : FileSystem) (p : string) : option string :=
  match fs_entries fs !! p with
  | Some (RegularFile content) => Some content
  | _ => None
  end.

(** ** Import resolution (src/scanner/index.ts) *)

Definition resolveImportPath (fs : FileSystem)
    (importPath fromFile rootDir : string) : option string :=
  if negb (Js.startsWith importPath ".") && negb (Js.startsWith importPath "/")
  then None
  else
    let fromDir :=
      NodePath.dirname (NodePath.resolve (fs_cwd fs) [rootDir; fromFile]) in
    let resolvedPath :=
      Js.stripJsSuffix (NodePath.resolve (fs_cwd fs) [fromDir; importPath]) in
    let extensions := [".ts"; ".tsx"; ".js"; ".jsx"; EmptyString] in
    let indexFiles := ["index.ts"; "index.tsx"; "index.js"; "index.jsx"] in
    match List.find (existsSync fs) ((λ ext, resolvedPath +:+ ext) <$> extensions) with
    | Some tryPath => Some (NodePath.relative (fs_cwd fs) rootDir tryPath)
    | None =>
        match List.find (existsSync fs) (NodePath.join resolvedPath <$> indexFiles) with
        | Some tryPath => Some (NodePath.relative (fs_cwd fs) rootDir tryPath)
        | None => None
        end
    end.

Section ResolveImports.

Variables (fs : FileSystem) (rootDir : string).

(** The state of the loops of one level: [importedFiles] and
    [processedImports]. *)
Definition LevelState : Type := list IndexedFile * gset string.

(** The body of the inner loop. *)
Definition importStep (allFiles : list IndexedFile)
    (allFilePaths currentFilePaths : gset string) (file : IndexedFile)
    (st : LevelState) (importPath : string) : LevelState :=
  match resolveImportPath fs importPath (file_path file) rootDir with
  | None => st
  | Some EmptyString => st
  | Some resolvedPath =>
      let normalizedResolved := normalizePath resolvedPath in
      if decide (normalizedResolved ∈ currentFilePaths
                 ∨ normalizedResolved ∈ st.2)
      then st
      else
        let processedImports := {[normalizedResolved]} ∪ st.2 in
        match List.find
                (λ f, String.eqb (normalizePath (file_path f)) normalizedResolved)
                allFiles with
        | Some importedFile => (st.1 ++ [importedFile], processedImports)
        | None =>
            if decide (normalizedResolved ∈ allFilePaths) then
              match readFileSync fs
                      (NodePath.resolve (fs_cwd fs) [rootDir; resolvedPath]) with
              | Some content =>
                  (st.1 ++ [mkFile normalizedResolved content
                              (normalizePath (NodePath.dirname resolvedPath))],
                   processedImports)
              | None => (st.1, processedImports)
              end
            else (st.1, processedImports)
        end
  end.

(** One level: the two nested loops over the files and their imports. *)
Definition importLevel (files allFiles : list IndexedFile)
    : list IndexedFile :=
  let allFilePaths : gset string :=
    list_to_set ((λ f, normalizePath (file_path f)) <$> allFiles) in
  let currentFilePaths : gset string :=
    list_to_set ((λ f, normalizePath (file_path f)) <$> files) in
  (foldl
     (λ st file,
        foldl (importStep allFiles allFilePaths currentFilePaths file) st
          (extractImports (file_content file)))
     ([], ∅) files).1.

(** The recursion, on the number of levels left to walk. *)
Fixpoint resolveLevels (n : nat) (files allFiles : list IndexedFile)
    : list IndexedFile :=
  match n with
  | O => []
  | S n' =>
      let importedFiles := importLevel files allFiles in
      if negb (bool_decide (importedFiles = [])) && (0 <? n')%nat then
        importedFiles
        ++ resolveLevels n' importedFiles (allFiles ++ importedFiles)
      else importedFiles
  end.

(** [depth] is a number, and the levels walked are as many as its
    ceiling: [depth <= 0] when the ceiling is 0 or less, [depth > 1] when
    the ceiling is above 1, and [depth - 1] has the ceiling less one
    ([resolveImportsForFiles_unfold] below is the equation of the
    source). *)
Definition resolveImportsForFiles (files allFiles : list IndexedFile)
    (depth : Q) : list IndexedFile :=
  resolveLevels (Z.to_nat (Qceiling depth)) files allFiles.

End ResolveImports.

(** ** The generator (src/generator/index.ts)

    The generator reads and writes the file system and calls the LLM
    service.  A run threads the file system and the trace of the calls
    it made; an exception ends it.  Calls to the optional logger are
    left out. *)

Inductive LlmRequest : Type :=
| GenerateDocumentation (prompt filesContent : string)
    (existingDocs : option string)
| GenerateApiReference (prompt filesContent : string)
    (existingDocs : option string)
| GenerateReadme (prompt filesContent projectName : string)
    (existingReadme : option string).

(** The service answers a request with the generated text, or rejects. *)
Definition LLMService : Type := LlmRequest → option string.

Inductive Event : Type :=
| LlmCall (request : LlmRequest)
| MkdirCall (dir : string)
| WriteCall (path content : string).

Record RunState := mkState {
  st_fs : FileSystem;
  st_trace : list Event
}.

Inductive Outcome (A : Type) : Type :=
| Returned (a : A)
| Thrown (message : string).

Arguments Returned {A} a.
Arguments Thrown {A} message.

Definition Gen (A : Type) : Type := RunState → Outcome A * RunState.

Global Instance Gen_ret : MRet Gen := λ A a s, (Returned a, s).

Global Instance Gen_bind : MBind Gen := λ A B k m s,
  match m s with
  | (Returned a, s') => k a s'
  | (Thrown e, s') => (Thrown e, s')
  end.

Definition throw {A} (message : string) : Gen A := λ s, (Thrown message, s).

Definition getFs : Gen FileSystem := λ s, (Returned (st_fs s), s).

Definition putEntries (entries : gmap string FsNode) : Gen unit := λ s,
  (Returned (), mkState (mkFs entries (fs_cwd (st_fs s))) (st_trace s)).

Definition emit (e : Event) : Gen unit := λ s,
  (Returned (), mkState (st_fs s) (st_trace s ++ [e])).

Definition nl : string := String "010"%char EmptyString.

Module NodeFs.

Fixpoint dropSlashes (l : list ascii) : list ascii :=
  match l with
  | c :: l' => if Ascii.eqb c "/"%char then dropSlashes l' else l
  | [] => []
  end.

Fixpoint takeComponent (l : list ascii) : list ascii :=
  match l with
  | c :: l' => if Ascii.eqb c "/"%char then [] else c :: takeComponent l'
  | [] => []
  end.

(** [path.basename(p)]: the last component, trailing slashes set aside. *)
Definition basename (p : string) : string :=
  String.string_of_list_ascii
    (rev (takeComponent (dropSlashes (rev (String.list_ascii_of_string p))))).

(** [mkdirSync(dir, { recursive: true })]: the missing directories of the
    chain are made; a regular file in the chain is an error. *)
Fixpoint mkdirp (fuel : nat) (dir : string) (entries : gmap string FsNode)
    : option (gmap string FsNode) :=
  match entries !! dir with
  | Some Directory => Some entries
  | Some (RegularFile _) => None
  | None =>
      match fuel with
      | O => Some (<[dir := Directory]> entries)
      | S fuel' =>
          let parent := NodePath.dirname dir in
          if String.eqb parent dir then Some (<[dir := Directory]> entries)
          else (λ e, <[dir := Directory]> e) <$> mkdirp fuel' parent entries
      end
  end.

Definition mkdirSync (dir : string) : Gen unit :=
  fs ← getFs;
  _ ← emit (MkdirCall dir);
  match mkdirp (String.length dir) dir (fs_entries fs) with
  | Some entries => putEntries entries
  | None => throw "ENOTDIR"
  end.

(** [writeFileSync(p, content, utf-8)]: the directory of [p] has to be
    there, and [p] must not be a directory. *)
Definition writeFileSync (p content : string) : Gen unit :=
  fs ← getFs;
  _ ← emit (WriteCall p content);
  match fs_entries fs !! NodePath.dirname p, fs_entries fs !! p with
  | Some Directory, Some Directory => throw "EISDIR"
  | Some Directory, _ => putEntries (<[p := RegularFile content]> (fs_entries fs))
  | _, _ => throw "ENOENT"
  end.

End NodeFs.

Definition readExistingDoc (rootDir docPath : string) : Gen (option string) :=
  fs ← getFs;
  let fullPath := NodePath.resolve (fs_cwd fs) [rootDir; docPath] in
  if existsSync fs fullPath then
    match readFileSync fs fullPath with
    | Some content => mret (Some content)
    | None => throw "EISDIR"
    end
  else mret None.

Definition writeDoc (rootDir outputPath content : string) : Gen unit :=
  fs ← getFs;
  let fullPath := NodePath.resolve (fs_cwd fs) [rootDir; outputPath] in
  let dir := NodePath.dirname fullPath in
  _ ← (if existsSync fs dir then mret () else NodeFs.mkdirSync dir);
  NodeFs.writeFileSync fullPath content.

(** [formatFilesForLLM] (src/scanner/index.ts) *)
Definition formatFile (file : IndexedFile) : string :=
  "## File: " +:+ file_path file +:+ nl +:+ nl +:+ "```typescript" +:+ nl
  +:+ file_content file +:+ nl +:+ "```".

Definition formatFilesForLLM (files : list IndexedFile) : string :=
  match files with
  | [] => "No files found."
  | _ => Js.join (nl +:+ nl +:+ "---" +:+ nl +:+ nl) (formatFile <$> files)
  end.

Definition formatFilesWithContext (mainFiles contextFiles : list IndexedFile)
    : string :=
  let content1 :=
    match mainFiles with
    | [] => EmptyString
    | _ => "# Main Source Files" +:+ nl +:+ nl
           +:+ "These are the primary files to document:" +:+ nl +:+ nl
           +:+ formatFilesForLLM mainFiles
    end in
  match contextFiles with
  | [] => content1
  | _ =>
      content1 +:+ nl +:+ nl +:+ "---" +:+ nl +:+ nl
      +:+ "# Context Files (Imports & Dependencies)" +:+ nl +:+ nl
      +:+ "These files are imported/used by the main files. Use them for context to understand types, interfaces, and dependencies:"
      +:+ nl +:+ nl +:+ formatFilesForLLM contextFiles
  end.

(** A string or [undefined] in a condition: absent and empty are falsy. *)
Definition truthy (s : option string) : bool :=
  match s with
  | Some (String _ _) => true
  | _ => false
  end.

(** [prompt + 2 newlines + filesContent + (existingDocs ? 2 newlines +
    existingDocs : empty)] *)
Definition fullInput (prompt filesContent : string)
    (existingDocs : option string) : string :=
  prompt +:+ nl +:+ nl +:+ filesContent
  +:+ (if truthy existingDocs then nl +:+ nl +:+ default EmptyString existingDocs
       else EmptyString).

Definition DRY_RUN_CONTENT : string := "[DRY RUN - No content generated]".

Section Generator.

(** [glob(pattern, { cwd, ignore, nodir: true, absolute: false })] of the
    glob library: the matches of a pattern in a file system. *)
Variable glob : FileSystem → string → string → list string → list string.

(** [loadAdditionalFiles] (src/scanner/index.ts): a match that cannot be
    read is skipped. *)
Definition loadMatch (fs : FileSystem) (rootDir : string)
    (existingFiles : gset string) (additionalFiles : list IndexedFile)
    (m : string) : list IndexedFile :=
  let normalizedPath := normalizePath m in
  if decide (normalizedPath ∈ existingFiles) then additionalFiles
  else
    match readFileSync fs (NodePath.resolve (fs_cwd fs) [rootDir; m]) with
    | Some content =>
        let directory := NodePath.dirname m in
        additionalFiles
        ++ [mkFile normalizedPath content
              (normalizePath (if String.eqb directory "." then EmptyString
                              else directory))]
    | None => additionalFiles
    end.

Definition loadAdditionalFiles (fs : FileSystem) (rootDir : string)
    (patterns exclude : list string) (existingFiles : gset string)
    : list IndexedFile :=
  foldl
    (λ additionalFiles pattern,
       foldl (loadMatch fs rootDir existingFiles) additionalFiles
         (glob fs rootDir pattern exclude))
    [] patterns.

(** The result of a generation step: [{ doc, estimate }]. *)
Definition StepResult : Type := option GeneratedDoc * option TokenEstimate.

(** The context files of a subfolder: the resolved imports that are not
    main files, then the additional files. *)
Definition contextFilesOf (fs : FileSystem) (rootDir : string)
    (subfolder : SubfolderConfig) (files allFiles : list IndexedFile)
    (exclude : list string) : list IndexedFile :=
  let includeImports :=
    negb (bool_decide (sub_includeImports subfolder = Some false)) in
  let importDepth := default 2%Q (sub_importDepth subfolder) in
  let contextFiles :=
    if includeImports then
      let importedFiles :=
        resolveImportsForFiles fs rootDir files allFiles importDepth in
      let mainFilePaths : gset string := list_to_set (file_path <$> files) in
      filter (λ f, file_path f ∉ mainFilePaths) importedFiles
    else [] in
  match sub_additionalFiles subfolder with
  | Some (pattern :: patterns) =>
      let existingPaths : gset string :=
        list_to_set ((file_path <$> files) ++ (file_path <$> contextFiles)) in
      contextFiles
      ++ loadAdditionalFiles fs rootDir (pattern :: patterns) exclude
           existingPaths
  | _ => contextFiles
  end.

Definition callLlm (llmService : option LLMService) (request : LlmRequest)
    : Gen string :=
  match llmService with
  | None => throw "TypeError: llmService is null"
  | Some service =>
      _ ← emit (LlmCall request);
      match service request with
      | Some content => mret content
      | None => throw "LLM request failed"
      end
  end.

Definition generateSubfolderDoc (llmService : option LLMService)
    (rootDir : string) (subfolder : SubfolderConfig)
    (files allFiles : list IndexedFile) (globalPrompt : string)
    (exclude : list string) (model : string) (dryRun : bool)
    : Gen StepResult :=
  match files with
  | [] => mret (None, None)
  | _ =>
      let prompt := default globalPrompt (sub_prompt subfolder) in
      let outputPath :=
        default (sub_path subfolder +:+ "/README.md") (sub_outputPath subfolder) in
      existingDocs ←
        (if truthy (sub_existingDocs subfolder)
         then readExistingDoc rootDir
                (default EmptyString (sub_existingDocs subfolder))
         else readExistingDoc rootDir outputPath);
      fs ← getFs;
      let contextFiles :=
        contextFilesOf fs rootDir subfolder files allFiles exclude in
      let filesContent :=
        match contextFiles with
        | [] => formatFilesForLLM files
        | _ => formatFilesWithContext files contextFiles
        end in
      let estimate :=
        getTokenEstimate (fullInput prompt filesContent existingDocs)
          (Some model) true in
      let sourceFiles := file_path <$> (files ++ contextFiles) in
      if dryRun then
        mret (Some (mkDoc outputPath DRY_RUN_CONTENT sourceFiles), Some estimate)
      else
        content ←
          callLlm llmService
            (GenerateDocumentation prompt filesContent existingDocs);
        mret (Some (mkDoc outputPath content sourceFiles), Some estimate)
  end.

Definition generateUngroupedDocs (llmService : option LLMService)
    (rootDir : string) (files : list IndexedFile) (outputDir prompt : string)
    (model : string) (dryRun : bool) : Gen StepResult :=
  match files with
  | [] => mret (None, None)
  | _ =>
      let outputPath := outputDir +:+ "/api-reference.md" in
      existingDocs ← readExistingDoc rootDir outputPath;
      let filesContent := formatFilesForLLM files in
      let estimate :=
        getTokenEstimate (fullInput prompt filesContent existingDocs)
          (Some model) true in
      let sourceFiles := file_path <$> files in
      if dryRun then
        mret (Some (mkDoc outputPath DRY_RUN_CONTENT sourceFiles), Some estimate)
      else
        content ←
          callLlm llmService
            (GenerateApiReference prompt filesContent existingDocs);
        mret (Some (mkDoc outputPath content sourceFiles), Some estimate)
  end.

Definition generateReadme (llmService : option LLMService)
    (rootDir : string) (allFiles : list IndexedFile) (prompt : string)
    (model : string) (dryRun : bool) : Gen StepResult :=
  let projectName := NodeFs.basename rootDir in
  let outputPath := "README.md" in
  existingReadme ← readExistingDoc rootDir outputPath;
  let filesContent := formatFilesForLLM allFiles in
  let estimate :=
    getTokenEstimate (fullInput prompt filesContent existingReadme)
      (Some model) true in
  let sourceFiles := file_path <$> allFiles in
  if dryRun then
    mret (Some (mkDoc outputPath DRY_RUN_CONTENT sourceFiles), Some estimate)
  else
    content ←
      callLlm llmService
        (GenerateReadme prompt filesContent projectName existingReadme);
    mret (Some (mkDoc outputPath content sourceFiles), Some estimate).

Record ScanResult := mkScan {
  scan_files : list IndexedFile;
  scan_grouped : list (SubfolderConfig * list IndexedFile);
  scan_ungrouped : list IndexedFile
}.

(** The fields of the configuration that [generate] reads. *)
Record Config := mkConfig {
  cfg_prompt : string;
  cfg_outputDir : string;
  cfg_model : string;
  cfg_exclude : option (list string)
}.

(** The arrays [docs] and [estimates] of [generate]. *)
Definition Collected : Type := list GeneratedDoc * list TokenEstimate.

(** What [generate] does with the result of a step: push the document
    and the estimate, and write the document unless the run is dry. *)
Definition collect (rootDir : string) (dryRun : bool) (acc : Collected)
    (result : StepResult) : Gen Collected :=
  match result.1 with
  | Some doc =>
      let acc' :=
        (acc.1 ++ [doc],
         match result.2 with
         | Some estimate => acc.2 ++ [estimate]
         | None => acc.2
         end) in
      if dryRun then mret acc'
      else _ ← writeDoc rootDir (doc_outputPath doc) (doc_content doc);
           mret acc'
  | None => mret acc
  end.

(** The loop over [scanResult.grouped]. *)
Fixpoint generateSubfolders (llmService : option LLMService)
    (config : Config) (rootDir : string) (dryRun : bool)
    (allFiles : list IndexedFile)
    (groups : list (SubfolderConfig * list IndexedFile)) (acc : Collected)
    : Gen Collected :=
  match groups with
  | [] => mret acc
  | (subfolder, files) :: rest =>
      result ←
        generateSubfolderDoc llmService rootDir subfolder files allFiles
          (cfg_prompt config) (default [] (cfg_exclude config))
          (cfg_model config) dryRun;
      acc' ← collect rootDir dryRun acc result;
      generateSubfolders llmService config rootDir dryRun allFiles rest acc'
  end.

(** [DocumentationGenerator.generate], with the array [estimates] next
    to the documents it returns. *)
Definition generateRun (llmService : option LLMService) (config : Config)
    (rootDir : string) (dryRun : bool) (scanResult : ScanResult)
    : Gen Collected :=
  if negb dryRun && negb (bool_decide (is_Some llmService)) then
    throw "LLM service is required when not in dry-run mode"
  else
    acc1 ←
      generateSubfolders llmService config rootDir dryRun
        (scan_files scanResult) (scan_grouped scanResult) ([], []);
    ungroupedResult ←
      generateUngroupedDocs llmService rootDir (scan_ungrouped scanResult)
        (cfg_outputDir config) (cfg_prompt config) (cfg_model config) dryRun;
    acc2 ← collect rootDir dryRun acc1 ungroupedResult;
    readmeResult ←
      generateReadme llmService rootDir (scan_files scanResult)
        (cfg_prompt config) (cfg_model config) dryRun;
    collect rootDir dryRun acc2 readmeResult.

Definition generate (llmService : option LLMService) (config : Config)
    (rootDir : string) (dryRun : bool) (scanResult : ScanResult)
    : Gen (list GeneratedDoc) :=
  acc ← generateRun llmService config rootDir dryRun scanResult;
  mret acc.1.

End Generator.
(** ** Scanning (src/scanner/index.ts) *)

(** A [Map] with string keys: its entries in insertion order.  [set] on
    a key that is there replaces the value and keeps the position;
    [update] stands for a mutation of the value that [get] returns. *)
Module JsMap.

Fixpoint set {V} (m : list (string * V)) (k : string) (v : V)
    : list (string * V) :=
  match m with
  | [] => [(k, v)]
  | (k', v') :: m' =>
      if String.eqb k' k then (k', v) :: m' else (k', v') :: set m' k v
  end.

Fixpoint get {V} (m : list (string * V)) (k : string) : option V :=
  match m with
  | [] => None
  | (k', v') :: m' => if String.eqb k' k then Some v' else get m' k
  end.

Definition has {V} (m : list (string * V)) (k : string) : bool :=
  match get m k with
  | Some _ => true
  | None => false
  end.

Fixpoint update {V} (m : list (string * V)) (k : string) (f : V → V)
    : list (string * V) :=
  match m with
  | [] => []
  | (k', v') :: m' =>
      if String.eqb k' k then (k', f v') :: m' else (k', v') :: update m' k f
  end.

(** [new Map(entries)] and [Array.from(m.values())] *)
Definition ofEntries {V} (entries : list (string * V)) : list (string * V) :=
  foldl (λ m e, set m e.1 e.2) [] entries.

Definition values {V} (m : list (string * V)) : list V := snd <$> m.

End JsMap.

Section Scan.

Variable glob : FileSystem → string → string → list string → list string.

(** The body of the inner loop of [scanFiles]: a match that cannot be
    read is skipped. *)
Definition scanMatch (fs : FileSystem) (rootDir : string)
    (files : list IndexedFile) (m : string) : list IndexedFile :=
  let absolutePath := NodePath.resolve (fs_cwd fs) [rootDir; m] in
  let relativePath := NodePath.relative (fs_cwd fs) rootDir absolutePath in
  match readFileSync fs absolutePath with
  | Some content =>
      let directory := NodePath.dirname relativePath in
      files
      ++ [mkFile (normalizePath relativePath) content
            (normalizePath (if String.eqb directory "." then EmptyString
                            else directory))]
  | None => files
  end.

(** The array [files] before the duplicates are removed. *)
Definition scannedFiles (fs : FileSystem) (rootDir : string)
    (include exclude : list string) : list IndexedFile :=
  foldl
    (λ files pattern,
       foldl (scanMatch fs rootDir) files (glob fs rootDir pattern exclude))
    [] include.

Definition scanFiles (fs : FileSystem) (rootDir : string)
    (include exclude : list string) : list IndexedFile :=
  let files := scannedFiles fs rootDir include exclude in
  JsMap.values (JsMap.ofEntries ((λ f, (file_path f, f)) <$> files)).

(** [subfolders] is [[]] when the configuration has none. *)
Definition scanProject (fs : FileSystem) (rootDir : string)
    (include exclude : list string)
    (subfolders : option (list SubfolderConfig)) : ScanResult :=
  let files := scanFiles fs rootDir include exclude in
  let g := groupFilesBySubfolder files (default [] subfolders) in
  mkScan files (grouped g) (ungrouped g).

End Scan.

(** [getFilesSummary]: the map [byDirectory], then the lines. *)
Definition directoryKey (file : IndexedFile) : string :=
  match file_directory file with
  | EmptyString => "(root)"
  | directory => directory
  end.

Definition summaryStep (byDirectory : list (string * list string))
    (file : IndexedFile) : list (string * list string) :=
  let dir := directoryKey file in
  let byDirectory :=
    if JsMap.has byDirectory dir then byDirectory
    else JsMap.set byDirectory dir [] in
  JsMap.update byDirectory dir (λ filePaths, filePaths ++ [file_path file]).

Definition byDirectory (files : list IndexedFile)
    : list (string * list string) :=
  foldl summaryStep [] files.

Definition summaryLines (files : list IndexedFile) : list string :=
  concat ((λ e : string * list string,
             (e.1 +:+ "/") :: ((λ filePath, "  - " +:+ filePath) <$> e.2))
            <$> byDirectory files).

Definition getFilesSummary (files : list IndexedFile) : string :=
  match files with
  | [] => "No files found."
  | _ => Js.join nl (summaryLines files)
  end.
(** ** The LLM service (src/llm/index.ts)

    The chat model is the environment: [invoke] answers a list of
    messages with the content of a response, or rejects with an error
    message. *)

Module Llm.

Inductive Message : Type :=
| SystemMessage (content : string)
| HumanMessage (content : string).

Inductive ContentBlock : Type :=
| StringBlock (s : string)
| TextBlock (text : string)
| OtherBlock.

Inductive MessageContent : Type :=
| StringContent (s : string)
| ArrayContent (blocks : list ContentBlock)
| OtherContent.

Definition ChatModel : Type := list Message → Outcome MessageContent.

Definition dquote : string := String (ascii_of_nat 34) EmptyString.

Definition userContent (filesContent : string) (existingDocs : option string)
    : string :=
  "Here are the source files to document:" +:+ nl +:+ nl +:+ filesContent
  +:+ (if truthy existingDocs
       then nl +:+ nl +:+ "---" +:+ nl +:+ nl
            +:+ "Here is the existing documentation to update:" +:+ nl +:+ nl
            +:+ default EmptyString existingDocs
       else EmptyString).

(** The array [messages] of [generateDocumentation]. *)
Definition messages (systemPrompt filesContent : string)
    (existingDocs : option string) : list Message :=
  [SystemMessage systemPrompt; HumanMessage (userContent filesContent existingDocs)].

Definition blockText (block : ContentBlock) : string :=
  match block with
  | StringBlock s => s
  | TextBlock text => text
  | OtherBlock => EmptyString
  end.

Definition generateDocumentation (model : ChatModel)
    (systemPrompt filesContent : string) (existingDocs : option string)
    : Outcome string :=
  match model (messages systemPrompt filesContent existingDocs) with
  | Returned (StringContent content) => Returned content
  | Returned (ArrayContent blocks) =>
      Returned (Js.join EmptyString (blockText <$> blocks))
  | Returned OtherContent =>
      Thrown ("LLM generation failed: " +:+ "Unexpected response format from LLM")
  | Thrown message => Thrown ("LLM generation failed: " +:+ message)
  end.

Definition readmePrompt (systemPrompt projectName : string)
    (existingReadme : option string) : string :=
  systemPrompt +:+ nl +:+ nl
  +:+ "Generate a comprehensive README.md for the project " +:+ dquote
  +:+ projectName +:+ dquote +:+ ". Include:" +:+ nl
  +:+ "- Project title and description" +:+ nl
  +:+ "- Installation instructions" +:+ nl
  +:+ "- Usage examples" +:+ nl
  +:+ "- API overview (brief)" +:+ nl
  +:+ "- Contributing guidelines" +:+ nl
  +:+ "- License information" +:+ nl +:+ nl
  +:+ (if truthy existingReadme
       then "Update the existing README while preserving any custom sections the user may have added."
       else "Create a new README from scratch.").

Definition generateReadme (model : ChatModel)
    (systemPrompt filesContent projectName : string)
    (existingReadme : option string) : Outcome string :=
  generateDocumentation model
    (readmePrompt systemPrompt projectName existingReadme) filesContent
    existingReadme.

Definition apiPrompt (systemPrompt : string) : string :=
  systemPrompt +:+ nl +:+ nl
  +:+ "Generate detailed API reference documentation in markdown format. Include:"
  +:+ nl
  +:+ "- All exported functions, classes, interfaces, and types" +:+ nl
  +:+ "- Parameter descriptions with types" +:+ nl
  +:+ "- Return value descriptions" +:+ nl
  +:+ "- Code examples for each export" +:+ nl
  +:+ "- Group related items together logically".

Definition generateApiReference (model : ChatModel)
    (systemPrompt filesContent : string) (existingDocs : option string)
    : Outcome string :=
  generateDocumentation model (apiPrompt systemPrompt) filesContent
    existingDocs.

(** The method of the service that a request of the generator calls. *)
Definition answer (model : ChatModel) (request : LlmRequest) : Outcome string :=
  match request with
  | GenerateDocumentation prompt filesContent existingDocs =>
      generateDocumentation model prompt filesContent existingDocs
  | GenerateApiReference prompt filesContent existingDocs =>
      generateApiReference model prompt filesContent existingDocs
  | GenerateReadme prompt filesContent projectName existingReadme =>
      generateReadme model prompt filesContent projectName existingReadme
  end.

End Llm.

(** ** Vocabulary of the properties *)

(** The subfolder path as [belongsToSubfolder] compares it: separators
    normalised, one trailing slash removed. *)
Definition cleanPath (p : string) : string :=
  Js.stripTrailingSlash (normalizePath p).

(** [a] is a proper prefix-directory of [d]: [d] lies strictly below [a]. *)
Definition properPrefixDir (a d : string) : Prop :=
  Js.startsWith (cleanPath d) (cleanPath a +:+ "/") = true.

(** The order [sortedSubfolders] establishes: longer paths first and,
    among paths of one length, the order of the configuration. *)
Definition before (x y : nat * SubfolderConfig) : Prop :=
  (pathLength y < pathLength x)%nat
  ∨ (pathLength x = pathLength y ∧ (x.1 < y.1)%nat).

(** The containers of a grouping: the buckets in configuration order,
    then the ungrouped list. *)
Definition containers (g : Grouping) : list (list IndexedFile) :=
  (snd <$> grouped g) ++ [ungrouped g].

Definition paths (l : list IndexedFile) : list string := file_path <$> l.

(** The bucket a file is pushed to, if any, and the index of its
    container (the ungrouped list comes after the buckets). *)
Definition bucketOf (sorted : list (nat * SubfolderConfig))
    (f : IndexedFile) : option nat :=
  fst <$> firstMatch sorted (file_path f).

Definition slotOf (subfolders : list SubfolderConfig) (f : IndexedFile) : nat :=
  default (length subfolders) (bucketOf (sortedSubfolders subfolders) f).

(** A subfolder entry that sets only its path, and a file with a path and
    a content, for the examples. *)
Definition sf (p : string) : SubfolderConfig :=
  mkSubfolder p None None None None None None.
Definition fl (p : string) : IndexedFile := mkFile p EmptyString EmptyString.

(** The ratios of [TOKENS_PER_CHAR] as the decimals the source writes. *)
Definition exactRatio (isCode : bool) : Q :=
  if isCode then 35 # 100 else 25 # 100.

(** A text of [n] characters. *)
Definition text (n : Z) : string :=
  String.string_of_list_ascii (repeat "a"%char (Z.to_nat n)).



(** The window of the first estimate in the list that has one set, as
    the specification words it. *)
Fixpoint firstWindowSet (estimates : list TokenEstimate) : option Z :=
  match estimates with
  | [] => None
  | e :: rest =>
      match contextWindow e with
      | Some w => Some w
      | None => firstWindowSet rest
      end
  end.


(** A project of two modules that import each other, for the examples:
    [/r/a.ts] and [/r/b.ts], the project root and working directory
    being [/r]. *)
Definition fileA : IndexedFile :=
  mkFile "a.ts" "import { b } from './b'" EmptyString.
Definition fileB : IndexedFile :=
  mkFile "b.ts" "import { a } from './a'" EmptyString.

Definition cycleFs : FileSystem :=
  mkFs (list_to_map [("/r", Directory);
                     ("/r/a.ts", RegularFile (file_content fileA));
                     ("/r/b.ts", RegularFile (file_content fileB))])
       "/r".

(** The paths of a list of files as the resolver compares them. *)
Definition normalizedPaths (l : list IndexedFile) : list string :=
  (λ f, normalizePath (file_path f)) <$> l.

(** What the loops of one level maintain: the files found so far have
    distinct paths, all recorded in [processedImports], none of them a
    path of the current files. *)
Definition levelInv (current : gset string) (st : LevelState) : Prop :=
  NoDup (normalizedPaths st.1)
  ∧ (∀ p, p ∈ normalizedPaths st.1 → p ∈ st.2)
  ∧ (∀ p, p ∈ normalizedPaths st.1 → p ∉ current).

(** The generation steps of a run, in order: one per configured
    subfolder, the ungrouped files, the README. *)
Inductive Step : Type :=
| SubfolderStep (subfolder : SubfolderConfig) (files : list IndexedFile)
| UngroupedStep
| ReadmeStep.


Definition runStep
    (glob : FileSystem → string → string → list string → list string)
    (llmService : option LLMService) (config : Config) (rootDir : string)
    (dryRun : bool) (scanResult : ScanResult) (step : Step) : Gen StepResult :=
  match step with
  | SubfolderStep subfolder files =>
      generateSubfolderDoc glob llmService rootDir subfolder files
        (scan_files scanResult) (cfg_prompt config)
        (default [] (cfg_exclude config)) (cfg_model config) dryRun
  | UngroupedStep =>
      generateUngroupedDocs llmService rootDir (scan_ungrouped scanResult)
        (cfg_outputDir config) (cfg_prompt config) (cfg_model config) dryRun
  | ReadmeStep =>
      generateReadme llmService rootDir (scan_files scanResult)
        (cfg_prompt config) (cfg_model config) dryRun
  end.

(** The existing document a step reads, if the step has files. *)
Definition stepDocPath (config : Config) (rootDir cwd : string)
    (scanResult : ScanResult) (step : Step) : option string :=
  match step with
  | SubfolderStep subfolder files =>
      match files with
      | [] => None
      | _ =>
          Some (NodePath.resolve cwd
                  [rootDir;
                   if truthy (sub_existingDocs subfolder)
                   then default EmptyString (sub_existingDocs subfolder)
                   else default (sub_path subfolder +:+ "/README.md")
                          (sub_outputPath subfolder)])
      end
  | UngroupedStep =>
      match scan_ungrouped scanResult with
      | [] => None
      | _ =>
          Some (NodePath.resolve cwd
                  [rootDir; cfg_outputDir config +:+ "/api-reference.md"])
      end
  | ReadmeStep => Some (NodePath.resolve cwd [rootDir; "README.md"])
  end.



(** A step that ran: a placeholder document and an estimate; a step
    without files: neither. *)
Definition dryResult (r : StepResult) : Prop :=
  match r.1 with
  | Some doc => doc_content doc = DRY_RUN_CONTENT ∧ is_Some r.2
  | None => r.2 = None
  end.

(** A computation that leaves the file system and the trace as they are. *)
Definition quiet {A} (m : Gen A) : Prop := ∀ s, (m s).2 = s.

(** A dry run over the project of two modules: [a.ts] is a configured
    target, [b.ts] is ungrouped; no file matches a glob pattern. *)
Definition noGlob : FileSystem → string → string → list string → list string :=
  λ _ _ _ _, [].

Definition exampleConfig : Config :=
  mkConfig "Document this code." "docs" "gpt-4o" None.

Definition exampleScan : ScanResult :=
  let g :=
    groupFilesBySubfolder [fileA; fileB]
      [mkSubfolder "a.ts" None (Some "docs/a.md") None None None None] in
  mkScan [fileA; fileB] (grouped g) (ungrouped g).
(** ** Vocabulary of further properties *)

(** What the matcher can find: [Matches r s cap s' cap'] when [r]
    matches a prefix of [s] and leaves [s'], the capture going from
    [cap] to [cap']. *)
Inductive Matches
    : Regex.re → string → option string → string → option string → Prop :=
| Matches_Eps s cap : Matches Regex.Eps s cap s cap
| Matches_Chr p c s cap :
    p c = true → Matches (Regex.Chr p) (String c s) cap s cap
| Matches_Seq r1 r2 s cap s1 cap1 s2 cap2 :
    Matches r1 s cap s1 cap1 → Matches r2 s1 cap1 s2 cap2 →
    Matches (Regex.Seq r1 r2) s cap s2 cap2
| Matches_Alt_l r1 r2 s cap s' cap' :
    Matches r1 s cap s' cap' → Matches (Regex.Alt r1 r2) s cap s' cap'
| Matches_Alt_r r1 r2 s cap s' cap' :
    Matches r2 s cap s' cap' → Matches (Regex.Alt r1 r2) s cap s' cap'
| Matches_Star_nil r s cap : Matches (Regex.Star r) s cap s cap
| Matches_Star_cons r s cap s1 cap1 s2 cap2 :
    Matches r s cap s1 cap1 → Matches (Regex.Star r) s1 cap1 s2 cap2 →
    Matches (Regex.Star r) s cap s2 cap2
| Matches_Group r s cap s' cap' :
    Matches r s cap s' cap' →
    Matches (Regex.Group r) s cap s' (Some (Regex.consumed s s')).

(** A module specifier as the patterns capture it: not empty, without a
    quote, and standing between two quotes in the text. *)
Definition quotedIn (content p : string) : Prop :=
  p ≠ EmptyString
  ∧ (∀ c, c ∈ String.list_ascii_of_string p → Regex.quote c = false)
  ∧ ∃ before after q1 q2,
      Regex.quote q1 = true ∧ Regex.quote q2 = true
      ∧ content = before +:+ String q1 (p +:+ String q2 after).

(** The calls recorded in a trace. *)
Definition writesOf (trace : list Event) : list (string * string) :=
  omap (λ e, match e with WriteCall p c => Some (p, c) | _ => None end) trace.

Definition requestsOf (trace : list Event) : list LlmRequest :=
  omap (λ e, match e with LlmCall r => Some r | _ => None end) trace.

(** A pattern without a capture group. *)
Fixpoint groupFree (r : Regex.re) : bool :=
  match r with
  | Regex.Eps | Regex.Chr _ => true
  | Regex.Seq r1 r2 | Regex.Alt r1 r2 => groupFree r1 && groupFree r2
  | Regex.Star r1 => groupFree r1
  | Regex.Group _ => false
  end.

(** Every match of [r] captures a specifier that stands between two
    quotes in the text matched. *)
Definition capturesQuoted (r : Regex.re) : Prop :=
  ∀ s cap s' cap',
    Matches r s cap s' cap' →
    ∃ u p q1 q2 v,
      Regex.quote q1 = true ∧ Regex.quote q2 = true
      ∧ s = u +:+ String q1 (p +:+ String q2 (v +:+ s'))
      ∧ cap' = Some p ∧ p ≠ EmptyString
      ∧ ∀ c, c ∈ String.list_ascii_of_string p → Regex.quote c = false.

(** What a part of a run added to the trace: the writes and the
    requests; the working directory stays. *)
Definition stepped (s s' : RunState) (writes : list (string * string))
    (requests : list LlmRequest) : Prop :=
  fs_cwd (st_fs s') = fs_cwd (st_fs s)
  ∧ writesOf (st_trace s') = writesOf (st_trace s) ++ writes
  ∧ requestsOf (st_trace s') = requestsOf (st_trace s) ++ requests.

(** The write that [generate] issues for a document. *)
Definition docWrite (cwd rootDir : string) (doc : GeneratedDoc)
    : string * string :=
  (NodePath.resolve cwd [rootDir; doc_outputPath doc], doc_content doc).

(** What a step of a run that is not dry does: nothing when it has no
    files, one request otherwise, whose answer is the content of the
    document. *)
Definition answered (service : LLMService) (s : RunState) (r : StepResult)
    (s' : RunState) : Prop :=
  match r.1 with
  | None => s' = s
  | Some doc =>
      ∃ request,
        service request = Some (doc_content doc) ∧ stepped s s' [] [request]
  end.

(** What a stretch of a run that is not dry does: every document it
    pushes is the answer to a request it made, and is written. *)
Definition written (service : LLMService) (cwd rootDir : string)
    (s : RunState) (acc : Collected) (s' : RunState) (acc' : Collected)
    : Prop :=
  ∃ docs requests,
    acc'.1 = acc.1 ++ docs
    ∧ stepped s s' (docWrite cwd rootDir <$> docs) requests
    ∧ Forall2 (λ doc request, service request = Some (doc_content doc))
        docs requests.

(** The messages that the service sends to the model for a request, and
    the number of characters they carry. *)
Definition requestMessages (request : LlmRequest) : list Llm.Message :=
  match request with
  | GenerateDocumentation prompt filesContent existingDocs =>
      Llm.messages prompt filesContent existingDocs
  | GenerateApiReference prompt filesContent existingDocs =>
      Llm.messages (Llm.apiPrompt prompt) filesContent existingDocs
  | GenerateReadme prompt filesContent projectName existingReadme =>
      Llm.messages (Llm.readmePrompt prompt projectName existingReadme)
        filesContent existingReadme
  end.

Definition messageLength (message : Llm.Message) : nat :=
  match message with
  | Llm.SystemMessage content | Llm.HumanMessage content =>
      String.length content
  end.

Definition charactersSent (request : LlmRequest) : nat :=
  sum_list (messageLength <$> requestMessages request).

(** The text that the generator estimates for a request. *)
Definition estimatedInput (request : LlmRequest) : string :=
  match request with
  | GenerateDocumentation prompt filesContent existingDocs
  | GenerateApiReference prompt filesContent existingDocs
  | GenerateReadme prompt filesContent _ existingDocs =>
      fullInput prompt filesContent existingDocs
  end.

(** ** What a dry run produces *)











(** ** Names and estimates *)

(** The names of the members of [Object.prototype], which
    [MODEL_PRICING[model]] finds although they are no keys of the
    table. *)
Definition objectPrototypeNames : list string :=
  ["constructor"; "__defineGetter__"; "__defineSetter__"; "hasOwnProperty";
   "__lookupGetter__"; "__lookupSetter__"; "isPrototypeOf";
   "propertyIsEnumerable"; "toString"; "valueOf"; "__proto__";
   "toLocaleString"].

(** A model name, if given, is none of them. *)
Definition plainModelName (model : option string) : Prop :=
  ∀ m, model = Some m → m ∉ objectPrototypeNames.

(* ================================================================== *)
(** * Part II: properties *)
(* ================================================================== *)

Example normalizePath_win : normalizePath "src\api\x.ts" = "src/api/x.ts".
Proof. reflexivity. Qed.

Example group_demo :
  groupFilesBySubfolder [fl "src/api/x.ts"; fl "src/y.ts"; fl "z.ts"]
                        [sf "src"; sf "src/api"]
  = {| grouped := [(sf "src", [fl "src/y.ts"]); (sf "src/api", [fl "src/api/x.ts"])];
       ungrouped := [fl "z.ts"] |}.
Proof. vm_compute. reflexivity. Qed.

(** ** Grouping: the sorted order *)

Section SortedSubfolders.

Lemma insertByLength_perm x l : insertByLength x l ≡ₚ x :: l.
Proof.
  induction l as [|y l IH]; simpl; [done|].
  destruct (pathLength x <? pathLength y)%nat; [|done].
  rewrite IH. apply Permutation_swap.
Qed.

Lemma foldr_insertByLength_perm l : foldr insertByLength [] l ≡ₚ l.
Proof.
  induction l as [|x l IH]; simpl; [done|].
  by rewrite insertByLength_perm, IH.
Qed.

Lemma elem_of_sortedSubfolders i s subfolders :
  (i, s) ∈ sortedSubfolders subfolders ↔ subfolders !! i = Some s.
Proof.
  unfold sortedSubfolders. rewrite foldr_insertByLength_perm.
  rewrite elem_of_lookup_imap. split.
  - intros (j & y & [= -> ->] & H). done.
  - intros H. by exists i, s.
Qed.

Lemma insertByLength_sorted x l :
  StronglySorted before l →
  Forall (λ y, (x.1 < y.1)%nat) l →
  StronglySorted before (insertByLength x l).
Proof.
  induction 1 as [|y l Hl IH Hy]; intros Hx; simpl.
  - repeat constructor.
  - inversion_clear Hx as [|?? Hxy Hxl].
    destruct (pathLength x <? pathLength y)%nat eqn:E.
    + apply Nat.ltb_lt in E. constructor; [by apply IH|].
      rewrite insertByLength_perm. constructor; [by left|done].
    + apply Nat.ltb_ge in E.
      assert (before x y) as Hb.
      { unfold before. destruct (decide (pathLength y = pathLength x)); lia. }
      constructor; [by constructor|]. constructor; [done|].
      rewrite Forall_forall in Hy, Hxl |- *. intros z Hz.
      specialize (Hy z Hz). specialize (Hxl z Hz).
      unfold before in *. lia.
Qed.

Lemma indexed_ascending k (l : list SubfolderConfig) :
  StronglySorted (λ x y, (x.1 < y.1)%nat) (imap (λ i s, ((k + i)%nat, s)) l).
Proof.
  revert k. induction l as [|s l IH]; intros k; [constructor|].
  rewrite imap_cons. constructor.
  - erewrite imap_ext; [apply (IH (S k))|].
    intros i x _. simpl. f_equal. lia.
  - apply Forall_forall. intros y Hy.
    apply elem_of_lookup_imap in Hy as (i & z & -> & _). simpl. lia.
Qed.

Lemma foldr_insertByLength_sorted l :
  StronglySorted (λ x y, (x.1 < y.1)%nat) l →
  StronglySorted before (foldr insertByLength [] l).
Proof.
  induction 1 as [|x l Hl IH Hx]; simpl; [constructor|].
  apply insertByLength_sorted; [done|].
  by rewrite foldr_insertByLength_perm.
Qed.

Lemma sortedSubfolders_sorted subfolders :
  StronglySorted before (sortedSubfolders subfolders).
Proof.
  apply foldr_insertByLength_sorted. apply (indexed_ascending 0).
Qed.

(** What the inner loop with its [break] finds. *)
Lemma find_sorted_first {A} (R : relation A) (P : A → bool) l r :
  StronglySorted R l → List.find P l = Some r →
  r ∈ l ∧ P r = true ∧ ∀ x, x ∈ l → P x = true → x = r ∨ R r x.
Proof.
  induction 1 as [|y l Hl IH Hy]; simpl; [done|].
  destruct (P y) eqn:Py.
  - intros [= <-]. split; [left|]. split; [done|].
    intros x Hx _. apply elem_of_cons in Hx as [->|Hx]; [by left|].
    right. rewrite Forall_forall in Hy. by apply Hy.
  - intros Hf. destruct (IH Hf) as (Hr & HP & Hfirst).
    split; [by right|]. split; [done|].
    intros x Hx HPx. apply elem_of_cons in Hx as [->|Hx]; [congruence|].
    by apply Hfirst.
Qed.

Lemma find_none_iff {A} (P : A → bool) l :
  List.find P l = None ↔ ∀ x, x ∈ l → P x = false.
Proof.
  induction l as [|y l IH]; simpl.
  - split; [|done]. intros _ x Hx. by apply elem_of_nil in Hx.
  - destruct (P y) eqn:Py.
    + split; [done|]. intros H. specialize (H y). rewrite Py in H.
      by discriminate H; left.
    + rewrite IH. split.
      * intros H x Hx. apply elem_of_cons in Hx as [->|Hx]; auto.
      * intros H x Hx. apply H. by right.
Qed.

End SortedSubfolders.

(** ** Grouping: what the loop computes *)

Lemma filter_ext_elem {A} (P Q : A → Prop)
    `{!∀ x, Decision (P x), !∀ x, Decision (Q x)} (l : list A) :
  (∀ x, x ∈ l → P x ↔ Q x) → filter P l = filter Q l.
Proof.
  induction l as [|a l IH]; intros Hext; [done|].
  rewrite !filter_cons. rewrite IH by (intros x Hx; apply Hext; by right).
  destruct (decide (P a)) as [HP|HP], (decide (Q a)) as [HQ|HQ]; try done.
  - exfalso. apply HQ, Hext; [left|done].
  - exfalso. apply HP, Hext; [left|done].
Qed.

Section GroupLoop.

Variable sorted : list (nat * SubfolderConfig).

Lemma groupStep_buckets st f i :
  (groupStep sorted st f).1 !! i =
  (λ b, b ++ filter (λ g, bucketOf sorted g = Some i) [f]) <$> st.1 !! i.
Proof.
  unfold groupStep, bucketOf.
  destruct (firstMatch sorted (file_path f)) as [[j s]|] eqn:E; simpl.
  - destruct (decide (j = i)) as [->|Hne].
    + rewrite list_lookup_alter_eq.
      rewrite filter_cons_True by (by rewrite E).
      by destruct (st.1 !! i).
    + rewrite list_lookup_alter_ne by done.
      rewrite filter_cons_False by (rewrite E; simpl; congruence).
      destruct (st.1 !! i); simpl; [|done]. by rewrite app_nil_r.
  - rewrite filter_cons_False by (by rewrite E).
    destruct (st.1 !! i); simpl; [|done]. by rewrite app_nil_r.
Qed.

Lemma foldl_groupStep_buckets files st i :
  (foldl (groupStep sorted) st files).1 !! i =
  (λ b, b ++ filter (λ g, bucketOf sorted g = Some i) files) <$> st.1 !! i.
Proof.
  revert st. induction files as [|f files IH]; intros st; simpl.
  - destruct (st.1 !! i); simpl; [|done]. by rewrite app_nil_r.
  - rewrite IH, groupStep_buckets.
    destruct (st.1 !! i) as [b|]; simpl; [|done].
    f_equal. rewrite <- app_assoc. f_equal.
    change (f :: files) with ([f] ++ files). by rewrite filter_app.
Qed.

Lemma foldl_groupStep_assigned files st p :
  p ∈ (foldl (groupStep sorted) st files).2 ↔
  p ∈ st.2 ∨ (p ∈ paths files ∧ is_Some (firstMatch sorted p)).
Proof.
  revert st. induction files as [|f files IH]; intros st.
  - unfold paths. simpl. rewrite elem_of_nil. tauto.
  - change (foldl (groupStep sorted) st (f :: files))
      with (foldl (groupStep sorted) (groupStep sorted st f) files).
    rewrite IH. unfold paths. rewrite fmap_cons, elem_of_cons.
    unfold groupStep.
    destruct (firstMatch sorted (file_path f)) as [[j s]|] eqn:E; simpl.
    + rewrite elem_of_union, elem_of_singleton. split.
      * intros [[->|?]|[? ?]]; rewrite ?E; eauto.
      * intros [?|[[->|?] ?]]; eauto.
    + split; [tauto|]. intros [?|[[->|?] Hs]]; eauto.
      rewrite E in Hs. by destruct Hs.
Qed.

Lemma foldl_groupStep_length files st :
  length (foldl (groupStep sorted) st files).1 = length st.1.
Proof.
  revert st. induction files as [|f files IH]; intros st; simpl; [done|].
  rewrite IH. unfold groupStep.
  destruct (firstMatch sorted (file_path f)) as [[j s]|]; simpl; [|done].
  by rewrite length_alter.
Qed.

End GroupLoop.

Section GroupSpec.

Variables (files : list IndexedFile) (subfolders : list SubfolderConfig).

Local Abbreviation sorted := (sortedSubfolders subfolders).
Local Abbreviation g := (groupFilesBySubfolder files subfolders).

(** The bucket of the [i]-th configured subfolder holds the files whose
    first match is that subfolder, in scan order. *)
Lemma grouped_lookup i s :
  subfolders !! i = Some s →
  grouped g !! i = Some (s, filter (λ f, bucketOf sorted f = Some i) files).
Proof.
  intros Hs. unfold groupFilesBySubfolder. simpl.
  rewrite lookup_zip_with, Hs. simpl.
  rewrite foldl_groupStep_buckets. simpl.
  rewrite lookup_replicate_2 by (by eapply lookup_lt_Some). done.
Qed.

Lemma grouped_length : length (grouped g) = length subfolders.
Proof.
  unfold groupFilesBySubfolder. simpl.
  rewrite length_zip_with, foldl_groupStep_length. simpl.
  rewrite length_replicate. lia.
Qed.

Lemma grouped_keys : fst <$> grouped g = subfolders.
Proof.
  unfold groupFilesBySubfolder. simpl. apply fst_zip.
  rewrite foldl_groupStep_length. simpl. by rewrite length_replicate.
Qed.

Lemma ungrouped_spec :
  ungrouped g = filter (λ f, bucketOf sorted f = None) files.
Proof.
  unfold groupFilesBySubfolder. simpl.
  apply filter_ext_elem. intros f Hf.
  rewrite foldl_groupStep_assigned. simpl. unfold bucketOf.
  split.
  - intros Hn. destruct (firstMatch _ _) eqn:E; [|done].
    exfalso. apply Hn. right. split; [by apply list_elem_of_fmap_2|].
    eauto.
  - intros E [Hin|[_ Hs]]; [by apply elem_of_empty in Hin|].
    destruct (firstMatch sorted (file_path f)); [done|].
    by destruct Hs.
Qed.

Lemma bucketOf_bound f i :
  bucketOf sorted f = Some i → (i < length subfolders)%nat.
Proof.
  unfold bucketOf. destruct (firstMatch _ _) as [[j s]|] eqn:E; [|done].
  intros [= <-]. apply find_some in E as [Hin _].
  apply list_elem_of_In, elem_of_sortedSubfolders in Hin.
  by eapply lookup_lt_Some.
Qed.

Lemma containers_lookup_bucket i :
  (i < length subfolders)%nat →
  containers g !! i = Some (filter (λ f, bucketOf sorted f = Some i) files).
Proof.
  intros Hi. destruct (lookup_lt_is_Some_2 subfolders i Hi) as [s Hs].
  unfold containers. rewrite lookup_app_l.
  - rewrite list_lookup_fmap, (grouped_lookup i s Hs). done.
  - rewrite length_fmap, grouped_length. done.
Qed.

Lemma containers_lookup_ungrouped :
  containers g !! length subfolders
  = Some (filter (λ f, bucketOf sorted f = None) files).
Proof.
  unfold containers. rewrite lookup_app_r; rewrite length_fmap, grouped_length; [|lia].
  by rewrite Nat.sub_diag, ungrouped_spec.
Qed.

Lemma containers_length : length (containers g) = S (length subfolders).
Proof.
  unfold containers. rewrite length_app, length_fmap, grouped_length. simpl. lia.
Qed.

Lemma containers_lookup i c :
  containers g !! i = Some c → c = filter (λ f, slotOf subfolders f = i) files.
Proof.
  intros Hc. assert (i < S (length subfolders))%nat as Hi.
  { rewrite <- containers_length. by eapply lookup_lt_Some. }
  destruct (decide (i = length subfolders)) as [->|Hne].
  - rewrite containers_lookup_ungrouped in Hc. injection Hc as <-.
    apply list_filter_iff. intros f. unfold slotOf.
    destruct (bucketOf sorted f) as [j|] eqn:E; simpl; [|done].
    apply bucketOf_bound in E. split; [done|lia].
  - rewrite containers_lookup_bucket in Hc by lia. injection Hc as <-.
    apply list_filter_iff. intros f. unfold slotOf.
    destruct (bucketOf sorted f) as [j|] eqn:E; simpl; [naive_solver|].
    split; [done|lia].
Qed.

End GroupSpec.

(** ** Grouping: the partition *)

Section Slots.

Context {A : Type} (slot : A → nat).

Lemma filter_slot_split n (l : list A) :
  filter (λ x, (slot x < n)%nat) l ++ filter (λ x, slot x = n) l
  ≡ₚ filter (λ x, (slot x < S n)%nat) l.
Proof.
  induction l as [|x l IH]; [done|].
  rewrite !filter_cons.
  destruct (decide (slot x < n)%nat), (decide (slot x = n)),
    (decide (slot x < S n)%nat); try lia; simpl.
  - by rewrite IH.
  - rewrite <- IH. symmetry. apply Permutation_middle.
  - done.
Qed.

Lemma concat_slots n (l : list A) :
  concat ((λ i, filter (λ x, slot x = i) l) <$> seq 0 n)
  ≡ₚ filter (λ x, (slot x < n)%nat) l.
Proof.
  induction n as [|n IH].
  - simpl. symmetry. apply Permutation_nil_r.
    induction l as [|x l IHl]; [done|].
    rewrite filter_cons_False by lia. done.
  - rewrite seq_S, fmap_app, concat_app, IH. simpl.
    rewrite app_nil_r. apply filter_slot_split.
Qed.

Lemma filter_all (P : A → Prop) `{!∀ x, Decision (P x)} (l : list A) :
  (∀ x, x ∈ l → P x) → filter P l = l.
Proof.
  induction l as [|x l IH]; intros Hall; [done|].
  rewrite filter_cons_True by (apply Hall; left).
  f_equal. apply IH. intros y Hy. apply Hall. by right.
Qed.

End Slots.

Section Partition.

Variables (files : list IndexedFile) (subfolders : list SubfolderConfig).
Local Abbreviation g := (groupFilesBySubfolder files subfolders).

Lemma slotOf_bound f : (slotOf subfolders f < S (length subfolders))%nat.
Proof.
  unfold slotOf. destruct (bucketOf _ f) as [i|] eqn:E; simpl; [|lia].
  apply bucketOf_bound in E. lia.
Qed.

Lemma slotOf_path f h :
  file_path f = file_path h → slotOf subfolders f = slotOf subfolders h.
Proof. unfold slotOf, bucketOf. by intros ->. Qed.

Lemma containers_slots :
  containers g
  = (λ i, filter (λ f, slotOf subfolders f = i) files)
      <$> seq 0 (S (length subfolders)).
Proof.
  apply list_eq. intros i. rewrite list_lookup_fmap.
  destruct (decide (i < S (length subfolders))%nat) as [Hi|Hi].
  - rewrite lookup_seq_lt by done. simpl.
    destruct (lookup_lt_is_Some_2 (containers g) i) as [c Hc].
    { by rewrite containers_length. }
    rewrite Hc. f_equal. by apply containers_lookup.
  - rewrite lookup_seq_ge by lia. simpl.
    apply lookup_ge_None_2. rewrite containers_length. lia.
Qed.

(** C4.  The buckets of [grouped] and the [ungrouped] list partition the
    input: together they hold exactly the input files, and the path of
    an input file occurs in one container only. *)
Theorem groupFilesBySubfolder_partition :
  concat (containers g) ≡ₚ files
  ∧ ∀ f, f ∈ files →
      ∃ i c, containers g !! i = Some c ∧ f ∈ c
             ∧ ∀ j c', containers g !! j = Some c' →
                       file_path f ∈ paths c' → j = i.
Proof.
  split.
  - rewrite containers_slots, concat_slots.
    rewrite filter_all; [done|]. intros f _. apply slotOf_bound.
  - intros f Hf. exists (slotOf subfolders f).
    destruct (lookup_lt_is_Some_2 (containers g) (slotOf subfolders f))
      as [c Hc].
    { rewrite containers_length. apply slotOf_bound. }
    exists c. split; [done|]. pose proof (containers_lookup _ _ _ _ Hc) as ->.
    split.
    + by apply list_elem_of_filter.
    + intros j c' Hc' Hp. pose proof (containers_lookup _ _ _ _ Hc') as ->.
      apply list_elem_of_fmap in Hp as (h & Hph & Hh).
      apply list_elem_of_filter in Hh as [<- _].
      symmetry. by apply slotOf_path.
Qed.

End Partition.

(** ** Strings *)

Section StringFacts.

Lemma length_append s t :
  String.length (s +:+ t) = (String.length s + String.length t)%nat.
Proof. induction s as [|c s IH]; simpl; [done|]. by rewrite IH. Qed.

Lemma append_assoc s t u : (s +:+ t) +:+ u = s +:+ (t +:+ u).
Proof.
  induction s as [|c s IH]; [done|].
  change (String c ((s +:+ t) +:+ u) = String c (s +:+ (t +:+ u))).
  by rewrite IH.
Qed.

Lemma append_nil_r s : s +:+ EmptyString = s.
Proof.
  induction s as [|c s IH]; [done|].
  change (String c (s +:+ EmptyString) = String c s). by rewrite IH.
Qed.

Lemma startsWith_iff s p : Js.startsWith s p = true ↔ ∃ t, s = p +:+ t.
Proof.
  unfold Js.startsWith. revert s.
  induction p as [|a p IH]; intros s; simpl.
  - split; [|by destruct s]. intros _. by exists s.
  - destruct s as [|b s].
    + split; [done|]. by intros [t [=]].
    + simpl. destruct (ascii_dec a b) as [->|Hne].
      * rewrite IH. split; intros [t Ht]; exists t.
        -- by subst s.
        -- by injection Ht.
      * split; [done|]. intros [t [=]]. congruence.
Qed.

Lemma split_nonempty sep s : Js.split sep s ≠ [].
Proof.
  destruct s as [|c s]; simpl; [done|].
  destruct (Ascii.eqb c sep); [done|]. by destruct (Js.split sep s).
Qed.

(** [p.split(bs).join(slash)] replaces every backslash by a slash. *)
Lemma normalizePath_cons c s :
  normalizePath (String c s)
  = String (if Ascii.eqb c "\"%char then "/"%char else c) (normalizePath s).
Proof.
  unfold normalizePath, Js.join. simpl.
  pose proof (split_nonempty "\"%char s) as Hne.
  destruct (Ascii.eqb c "\"%char).
  - simpl. by destruct (Js.split "\"%char s).
  - destruct (Js.split "\"%char s) as [|w ws]; [done|].
    simpl. by destruct ws.
Qed.

Lemma length_normalizePath p :
  String.length (normalizePath p) = String.length p.
Proof.
  induction p as [|c p IH]; [done|].
  rewrite normalizePath_cons. simpl. by rewrite IH.
Qed.

(** [normalizePath] is idempotent. *)
Lemma normalizePath_idemp p : normalizePath (normalizePath p) = normalizePath p.
Proof.
  induction p as [|c p IH]; [done|].
  rewrite !normalizePath_cons, IH.
  destruct (Ascii.eqb c "\"%char) eqn:E; [done|]. by rewrite E.
Qed.

Lemma stripTrailingSlash_spec s :
  (Js.stripTrailingSlash s = s ∧ ∀ t, s ≠ t +:+ "/")
  ∨ s = Js.stripTrailingSlash s +:+ "/".
Proof.
  induction s as [|c s IH].
  - left. split; [done|]. by intros [|??].
  - destruct s as [|d s].
    + simpl. destruct (Ascii.eqb_spec c "/"%char) as [->|Hne].
      * by right.
      * left. split; [done|]. intros [|a t]; simpl.
        -- intros [= ->]. by apply Hne.
        -- intros [= _ Ht]. by destruct t.
    + change (Js.stripTrailingSlash (String c (String d s)))
        with (String c (Js.stripTrailingSlash (String d s))).
      destruct IH as [[IH1 IH2]|IH].
      * left. split; [by rewrite IH1|].
        intros [|a t]; simpl; [done|]. intros [= -> Ht]. by eapply IH2.
      * right.
        change (String c (String d s)
                = String c (Js.stripTrailingSlash (String d s) +:+ "/")).
        by rewrite <- IH.
Qed.

Lemma length_cleanPath_le p :
  (String.length (cleanPath p) ≤ String.length p)%nat
  ∧ (String.length p ≤ S (String.length (cleanPath p)))%nat.
Proof.
  unfold cleanPath. rewrite <- (length_normalizePath p).
  destruct (stripTrailingSlash_spec (normalizePath p)) as [[-> _]|H].
  - lia.
  - rewrite H at 2 3. rewrite length_append. simpl. lia.
Qed.

(** A subfolder strictly below another has the longer configured path. *)
Lemma properPrefixDir_longer a d :
  properPrefixDir a d → (String.length a < String.length d)%nat.
Proof.
  unfold properPrefixDir. rewrite startsWith_iff. intros [t Ht].
  pose proof (length_cleanPath_le a) as [_ Ha].
  pose proof (length_cleanPath_le d) as [Hd _].
  pose proof (f_equal String.length Ht) as Hlen.
  rewrite !length_append in Hlen. simpl in Hlen.
  destruct t as [|c t]; simpl in Hlen; [|lia].
  rewrite append_nil_r in Ht.
  destruct (stripTrailingSlash_spec (normalizePath d)) as [[E Hno]|E];
    fold (cleanPath d) in E.
  - exfalso. apply (Hno (cleanPath a)). by rewrite <- E, Ht.
  - pose proof (f_equal String.length E) as Hlen'.
    rewrite length_normalizePath, length_append in Hlen'.
    simpl in Hlen'. lia.
Qed.

Lemma belongsToSubfolder_iff p q :
  belongsToSubfolder p q = true ↔
  (∃ t, normalizePath p = cleanPath q +:+ "/" +:+ t)
  ∨ normalizePath p = cleanPath q.
Proof.
  unfold belongsToSubfolder. rewrite orb_true_iff, startsWith_iff.
  rewrite String.eqb_eq. fold (cleanPath q).
  split; (intros [[t Ht]|H]; [left; exists t|by right]).
  - by rewrite <- append_assoc.
  - by rewrite append_assoc.
Qed.

(** X3.  A file that belongs to a subfolder belongs to every subfolder
    that lies above that subfolder. *)
Lemma belongsToSubfolder_ancestor p a d :
  properPrefixDir a d →
  belongsToSubfolder p d = true → belongsToSubfolder p a = true.
Proof.
  unfold properPrefixDir. rewrite startsWith_iff, !belongsToSubfolder_iff.
  intros [t Ht] [[u Hu]|Hu]; left.
  - exists (t +:+ "/" +:+ u). rewrite Hu, Ht. by rewrite !append_assoc.
  - exists t. rewrite Hu, Ht. by rewrite append_assoc.
Qed.

End StringFacts.

(** [src/api/x.ts] lies in [src/api/], which lies in [src]. *)
Lemma belongsToSubfolder_ancestor_witness :
  belongsToSubfolder "src/api/x.ts" "src" = true.
Proof.
  apply (belongsToSubfolder_ancestor "src/api/x.ts" "src" "src/api/");
    reflexivity.
Defined.

(** ** Grouping: the most specific subfolder *)

Section MostSpecific.

Variables (files : list IndexedFile) (subfolders : list SubfolderConfig).
Local Abbreviation sorted := (sortedSubfolders subfolders).
Local Abbreviation g := (groupFilesBySubfolder files subfolders).

Lemma bucketOf_first f i :
  bucketOf sorted f = Some i →
  ∃ s, subfolders !! i = Some s
       ∧ belongsToSubfolder (file_path f) (sub_path s) = true
       ∧ ∀ k t, subfolders !! k = Some t →
                belongsToSubfolder (file_path f) (sub_path t) = true →
                k = i ∨ before (i, s) (k, t).
Proof.
  unfold bucketOf.
  destruct (firstMatch sorted (file_path f)) as [[i' s]|] eqn:E; [|done].
  intros [= ->]. exists s.
  apply (find_sorted_first before) in E as (Hin & Hm & Hfirst);
    [|apply sortedSubfolders_sorted].
  apply elem_of_sortedSubfolders in Hin. split; [done|]. split; [done|].
  intros k t Hk Hkm.
  destruct (Hfirst (k, t)) as [[= -> ->]|?]; auto.
  by apply elem_of_sortedSubfolders.
Qed.

Lemma bucketOf_some f k t :
  subfolders !! k = Some t →
  belongsToSubfolder (file_path f) (sub_path t) = true →
  is_Some (bucketOf sorted f).
Proof.
  intros Hk Hm. unfold bucketOf.
  destruct (firstMatch sorted (file_path f)) eqn:E; [by eexists|].
  unfold firstMatch in E. rewrite find_none_iff in E.
  apply elem_of_sortedSubfolders in Hk. specialize (E _ Hk). simpl in E.
  congruence.
Qed.

Lemma grouped_bucket_paths i s b f :
  grouped g !! i = Some (s, b) → file_path f ∈ paths b →
  bucketOf sorted f = Some i.
Proof.
  intros Hg Hp.
  assert (is_Some (subfolders !! i)) as [s' Hs'].
  { apply lookup_lt_is_Some. rewrite <- (grouped_length files).
    by eapply lookup_lt_Some. }
  rewrite (grouped_lookup files subfolders i s' Hs') in Hg.
  injection Hg as <- <-.
  apply list_elem_of_fmap in Hp as (h & Hph & Hh).
  apply list_elem_of_filter in Hh as [Hb _].
  unfold bucketOf in *. by rewrite Hph.
Qed.

(** C5, as amended.  Of two configured subfolders, one strictly below
    the other, the ancestor never receives a file that lies under the
    descendant; the descendant receives it whenever no other subfolder
    that contains the file precedes the descendant (a longer path, or an
    equally long path configured earlier). *)
Theorem most_specific_match i j a d f :
  subfolders !! i = Some a →
  subfolders !! j = Some d →
  properPrefixDir (sub_path a) (sub_path d) →
  f ∈ files →
  belongsToSubfolder (file_path f) (sub_path d) = true →
  (∀ b, grouped g !! i = Some (a, b) → file_path f ∉ paths b)
  ∧ ((∀ k t, subfolders !! k = Some t →
             belongsToSubfolder (file_path f) (sub_path t) = true →
             k = j ∨ before (j, d) (k, t)) →
     ∃ b, grouped g !! j = Some (d, b) ∧ f ∈ b).
Proof.
  intros Ha Hd Hpp Hf Hm.
  pose proof (properPrefixDir_longer _ _ Hpp) as Hlen.
  split.
  - intros b Hb Hp.
    apply (grouped_bucket_paths _ _ _ _ Hb) in Hp.
    apply bucketOf_first in Hp as (s & Hs & _ & Hfirst).
    assert (s = a) as -> by congruence.
    destruct (Hfirst j d Hd Hm) as [->|Hbef].
    + assert (a = d) as -> by congruence. lia.
    + unfold before, pathLength in Hbef. simpl in Hbef. lia.
  - intros Hmost.
    destruct (bucketOf_some f j d Hd Hm) as [k Hk].
    pose proof Hk as Hk'.
    apply bucketOf_first in Hk' as (t & Ht & Htm & Hfirst).
    assert (k = j) as ->.
    { destruct (Hmost k t Ht Htm) as [->|Hbef1]; [done|].
      destruct (Hfirst j d Hd Hm) as [->|Hbef2]; [done|].
      unfold before, pathLength in *. simpl in *. lia. }
    exists (filter (λ f, bucketOf sorted f = Some j) files).
    split; [by apply grouped_lookup|].
    by apply list_elem_of_filter.
Qed.

End MostSpecific.

(** With the two subfolders [src] and [src/api] of the specification, the
    file [src/api/x.ts] goes to [src/api]. *)
Lemma most_specific_match_witness :
  (∀ b, grouped (groupFilesBySubfolder [fl "src/api/x.ts"; fl "src/y.ts"]
                   [sf "src"; sf "src/api"]) !! 0%nat = Some (sf "src", b) →
        "src/api/x.ts" ∉ paths b)
  ∧ ∃ b, grouped (groupFilesBySubfolder [fl "src/api/x.ts"; fl "src/y.ts"]
                    [sf "src"; sf "src/api"]) !! 1%nat = Some (sf "src/api", b)
         ∧ fl "src/api/x.ts" ∈ b.
Proof.
  pose proof (most_specific_match [fl "src/api/x.ts"; fl "src/y.ts"]
                [sf "src"; sf "src/api"] 0 1 (sf "src") (sf "src/api")
                (fl "src/api/x.ts") eq_refl eq_refl eq_refl
                ltac:(left) eq_refl) as [H1 H2].
  split; [exact H1|]. apply H2.
  intros [|[|k]] t Ht Hm; simpl in Ht.
  - injection Ht as <-. right. left. unfold pathLength. simpl. lia.
  - by left.
  - by destruct k.
Defined.

(** C5, as the specification states it, fails when a third subfolder is
    more specific still: with [src], [src/api] and [src/api/v1], the file
    [src/api/v1/x.ts] lies under [src/api], and the bucket of [src/api]
    stays empty. *)
Lemma most_specific_counterexample :
  [sf "src"; sf "src/api"; sf "src/api/v1"] !! 0%nat = Some (sf "src")
  ∧ [sf "src"; sf "src/api"; sf "src/api/v1"] !! 1%nat = Some (sf "src/api")
  ∧ properPrefixDir "src" "src/api"
  ∧ belongsToSubfolder "src/api/v1/x.ts" "src/api" = true
  ∧ grouped (groupFilesBySubfolder [fl "src/api/v1/x.ts"]
               [sf "src"; sf "src/api"; sf "src/api/v1"])
    = [(sf "src", []); (sf "src/api", []);
       (sf "src/api/v1", [fl "src/api/v1/x.ts"])].
Proof. repeat split; vm_compute; reflexivity. Qed.

(** ** Token estimation: examples *)

Example estimateTokens_20 : estimateTokens "01234567890123456789" true = 7.
Proof. vm_compute. reflexivity. Qed.

Example estimateTokens_prose_5 : estimateTokens "abcde" false = 2.
Proof. vm_compute. reflexivity. Qed.

Example findPricing_versioned :
  findPricing "GPT-4o-2024-05-13" = Some (pricing (25 # 10) 10 128000).
Proof. vm_compute. reflexivity. Qed.

(** ** binary64 arithmetic: rounding is monotone *)

Section F64Facts.

Import F64.
Local Open Scope Q_scope.

Lemma pow2_pos e : 0 < pow2 e.
Proof. apply Qpower_0_lt. reflexivity. Qed.

Lemma pow2_plus a b : pow2 (a + b) == pow2 a * pow2 b.
Proof. apply Qpower_plus. discriminate. Qed.

Lemma pow2_le a b : (a <= b)%Z → pow2 a <= pow2 b.
Proof. intros H. apply Qpower_le_compat_l; [done|discriminate]. Qed.

Lemma pow2_lt_inv a b : pow2 a < pow2 b → (a < b)%Z.
Proof. intros H. eapply Qpower_lt_compat_l_inv; [exact H|reflexivity]. Qed.

Lemma pow2_inject n : (0 <= n)%Z → inject_Z (2 ^ n) == pow2 n.
Proof. intros H. unfold pow2. by rewrite Zpower_Qpower. Qed.

Lemma log2_bounds a :
  (0 < a)%Z → pow2 (Z.log2 a) <= inject_Z a ∧ inject_Z a < pow2 (Z.log2 a + 1).
Proof.
  intros Ha. destruct (Z.log2_spec a Ha) as [H1 H2].
  pose proof (Z.log2_nonneg a) as Hn.
  rewrite <- (pow2_inject (Z.log2 a)), <- (pow2_inject (Z.log2 a + 1)) by lia.
  rewrite <- Zle_Qle, <- Zlt_Qlt. split; [done|].
  by replace (Z.log2 a + 1)%Z with (Z.succ (Z.log2 a)) by lia.
Qed.

Lemma ilog2_spec x : 0 < x → pow2 (ilog2 x) <= x ∧ x < pow2 (ilog2 x + 1).
Proof.
  intros Hx. destruct x as [a b].
  assert (0 < a)%Z as Ha.
  { unfold Qlt in Hx. simpl in Hx. lia. }
  destruct (log2_bounds a Ha) as [Ha1 Ha2].
  destruct (log2_bounds (Zpos b) eq_refl) as [Hb1 Hb2].
  set (la := Z.log2 a) in *. set (lb := Z.log2 (Zpos b)) in *.
  assert (0 < inject_Z (Zpos b)) as Hbpos by reflexivity.
  assert (a # b == inject_Z a / inject_Z (Zpos b)) as Hdiv
    by apply Qmake_Qdiv.
  assert (pow2 (la - lb - 1) <= a # b) as Hlow.
  { rewrite Hdiv. apply Qle_shift_div_l; [done|].
    apply Qle_trans with (pow2 (la - lb - 1) * pow2 (lb + 1)).
    - apply Qmult_le_l; [apply pow2_pos|]. by apply Qlt_le_weak.
    - rewrite <- pow2_plus.
      by replace (la - lb - 1 + (lb + 1))%Z with la by lia. }
  assert (a # b < pow2 (la - lb + 1)) as Hhigh.
  { rewrite Hdiv. apply Qlt_shift_div_r; [done|].
    apply Qlt_le_trans with (pow2 (la - lb + 1) * pow2 lb).
    - rewrite <- pow2_plus.
      by replace (la - lb + 1 + lb)%Z with (la + 1)%Z by lia.
    - apply Qmult_le_l; [apply pow2_pos|done]. }
  unfold ilog2. simpl Qnum. simpl Qden. fold la lb.
  destruct (Qle_bool (pow2 (la - lb)) (a # b)) eqn:E.
  - apply Qle_bool_iff in E. by split.
  - assert (a # b < pow2 (la - lb)) as Hlt.
    { apply Qnot_le_lt. intros H. apply Qle_bool_iff in H. congruence. }
    split; [done|]. by replace (la - lb - 1 + 1)%Z with (la - lb)%Z by lia.
Qed.

Lemma ilog2_mono x y : 0 < x → x <= y → (ilog2 x <= ilog2 y)%Z.
Proof.
  intros Hx Hxy.
  destruct (ilog2_spec x Hx) as [H1 _].
  destruct (ilog2_spec y) as [_ H2]; [by eapply Qlt_le_trans|].
  assert (pow2 (ilog2 x) < pow2 (ilog2 y + 1)) as H.
  { eapply Qle_lt_trans; [exact H1|]. by eapply Qle_lt_trans. }
  apply pow2_lt_inv in H. lia.
Qed.

Lemma rne_floor y : (Qfloor y <= rne y <= Qfloor y + 1)%Z.
Proof.
  unfold rne. destruct (Qcompare _ _); [|lia..].
  destruct (Z.even _); lia.
Qed.

Lemma rne_ge n y : inject_Z n <= y → (n <= rne y)%Z.
Proof.
  intros H. apply Qfloor_resp_le in H. rewrite Qfloor_Z in H.
  pose proof (rne_floor y). lia.
Qed.

Lemma rne_le n y : y <= inject_Z n → (rne y <= n)%Z.
Proof.
  intros H. pose proof (Qfloor_resp_le _ _ H) as Hf. rewrite Qfloor_Z in Hf.
  pose proof (rne_floor y) as Hr.
  destruct (decide (Qfloor y = n)) as [E|E]; [|lia].
  unfold rne. rewrite E.
  destruct (Qcompare_spec (y - inject_Z n) (1 # 2)) as [H1|H1|H1]; try lia; lra.
Qed.

Lemma rne_Z n : rne (inject_Z n) = n.
Proof.
  apply Z.le_antisymm; [apply rne_le|apply rne_ge]; apply Qle_refl.
Qed.

Lemma rne_mono y1 y2 : y1 <= y2 → (rne y1 <= rne y2)%Z.
Proof.
  intros H. pose proof (Qfloor_resp_le _ _ H) as Hf.
  pose proof (rne_floor y1) as H1. pose proof (rne_floor y2) as H2.
  destruct (decide (Qfloor y1 = Qfloor y2)) as [E|E]; [|lia].
  unfold rne. rewrite E.
  destruct (Qcompare_spec (y1 - inject_Z (Qfloor y2)) (1 # 2)),
    (Qcompare_spec (y2 - inject_Z (Qfloor y2)) (1 # 2));
    try lia; try lra; destruct (Z.even _); lia.
Qed.

Lemma round_pos_bounds x :
  0 < x → pow2 (ilog2 x) <= round_pos x ∧ round_pos x <= pow2 (ilog2 x + 1).
Proof.
  intros Hx. destruct (ilog2_spec x Hx) as [H1 H2].
  unfold round_pos. set (e := (ilog2 x - 52)%Z).
  pose proof (pow2_pos e) as He.
  split.
  - replace (ilog2 x) with (52 + e)%Z at 1 by (unfold e; lia).
    rewrite pow2_plus. apply Qmult_le_compat_r; [|by apply Qlt_le_weak].
    rewrite <- (pow2_inject 52) by lia. rewrite <- Zle_Qle. apply rne_ge.
    rewrite (pow2_inject 52) by lia. apply Qle_shift_div_l; [done|].
    rewrite <- pow2_plus. by replace (52 + e)%Z with (ilog2 x) by (unfold e; lia).
  - replace (ilog2 x + 1)%Z with (53 + e)%Z by (unfold e; lia).
    rewrite pow2_plus. apply Qmult_le_compat_r; [|by apply Qlt_le_weak].
    rewrite <- (pow2_inject 53) by lia. rewrite <- Zle_Qle. apply rne_le.
    rewrite (pow2_inject 53) by lia. apply Qle_shift_div_r; [done|].
    rewrite <- pow2_plus. apply Qlt_le_weak.
    by replace (53 + e)%Z with (ilog2 x + 1)%Z by (unfold e; lia).
Qed.

Lemma round_pos_mono x y : 0 < x → x <= y → round_pos x <= round_pos y.
Proof.
  intros Hx Hxy. assert (0 < y) as Hy by (by eapply Qlt_le_trans).
  pose proof (ilog2_mono x y Hx Hxy) as Hl.
  destruct (decide (ilog2 x = ilog2 y)) as [E|E].
  - unfold round_pos. rewrite E. set (e := (ilog2 y - 52)%Z).
    pose proof (pow2_pos e) as He.
    apply Qmult_le_compat_r; [|by apply Qlt_le_weak].
    rewrite <- Zle_Qle. apply rne_mono.
    apply Qle_shift_div_l; [done|].
    unfold Qdiv. rewrite <- Qmult_assoc, (Qmult_comm (/ _)), Qmult_inv_r, Qmult_1_r;
      [done|]. intros H0. rewrite H0 in He. by apply Qlt_irrefl in He.
  - destruct (round_pos_bounds x Hx) as [_ H1].
    destruct (round_pos_bounds y Hy) as [H2 _].
    eapply Qle_trans; [exact H1|]. eapply Qle_trans; [|exact H2].
    apply pow2_le. lia.
Qed.

Lemma round_nonneg x : 0 <= x → 0 <= round x.
Proof.
  intros Hx. unfold round. rewrite Qred_correct.
  destruct (Qcompare_spec x 0) as [H|H|H]; [done|lra|].
  destruct (round_pos_bounds x H) as [H1 _].
  pose proof (pow2_pos (ilog2 x)). lra.
Qed.

(** Rounding to nearest is monotone. *)
Lemma round_mono x y : 0 <= x → x <= y → round x <= round y.
Proof.
  intros Hx Hxy. unfold round at 1. rewrite Qred_correct.
  destruct (Qcompare_spec x 0) as [H|H|H]; [|lra|].
  - apply round_nonneg. lra.
  - unfold round. rewrite Qred_correct.
    destruct (Qcompare_spec y 0) as [H'|H'|H']; [lra|lra|].
    by apply round_pos_mono.
Qed.

End F64Facts.

(** ** binary64 arithmetic: values that are not rounded *)

Section F64Exact.

Import F64.
Local Open Scope Q_scope.

Lemma rne_eq n y : y == inject_Z n → rne y = n.
Proof.
  intros H. apply Z.le_antisymm; [apply rne_le|apply rne_ge];
    rewrite H; apply Qle_refl.
Qed.

(** A value with a significand of at most 53 bits is a double. *)
Lemma round_dyadic m k :
  (0 <= m < 2 ^ 53)%Z → round (inject_Z m * pow2 k) == inject_Z m * pow2 k.
Proof.
  intros [Hm0 Hm]. unfold round. rewrite Qred_correct.
  pose proof (pow2_pos k) as Hk.
  assert (0 <= inject_Z m) as Hm0' by (by rewrite Zle_Qle in Hm0).
  destruct (Qcompare_spec (inject_Z m * pow2 k) 0) as [H|H|H].
  - by rewrite H.
  - exfalso. assert (0 <= inject_Z m * pow2 k); [|lra].
    apply Qmult_le_0_compat; [done|by apply Qlt_le_weak].
  - destruct (ilog2_spec _ H) as [H1 _].
    set (x := inject_Z m * pow2 k) in *.
    assert (x < pow2 (53 + k)) as Hx.
    { unfold x. rewrite pow2_plus. apply Qmult_lt_compat_r; [done|].
      rewrite <- (pow2_inject 53) by lia. by rewrite <- Zlt_Qlt. }
    assert (ilog2 x < 53 + k)%Z as He.
    { apply pow2_lt_inv. by eapply Qle_lt_trans. }
    unfold round_pos. set (e := (ilog2 x - 52)%Z).
    pose proof (pow2_pos e) as Hpe.
    assert (x / pow2 e == inject_Z (m * 2 ^ (k - e))) as Hy.
    { unfold x. rewrite inject_Z_mult, (pow2_inject (k - e)) by (unfold e; lia).
      replace k with ((k - e) + e)%Z at 1 by lia. rewrite pow2_plus.
      field. intros H0. rewrite H0 in Hpe. by apply Qlt_irrefl in Hpe. }
    rewrite (rne_eq _ _ Hy).
    rewrite inject_Z_mult, (pow2_inject (k - e)) by (unfold e; lia).
    unfold x. replace k with ((k - e) + e)%Z at 2 by lia. rewrite pow2_plus.
    ring.
Qed.

Lemma ilog2_comp x y : 0 < x → x == y → ilog2 x = ilog2 y.
Proof.
  intros Hx E. assert (0 < y) as Hy by (by rewrite <- E).
  destruct (ilog2_spec x Hx) as [H1 H2].
  destruct (ilog2_spec y Hy) as [H3 H4].
  assert (pow2 (ilog2 x) < pow2 (ilog2 y + 1)) as Ha by lra.
  assert (pow2 (ilog2 y) < pow2 (ilog2 x + 1)) as Hb by lra.
  apply pow2_lt_inv in Ha, Hb. lia.
Qed.

Lemma rne_comp x y : x == y → rne x = rne y.
Proof.
  intros E. unfold rne. rewrite (Qfloor_comp x y E).
  assert (x - inject_Z (Qfloor y) == y - inject_Z (Qfloor y)) as E'
    by (rewrite E; reflexivity).
  by rewrite (Qcompare_comp _ _ E' _ _ (Qeq_refl (1 # 2))).
Qed.

Lemma round_pos_comp x y : 0 < x → x == y → round_pos x == round_pos y.
Proof.
  intros Hx E. unfold round_pos. rewrite (ilog2_comp x y Hx E).
  rewrite (rne_comp (x / _) (y / pow2 (ilog2 y - 52))); [reflexivity|].
  by rewrite E.
Qed.

(** The result of rounding does not depend on how the fraction is
    written. *)
Lemma round_comp x y : x == y → round x = round y.
Proof.
  intros E. unfold round. apply Qred_complete.
  rewrite (Qcompare_comp _ _ E 0 0 (Qeq_refl 0)).
  destruct (Qcompare_spec y 0) as [H|H|H]; [reflexivity| |].
  - assert (0 < - x) as Hx by (rewrite E; lra).
    assert (- x == - y) as E' by (by rewrite E).
    by rewrite (round_pos_comp _ _ Hx E').
  - apply round_pos_comp; [by rewrite E|done].
Qed.

Lemma round_Z n : (0 <= n < 2 ^ 53)%Z → round (inject_Z n) == inject_Z n.
Proof.
  intros H. pose proof (round_dyadic n 0 H) as Hr.
  assert (inject_Z n * pow2 0 == inject_Z n) as E by (unfold pow2; simpl; ring).
  by rewrite (round_comp _ _ E), E in Hr.
Qed.

End F64Exact.

(** ** Token estimation: [estimateTokens] *)

Section EstimateTokens.

Import F64.
Local Open Scope Q_scope.

Lemma ratio_nonneg (isCode : bool) :
  0 <= (if isCode then TOKENS_PER_CHAR_code else TOKENS_PER_CHAR_prose).
Proof. destruct isCode; vm_compute; discriminate. Qed.

Lemma estimateTokens_empty isCode : estimateTokens EmptyString isCode = 0%Z.
Proof. destruct isCode; vm_compute; reflexivity. Qed.

Lemma estimateTokens_mono s t isCode :
  (String.length s ≤ String.length t)%nat →
  (estimateTokens s isCode ≤ estimateTokens t isCode)%Z.
Proof.
  intros H. unfold estimateTokens, ceil, mul.
  pose proof (ratio_nonneg isCode) as Hr.
  set (r := if isCode then _ else _) in *.
  apply Qceiling_resp_le, round_mono.
  - apply Qmult_le_0_compat; [|done].
    rewrite <- (Zle_Qle 0). lia.
  - apply Qmult_le_compat_r; [|done]. rewrite <- Zle_Qle. lia.
Qed.

(** The product of a count and a ratio [c] slightly below the decimal
    [q] it stands for rounds up to the same integer as the exact
    product with [q]. *)
Lemma ceil_mul_exact n c q :
  (0 < n)%Z → 0 <= c → c <= q →
  (0 < Qceiling (inject_Z n * q) < 2 ^ 47)%Z →
  inject_Z (64 * (Qceiling (inject_Z n * q) - 1) + 1) * pow2 (-6)
    <= inject_Z n * c →
  ceil (mul (inject_Z n) c) = Qceiling (inject_Z n * q).
Proof.
  intros Hn Hc Hcq Hk Hlow. set (k := Qceiling (inject_Z n * q)) in *.
  assert (0 <= inject_Z n) as Hn' by (rewrite <- (Zle_Qle 0); lia).
  unfold ceil, mul. apply Z.le_antisymm.
  - rewrite <- (Qceiling_Z k). apply Qceiling_resp_le.
    rewrite <- (round_Z k) by lia. apply round_mono.
    + by apply Qmult_le_0_compat.
    + apply Qle_trans with (inject_Z n * q).
      * apply Qmult_le_l; [|done]. rewrite <- (Zlt_Qlt 0). lia.
      * apply Qle_ceiling.
  - assert (inject_Z (k - 1) < round (inject_Z n * c)) as Hgt.
    { eapply Qlt_le_trans; [|apply round_mono; [|exact Hlow]].
      - rewrite round_dyadic by lia.
        assert (pow2 (-6) == 1 # 64) as -> by reflexivity.
        rewrite inject_Z_plus, inject_Z_mult.
        change (inject_Z 64) with (64 # 1). change (inject_Z 1) with 1.
        lra.
      - apply Qmult_le_0_compat; [|by apply Qlt_le_weak, pow2_pos].
        rewrite <- (Zle_Qle 0). lia. }
    pose proof (Qle_ceiling (round (inject_Z n * c))) as Hle.
    assert (inject_Z (k - 1) < inject_Z (Qceiling (round (inject_Z n * c))))
      as Hlt by (by eapply Qlt_le_trans).
    rewrite <- Zlt_Qlt in Hlt. lia.
Qed.

Lemma estimateTokens_exact s isCode :
  (Z.of_nat (String.length s) <= 2 ^ 48)%Z →
  estimateTokens s isCode
  = Qceiling (inject_Z (Z.of_nat (String.length s)) * exactRatio isCode).
Proof.
  intros Hlen. set (n := Z.of_nat (String.length s)) in *.
  destruct (decide (n = 0%Z)) as [E|E].
  - assert (s = EmptyString) as -> by (destruct s; [done|simpl in *; lia]).
    by destruct isCode.
  - assert (0 < n)%Z as Hn by lia.
    pose proof (Qceiling_lt (inject_Z n * exactRatio isCode)) as Hk1.
    pose proof (Qle_ceiling (inject_Z n * exactRatio isCode)) as Hk2.
    unfold estimateTokens. fold n.
    apply ceil_mul_exact; [done|apply ratio_nonneg|..].
    + destruct isCode; vm_compute; discriminate.
    + set (k := Qceiling _) in *.
      destruct isCode; unfold exactRatio, Qle, Qlt in Hk1, Hk2;
        simpl in Hk1, Hk2; lia.
    + set (k := Qceiling _) in *.
      assert (pow2 (-6) == 1 # 64) as -> by reflexivity.
      assert (TOKENS_PER_CHAR_code = 3152519739159347 # 9007199254740992)
        as Ec by (vm_compute; reflexivity).
      assert (TOKENS_PER_CHAR_prose = 1 # 4) as Ep
        by (vm_compute; reflexivity).
      destruct isCode; [rewrite Ec|rewrite Ep];
        unfold exactRatio, Qle, Qlt, Qmult, inject_Z in Hk1, Hk2 |- *;
        cbn [Qnum Qden] in Hk1, Hk2 |- *; lia.
Qed.

(** C7.  [estimateTokens] of the empty string is 0; for a fixed flag
    it is monotone in the length of the text; it is the ceiling of
    length times ratio, the rounding of the binary64 product never
    reaching the next integer (for every length up to 2^48, far above
    the length of any string); and the code ratio is the greater. *)
Theorem estimateTokens_zero_monotone :
  (∀ isCode, estimateTokens EmptyString isCode = 0%Z)
  ∧ (∀ s t isCode,
       (String.length s ≤ String.length t)%nat →
       (estimateTokens s isCode ≤ estimateTokens t isCode)%Z)
  ∧ (∀ s isCode,
       (Z.of_nat (String.length s) <= 2 ^ 48)%Z →
       estimateTokens s isCode
       = Qceiling (inject_Z (Z.of_nat (String.length s)) * exactRatio isCode))
  ∧ exactRatio false < exactRatio true
  ∧ TOKENS_PER_CHAR_prose < TOKENS_PER_CHAR_code.
Proof.
  split; [exact estimateTokens_empty|].
  split; [exact estimateTokens_mono|].
  split; [exact estimateTokens_exact|].
  split; vm_compute; reflexivity.
Qed.

End EstimateTokens.

(** ** Token estimation: the warning of [getTokenEstimate] *)

Section Warning.

Lemma warnings_distinct p q : highUsageWarning p ≠ criticalWarning q.
Proof. discriminate. Qed.

Lemma getTokenEstimate_found content model isCode pricing :
  model ≠ EmptyString →
  findPricing model = Some pricing →
  let tokens := estimateTokens content isCode in
  let percent := usagePercent tokens (price_context pricing) in
  getTokenEstimate content (Some model) isCode
  = mkEstimate (Z.of_nat (String.length content)) tokens
      (Some (F64.mul (F64.div (inject_Z tokens) 1000000) (price_input pricing)))
      (Some (price_context pricing)) (Some percent)
      (if F64.gtb percent 80 then Some (highUsageWarning percent)
       else if F64.gtb percent 95 then Some (criticalWarning percent)
       else None).
Proof.
  intros Hne Hp. unfold getTokenEstimate. rewrite Hp.
  by destruct model.
Qed.

Lemma gtb_95_80 p : F64.gtb p 95 = true → F64.gtb p 80 = true.
Proof.
  unfold F64.gtb. rewrite !negb_true_iff. intros H.
  destruct (Qle_bool p 80) eqn:E; [|done].
  apply Qle_bool_iff in E.
  assert (Qle_bool p 95 = true) as H'; [|congruence].
  apply Qle_bool_iff. lra.
Qed.

(** C3, what the code does.  For a model found in the pricing table the
    high-usage warning is attached whenever the usage exceeds 80%, also
    when it exceeds 95%: the critical warning is never attached. *)
Theorem getTokenEstimate_warning content model isCode pricing percent :
  model ≠ EmptyString →
  findPricing model = Some pricing →
  contextUsagePercent (getTokenEstimate content (Some model) isCode)
    = Some percent →
  (F64.gtb percent 80 = true →
   warning (getTokenEstimate content (Some model) isCode)
     = Some (highUsageWarning percent))
  ∧ (F64.gtb percent 95 = true →
     warning (getTokenEstimate content (Some model) isCode)
       = Some (highUsageWarning percent))
  ∧ warning (getTokenEstimate content (Some model) isCode)
      ≠ Some (criticalWarning percent).
Proof.
  intros Hne Hp. rewrite (getTokenEstimate_found _ _ _ _ Hne Hp).
  cbn [contextUsagePercent warning].
  intros [= <-]. generalize (usagePercent (estimateTokens content isCode)
                                (price_context pricing)). intros p.
  split; [by intros ->|]. split.
  - intros H. by rewrite (gtb_95_80 _ H).
  - destruct (F64.gtb p 80) eqn:E80.
    + intros H. apply (inj Some) in H. by apply warnings_distinct in H.
    + destruct (F64.gtb p 95) eqn:E95; [|done].
      apply gtb_95_80 in E95. congruence.
Qed.

End Warning.

(** A text of 360000 characters for [gpt-4o] uses 98.4% of the window,
    and carries the high-usage warning. *)
Lemma getTokenEstimate_warning_witness :
  contextUsagePercent (getTokenEstimate (text 360000) (Some "gpt-4o") true)
    = Some (3462142213541069 # 35184372088832)%Q
  ∧ F64.gtb (3462142213541069 # 35184372088832) 95 = true
  ∧ warning (getTokenEstimate (text 360000) (Some "gpt-4o") true)
    = Some "High context usage (98.4%). Consider splitting into subfolders.".
Proof.
  assert (contextUsagePercent
            (getTokenEstimate (text 360000) (Some "gpt-4o") true)
          = Some (3462142213541069 # 35184372088832)%Q) as Hp
    by (vm_compute; reflexivity).
  assert (F64.gtb (3462142213541069 # 35184372088832) 95 = true) as H95
    by (vm_compute; reflexivity).
  split; [exact Hp|]. split; [exact H95|].
  destruct (getTokenEstimate_warning (text 360000) "gpt-4o" true
              (pricing (25 # 10) 10 128000)
              (3462142213541069 # 35184372088832)%Q
              ltac:(discriminate) ltac:(vm_compute; reflexivity) Hp)
    as (_ & H & _).
  rewrite (H H95). vm_compute. reflexivity.
Defined.

(** ** Token estimation: [aggregateEstimates] *)

Section Aggregate.








(** An estimate that is written by hand can have a window that is set
    to zero: the first estimate has a window, and the aggregate takes
    the window of the second. *)
Example aggregateEstimates_zero_window :
  firstWindowSet [mkEstimate 10 4 None (Some 0) None None;
                  mkEstimate 10 4 None (Some 128000) None None] = Some 0
  ∧ contextWindow
      (aggregateEstimates [mkEstimate 10 4 None (Some 0) None None;
                           mkEstimate 10 4 None (Some 128000) None None])
    = Some 128000.
Proof. split; vm_compute; reflexivity. Qed.

End Aggregate.

(** ** Import extraction: examples *)

Example extractImports_named :
  extractImports "import { x } from './b'" = ["./b"].
Proof. vm_compute. reflexivity. Qed.

Example extractImports_mixed :
  extractImports
    "import a, { b } from './m.js'; const c = require('../n'); export * from './o'; import('./p'); import 'side';"
  = ["./m.js"; "side"; "./p"; "../n"; "./o"].
Proof. vm_compute. reflexivity. Qed.

(** ** Import resolution: the known files are the only source *)

Section Resolver.

Variables (fs : FileSystem) (rootDir : string).

(** [allFiles.find] and [allFilePaths.has] agree: when the first finds
    nothing, the second is false, and the branch that would read the
    file from disk is never taken. *)
Lemma find_none_not_known (allFiles : list IndexedFile) p :
  List.find (λ f, String.eqb (normalizePath (file_path f)) p) allFiles = None →
  p ∉ (list_to_set (normalizedPaths allFiles) : gset string).
Proof.
  intros Hf Hin. rewrite find_none_iff in Hf.
  apply elem_of_list_to_set, list_elem_of_fmap in Hin as (f & -> & Hfin).
  specialize (Hf f Hfin). simpl in Hf. by rewrite String.eqb_refl in Hf.
Qed.

Lemma find_some_known (allFiles : list IndexedFile) p f :
  List.find (λ f, String.eqb (normalizePath (file_path f)) p) allFiles = Some f →
  f ∈ allFiles ∧ normalizePath (file_path f) = p.
Proof.
  intros Hf. apply find_some in Hf as [Hin Hp].
  split; [by apply list_elem_of_In|]. by apply String.eqb_eq.
Qed.

Lemma importStep_known allFiles current file st importPath :
  Forall (λ f, f ∈ allFiles) st.1 →
  Forall (λ f, f ∈ allFiles)
    (importStep fs rootDir allFiles
       (list_to_set (normalizedPaths allFiles)) current file st importPath).1.
Proof.
  intros Hst. unfold importStep.
  destruct (resolveImportPath fs importPath (file_path file) rootDir)
    as [[|c resolved]|]; [done| |done].
  set (nr := normalizePath (String c resolved)).
  destruct (decide (nr ∈ current ∨ nr ∈ st.2)); [done|].
  destruct (List.find _ allFiles) as [f|] eqn:E.
  - apply find_some_known in E as [Hin _].
    simpl. apply Forall_app. split; [done|]. by apply Forall_singleton.
  - apply find_none_not_known in E.
    destruct (decide (nr ∈ _)); [done|]. done.
Qed.

Lemma foldl_importStep_known allFiles current file imports st :
  Forall (λ f, f ∈ allFiles) st.1 →
  Forall (λ f, f ∈ allFiles)
    (foldl (importStep fs rootDir allFiles
              (list_to_set (normalizedPaths allFiles)) current file)
       st imports).1.
Proof.
  revert st. induction imports as [|i imports IH]; intros st Hst; [done|].
  cbn [foldl]. apply IH. by apply importStep_known.
Qed.

Lemma importLevel_known files allFiles :
  Forall (λ f, f ∈ allFiles) (importLevel fs rootDir files allFiles).
Proof.
  unfold importLevel. fold (normalizedPaths allFiles).
  generalize (list_to_set ((λ f, normalizePath (file_path f)) <$> files)
              : gset string).
  intros current.
  assert (Forall (λ f, f ∈ allFiles) (([], ∅) : LevelState).1) as Hinit
    by constructor.
  revert Hinit. generalize (([], ∅) : LevelState).
  induction files as [|file files IH]; intros st Hst; [done|].
  cbn [foldl]. apply IH. by apply foldl_importStep_known.
Qed.

Lemma resolveLevels_known n files allFiles :
  Forall (λ f, f ∈ allFiles) (resolveLevels fs rootDir n files allFiles).
Proof.
  revert files allFiles. induction n as [|n IH]; intros files allFiles.
  - constructor.
  - cbn [resolveLevels].
    pose proof (importLevel_known files allFiles) as Hlevel.
    destruct (negb _ && _); [|done].
    apply Forall_app. split; [done|].
    eapply Forall_impl; [apply IH|]. intros f Hf. cbv beta in Hf.
    apply elem_of_app in Hf as [Hf|Hf]; [done|].
    rewrite Forall_forall in Hlevel. by apply Hlevel.
Qed.

(** C10.  Every file that [resolveImportsForFiles] returns is an element
    of the known files passed at the call: nothing is read from disk. *)
Theorem resolveImportsForFiles_known files allFiles depth f :
  f ∈ resolveImportsForFiles fs rootDir files allFiles depth → f ∈ allFiles.
Proof.
  intros Hf. unfold resolveImportsForFiles in Hf.
  pose proof (resolveLevels_known (Z.to_nat (Qceiling depth)) files allFiles)
    as H.
  rewrite Forall_forall in H. by apply H.
Qed.

(** The function satisfies the recursive equation of the source. *)
Lemma resolveImportsForFiles_unfold files allFiles depth :
  resolveImportsForFiles fs rootDir files allFiles depth
  = if Qle_bool depth 0 then []
    else
      let importedFiles := importLevel fs rootDir files allFiles in
      if negb (bool_decide (importedFiles = [])) && negb (Qle_bool depth 1)
      then
        importedFiles
        ++ resolveImportsForFiles fs rootDir importedFiles
             (allFiles ++ importedFiles) (depth - 1)
      else importedFiles.
Proof.
  unfold resolveImportsForFiles.
  pose proof (Qle_ceiling depth) as Hle.
  pose proof (Qceiling_lt depth) as Hlt.
  assert (Qceiling (depth - 1) = Qceiling depth - 1) as Hminus.
  { pose proof (Qle_ceiling (depth - 1)) as Hle'.
    pose proof (Qceiling_lt (depth - 1)) as Hlt'.
    unfold Z.sub in Hlt, Hlt'. rewrite inject_Z_plus in Hlt, Hlt'.
    change (inject_Z (Z.opp 1)) with (-1 # 1)%Q in *.
    assert (inject_Z (Qceiling (depth - 1)) < inject_Z (Qceiling depth))%Q
      as H1 by lra.
    assert (inject_Z (Qceiling depth)
            < inject_Z (Qceiling (depth - 1)) + inject_Z 2)%Q
      as H2 by (change (inject_Z 2) with 2%Q; lra).
    rewrite <- Zlt_Qlt in H1.
    rewrite <- inject_Z_plus, <- Zlt_Qlt in H2. lia. }
  destruct (Qle_bool depth 0) eqn:E0.
  - apply Qle_bool_iff in E0.
    assert (Qceiling depth ≤ 0) as H.
    { rewrite <- (Qceiling_Z 0). by apply Qceiling_resp_le. }
    by replace (Z.to_nat (Qceiling depth)) with 0%nat by lia.
  - assert (0 < Qceiling depth) as Hpos.
    { rewrite Zlt_Qlt. eapply Qlt_le_trans; [|exact Hle].
      change (inject_Z 0) with 0%Q.
      apply Qnot_le_lt. intros H. apply Qle_bool_iff in H. congruence. }
    destruct (Z.to_nat (Qceiling depth)) as [|n] eqn:En; [lia|].
    cbn [resolveLevels]. cbv zeta.
    rewrite Hminus. replace (Z.to_nat (Qceiling depth - 1)) with n by lia.
    destruct (Qle_bool depth 1) eqn:E1.
    + apply Qle_bool_iff in E1.
      assert (Qceiling depth ≤ 1) as H.
      { rewrite <- (Qceiling_Z 1). by apply Qceiling_resp_le. }
      replace n with 0%nat by lia. cbn [Nat.ltb Nat.leb negb].
      by rewrite !andb_false_r.
    + assert (1 < Qceiling depth) as H.
      { rewrite Zlt_Qlt. eapply Qlt_le_trans; [|exact Hle].
        change (inject_Z 1) with 1%Q.
        apply Qnot_le_lt. intros H. apply Qle_bool_iff in H. congruence. }
      assert ((0 <? n)%nat = true) as -> by (apply Nat.ltb_lt; lia).
      done.
Qed.

(** C9.  With [depth = 0] nothing is returned. *)
Theorem resolveImportsForFiles_depth_0 files allFiles :
  resolveImportsForFiles fs rootDir files allFiles 0 = [].
Proof.
  rewrite resolveImportsForFiles_unfold.
  assert (Qle_bool 0 0 = true) as -> by (by apply Qle_bool_iff).
  reflexivity.
Qed.

Lemma resolveImportsForFiles_depth_nonpos files allFiles depth :
  (depth <= 0)%Q → resolveImportsForFiles fs rootDir files allFiles depth = [].
Proof.
  intros H. rewrite resolveImportsForFiles_unfold.
  apply Qle_bool_iff in H. by rewrite H.
Qed.

End Resolver.

(** In the project of two modules, [b.ts] is returned for the seed
    [a.ts], and it is the known file. *)
Lemma resolveImportsForFiles_known_witness :
  fileB ∈ resolveImportsForFiles cycleFs "/r" [fileA] [fileA; fileB] 1
  ∧ fileB ∈ [fileA; fileB].
Proof.
  assert (fileB ∈ resolveImportsForFiles cycleFs "/r" [fileA] [fileA; fileB] 1)
    as H by (vm_compute; left).
  split; [exact H|].
  exact (resolveImportsForFiles_known cycleFs "/r" [fileA] [fileA; fileB] 1
           fileB H).
Defined.

(** ** Import resolution: one level, and the levels together *)

Section Level.

Variables (fs : FileSystem) (rootDir : string).

Lemma levelInv_push current st f :
  levelInv current st →
  normalizePath (file_path f) ∉ st.2 →
  normalizePath (file_path f) ∉ current →
  levelInv current (st.1 ++ [f], {[normalizePath (file_path f)]} ∪ st.2).
Proof.
  intros (Hnd & Hproc & Hcur) Hnp Hnc. unfold levelInv, normalizedPaths.
  cbn [fst snd]. rewrite fmap_app. cbn [fmap list_fmap].
  split; [|split].
  - apply NoDup_app. split; [done|]. split; [|apply NoDup_singleton].
    intros p Hp Hp'. apply list_elem_of_singleton in Hp' as ->.
    by apply Hnp, Hproc.
  - intros p Hp. apply elem_of_app in Hp as [Hp|Hp].
    + apply elem_of_union_r. by apply Hproc.
    + apply list_elem_of_singleton in Hp as ->.
      by apply elem_of_union_l, elem_of_singleton.
  - intros p Hp. apply elem_of_app in Hp as [Hp|Hp]; [by apply Hcur|].
    by apply list_elem_of_singleton in Hp as ->.
Qed.

Lemma levelInv_skip current st p :
  levelInv current st → levelInv current (st.1, {[p]} ∪ st.2).
Proof.
  intros (Hnd & Hproc & Hcur). split; [done|]. split; [|done].
  intros q Hq. apply elem_of_union_r. by apply Hproc.
Qed.

Lemma importStep_inv allFiles current file st importPath :
  levelInv current st →
  levelInv current
    (importStep fs rootDir allFiles
       (list_to_set (normalizedPaths allFiles)) current file st importPath).
Proof.
  intros Hst. unfold importStep.
  destruct (resolveImportPath fs importPath (file_path file) rootDir)
    as [[|c resolved]|]; [done| |done].
  set (nr := normalizePath (String c resolved)).
  destruct (decide (nr ∈ current ∨ nr ∈ st.2)) as [|Hfresh]; [done|].
  destruct (List.find _ allFiles) as [f|] eqn:E.
  - apply find_some_known in E as [_ Hp]. rewrite <- Hp.
    apply levelInv_push; [done|rewrite Hp; tauto..].
  - apply find_none_not_known in E.
    destruct (decide (nr ∈ _)); [done|]. by apply levelInv_skip.
Qed.

Lemma importLevel_fresh files allFiles :
  NoDup (normalizedPaths (importLevel fs rootDir files allFiles))
  ∧ ∀ p, p ∈ normalizedPaths (importLevel fs rootDir files allFiles) →
         p ∉ normalizedPaths files.
Proof.
  unfold importLevel. fold (normalizedPaths allFiles) (normalizedPaths files).
  set (current := list_to_set (normalizedPaths files) : gset string).
  assert (levelInv current ([], ∅)) as Hinit.
  { split; [constructor|]. split; intros p Hp; by apply elem_of_nil in Hp. }
  assert (∀ l st, levelInv current st →
            levelInv current
              (foldl (λ st file,
                        foldl (importStep fs rootDir allFiles
                                 (list_to_set (normalizedPaths allFiles))
                                 current file) st
                          (extractImports (file_content file))) st l))
    as Hfold.
  { induction l as [|file l IH]; intros st Hst; [done|].
    cbn [foldl]. apply IH. generalize (extractImports (file_content file)).
    intros imports. revert st Hst.
    induction imports as [|i imports IHi]; intros st Hst; [done|].
    cbn [foldl]. apply IHi. by apply importStep_inv. }
  destruct (Hfold files _ Hinit) as (Hnd & _ & Hcur).
  split; [done|]. intros p Hp Hin. apply (Hcur p Hp).
  by apply elem_of_list_to_set.
Qed.

(** X12.  With [depth = 1] the result holds no path of the seed files
    and no path twice. *)
Lemma resolveImportsForFiles_depth_1 files allFiles :
  NoDup (normalizedPaths (resolveImportsForFiles fs rootDir files allFiles 1))
  ∧ ∀ p, p ∈ normalizedPaths (resolveImportsForFiles fs rootDir files allFiles 1) →
         p ∉ normalizedPaths files.
Proof.
  unfold resolveImportsForFiles. change (Z.to_nat (Qceiling 1)) with 1%nat.
  cbn [resolveLevels]. rewrite andb_false_r.
  apply importLevel_fresh.
Qed.

End Level.

(** C1, what the code does.  [currentFilePaths] and [processedImports]
    are made anew at every level of the recursion.  In a project of two
    modules that import each other the seed [a.ts] is returned at depth 2,
    and [b.ts] is returned twice at depth 3. *)
Theorem resolveImportsForFiles_cycle :
  resolveImportsForFiles cycleFs "/r" [fileA] [fileA; fileB] 2
    = [fileB; fileA]
  ∧ resolveImportsForFiles cycleFs "/r" [fileA] [fileA; fileB] 3
    = [fileB; fileA; fileB].
Proof. split; vm_compute; reflexivity. Qed.

(** C2, what the code does.  [a.ts] imports [./b], which resolves to
    [b.ts], a readable file on disk; when [b.ts] is not among the known
    files, nothing is returned. *)
Theorem resolveImportsForFiles_not_read :
  extractImports (file_content fileA) = ["./b"]
  ∧ resolveImportPath cycleFs "./b" (file_path fileA) "/r" = Some "b.ts"
  ∧ readFileSync cycleFs "/r/b.ts" = Some (file_content fileB)
  ∧ resolveImportsForFiles cycleFs "/r" [fileA] [fileA] 1 = [].
Proof. repeat split; vm_compute; reflexivity. Qed.

(** ** The generator: dry runs *)

Section GenMonad.

Lemma bind_unfold {A B} (m : Gen A) (k : A → Gen B) s :
  (m ≫= k) s
  = match m s with
    | (Returned a, s') => k a s'
    | (Thrown e, s') => (Thrown e, s')
    end.
Proof. reflexivity. Qed.

Lemma quiet_ret {A} (a : A) : quiet (mret a : Gen A).
Proof. by intros s. Qed.

Lemma quiet_throw {A} msg : quiet (throw msg : Gen A).
Proof. by intros s. Qed.

Lemma quiet_getFs : quiet getFs.
Proof. by intros s. Qed.

Lemma quiet_bind {A B} (m : Gen A) (k : A → Gen B) :
  quiet m → (∀ a, quiet (k a)) → quiet (m ≫= k).
Proof.
  intros Hm Hk s. rewrite bind_unfold. specialize (Hm s).
  destruct (m s) as [[a|e] s']; simpl in Hm; subst s'; [apply Hk|done].
Qed.

Lemma quiet_readExistingDoc rootDir docPath :
  quiet (readExistingDoc rootDir docPath).
Proof.
  apply quiet_bind; [apply quiet_getFs|]. intros fs. cbv beta zeta.
  destruct (existsSync _ _); [|apply quiet_ret].
  destruct (readFileSync _ _); [apply quiet_ret|apply quiet_throw].
Qed.

Lemma readExistingDoc_returns rootDir docPath s :
  fs_entries (st_fs s)
    !! NodePath.resolve (fs_cwd (st_fs s)) [rootDir; docPath]
    ≠ Some Directory →
  ∃ existing, readExistingDoc rootDir docPath s = (Returned existing, s).
Proof.
  intros Hnd. unfold readExistingDoc. rewrite bind_unfold. cbn [getFs].
  unfold existsSync, readFileSync.
  destruct (fs_entries (st_fs s) !! _) as [[content|]|] eqn:E.
  - rewrite bool_decide_eq_true_2 by eauto. by eexists.
  - done.
  - rewrite bool_decide_eq_false_2 by (by intros [? ?]). by eexists.
Qed.

End GenMonad.

Section DrySteps.

Variable glob : FileSystem → string → string → list string → list string.
Variables (llmService : option LLMService) (config : Config) (rootDir : string).
Variable scanResult : ScanResult.





End DrySteps.

Section StepAgreement.

Variable glob : FileSystem → string → string → list string → list string.
Variables (config : Config) (rootDir : string) (scanResult : ScanResult).

Lemma callLlm_returns service request s content s' :
  callLlm (Some service) request s = (Returned content, s') →
  service request = Some content.
Proof.
  unfold callLlm. rewrite bind_unfold. cbn [emit].
  destruct (service request); [|done]. by intros [= -> _].
Qed.



(** A step of a dry run returns when the document it reads is not a
    directory. *)
Lemma step_returns llmService step s :
  (∀ p, stepDocPath config rootDir (fs_cwd (st_fs s)) scanResult step = Some p →
        fs_entries (st_fs s) !! p ≠ Some Directory) →
  ∃ r, runStep glob llmService config rootDir true scanResult step s
       = (Returned r, s)
       ∧ dryResult r.
Proof.
  intros Hdoc. destruct step as [subfolder files| |];
    unfold runStep; cbn [stepDocPath] in Hdoc.
  - unfold generateSubfolderDoc. destruct files as [|file files].
    { by eexists. }
    specialize (Hdoc _ eq_refl). rewrite !bind_unfold.
    assert (∃ existing,
              (if truthy (sub_existingDocs subfolder)
               then readExistingDoc rootDir
                      (default EmptyString (sub_existingDocs subfolder))
               else readExistingDoc rootDir
                      (default (sub_path subfolder +:+ "/README.md")
                         (sub_outputPath subfolder))) s
              = (Returned existing, s)) as [existing ->].
    { destruct (truthy _); by apply readExistingDoc_returns. }
    cbn [getFs]. eexists. split; [reflexivity|]. split; [done|by eexists].
  - unfold generateUngroupedDocs.
    destruct (scan_ungrouped scanResult) as [|file files].
    { by eexists. }
    specialize (Hdoc _ eq_refl). rewrite !bind_unfold.
    destruct (readExistingDoc_returns rootDir _ s Hdoc) as [existing ->].
    eexists. split; [reflexivity|]. split; [done|by eexists].
  - unfold generateReadme. specialize (Hdoc _ eq_refl). rewrite !bind_unfold.
    destruct (readExistingDoc_returns rootDir _ s Hdoc) as [existing ->].
    eexists. split; [reflexivity|]. split; [done|by eexists].
Qed.

End StepAgreement.

Section DryRun.

Variable glob : FileSystem → string → string → list string → list string.
Variables (llmService : option LLMService) (config : Config) (rootDir : string).
Variable scanResult : ScanResult.










End DryRun.

(** A dry run over the project of two modules, without an LLM service:
    three placeholder documents, the first with the imported [b.ts] among
    its source files; nothing is called, nothing is written. *)
Example generate_dry_run_example :
  generate noGlob None exampleConfig "/r" true exampleScan
    (mkState cycleFs [])
  = (Returned
       [mkDoc "docs/a.md" DRY_RUN_CONTENT ["a.ts"; "b.ts"];
        mkDoc "docs/api-reference.md" DRY_RUN_CONTENT ["b.ts"];
        mkDoc "README.md" DRY_RUN_CONTENT ["a.ts"; "b.ts"]],
     mkState cycleFs []).
Proof. vm_compute. reflexivity. Qed.

(** The same run when it is not dry calls the service three times and
    writes three files. *)
Example generate_real_run_example :
  (generate noGlob (Some (λ _, Some "text")) exampleConfig "/r" false
     exampleScan (mkState cycleFs [])).1
  = Returned
      [mkDoc "docs/a.md" "text" ["a.ts"; "b.ts"];
       mkDoc "docs/api-reference.md" "text" ["b.ts"];
       mkDoc "README.md" "text" ["a.ts"; "b.ts"]].
Proof. vm_compute. reflexivity. Qed.

(** The same dry run in a project where [README.md] is a directory: the
    README step throws when it reads it. *)
Example generate_dry_run_directory :
  generate noGlob None exampleConfig "/r" true exampleScan
    (mkState (mkFs (<["/r/README.md" := Directory]> (fs_entries cycleFs)) "/r")
       [])
  = (Thrown "EISDIR",
     mkState (mkFs (<["/r/README.md" := Directory]> (fs_entries cycleFs)) "/r")
       []).
Proof. vm_compute. reflexivity. Qed.
(** ** Scanner: more on paths and subfolders *)

Section PathFacts.

Lemma normalizePath_no_backslash p c :
  c ∈ String.list_ascii_of_string (normalizePath p) → c ≠ "\"%char.
Proof.
  induction p as [|a p IH]; [by intros ?%elem_of_nil|].
  rewrite normalizePath_cons. cbn [String.list_ascii_of_string].
  intros [->|H]%elem_of_cons; [|by apply IH].
  destruct (Ascii.eqb a "\"%char) eqn:E; [done|].
  by apply Ascii.eqb_neq in E.
Qed.

Lemma normalizePath_fixed p :
  (∀ c, c ∈ String.list_ascii_of_string p → c ≠ "\"%char) →
  normalizePath p = p.
Proof.
  induction p as [|a p IH]; intros H; [done|].
  rewrite normalizePath_cons, IH.
  - assert (a ≠ "\"%char) as Ha by (apply H; left).
    apply Ascii.eqb_neq in Ha. by rewrite Ha.
  - intros c Hc. apply H. by right.
Qed.

Lemma normalizePath_app s t :
  normalizePath (s +:+ t) = normalizePath s +:+ normalizePath t.
Proof.
  induction s as [|a s IH]; [done|].
  change (String a s +:+ t) with (String a (s +:+ t)).
  rewrite !normalizePath_cons, IH. done.
Qed.

Lemma stripTrailingSlash_chars s c :
  c ∈ String.list_ascii_of_string (Js.stripTrailingSlash s) →
  c ∈ String.list_ascii_of_string s.
Proof.
  induction s as [|a s IH]; [done|].
  destruct s as [|b s].
  - simpl. destruct (Ascii.eqb a "/"%char); simpl; [by intros ?%elem_of_nil|done].
  - change (Js.stripTrailingSlash (String a (String b s)))
      with (String a (Js.stripTrailingSlash (String b s))).
    cbn [String.list_ascii_of_string].
    intros [->|H]%elem_of_cons; [left|right; by apply IH].
Qed.

Lemma normalizePath_cleanPath q : normalizePath (cleanPath q) = cleanPath q.
Proof.
  apply normalizePath_fixed. intros c Hc.
  apply stripTrailingSlash_chars in Hc. by eapply normalizePath_no_backslash.
Qed.

Lemma append_inj_l s t u : s +:+ t = s +:+ u → t = u.
Proof.
  induction s as [|a s IH]; [done|].
  change (String a s +:+ t) with (String a (s +:+ t)).
  change (String a s +:+ u) with (String a (s +:+ u)).
  intros [= H]. by apply IH.
Qed.

(** X1.  [normalizePath] is idempotent and keeps the length of the
    path; its result holds no backslash, and a path without backslashes
    is returned as it is. *)
Theorem normalizePath_canonical p :
  normalizePath (normalizePath p) = normalizePath p
  ∧ String.length (normalizePath p) = String.length p
  ∧ (∀ c, c ∈ String.list_ascii_of_string (normalizePath p) → c ≠ "\"%char)
  ∧ ((∀ c, c ∈ String.list_ascii_of_string p → c ≠ "\"%char) →
     normalizePath p = p).
Proof.
  split; [|split; [|split]].
  - apply normalizePath_fixed. intros c. apply normalizePath_no_backslash.
  - apply length_normalizePath.
  - intros c. apply normalizePath_no_backslash.
  - apply normalizePath_fixed.
Qed.

(** X2.  The subfolder itself and every path that continues it with a
    slash belong to the subfolder; a path that continues the name of
    the subfolder with another character (a sibling such as [src-old]
    for [src]) does not.  The subfolder is taken with its separators
    normalised and one trailing slash removed. *)
Theorem belongsToSubfolder_boundary q t :
  belongsToSubfolder (cleanPath q) q = true
  ∧ belongsToSubfolder (cleanPath q +:+ "/" +:+ t) q = true
  ∧ ∀ c, c ≠ "/"%char → c ≠ "\"%char →
         belongsToSubfolder (cleanPath q +:+ String c t) q = false.
Proof.
  split; [|split].
  - apply belongsToSubfolder_iff. right. apply normalizePath_cleanPath.
  - apply belongsToSubfolder_iff. left. exists (normalizePath t).
    rewrite !normalizePath_app, normalizePath_cleanPath. done.
  - intros c Hc1 Hc2. apply not_true_is_false.
    intros [[u Hu]|Hu]%belongsToSubfolder_iff.
    + rewrite normalizePath_app, normalizePath_cleanPath in Hu.
      apply append_inj_l in Hu. rewrite normalizePath_cons in Hu.
      apply Ascii.eqb_neq in Hc2. rewrite Hc2 in Hu.
      by injection Hu as -> _.
    + apply (f_equal String.length) in Hu.
      rewrite length_normalizePath, length_append in Hu. simpl in Hu. lia.
Qed.

End PathFacts.
(** ** Grouping: order, membership and duplicate entries *)

Section GroupOrder.

Variables (files : list IndexedFile) (subfolders : list SubfolderConfig).

(** X4.  When the configured subfolders are pairwise different (no
    object is listed twice), [grouped] has one entry for every one of
    them, in the order of the configuration, also for a subfolder
    without files; every bucket and [ungrouped] keep the files in the
    order of the scan. *)
Theorem groupFilesBySubfolder_order :
  NoDup subfolders →
  fst <$> grouped (groupFilesBySubfolder files subfolders) = subfolders
  ∧ (∀ i s b,
       grouped (groupFilesBySubfolder files subfolders) !! i = Some (s, b) →
       b `sublist_of` files)
  ∧ ungrouped (groupFilesBySubfolder files subfolders) `sublist_of` files.
Proof.
  intros _. split; [apply grouped_keys|]. split.
  - intros i s b Hb.
    assert (subfolders !! i = Some s) as Hs.
    { rewrite <- (grouped_keys files subfolders), list_lookup_fmap, Hb. done. }
    rewrite (grouped_lookup _ _ _ _ Hs) in Hb. injection Hb as <-.
    apply sublist_filter.
  - rewrite ungrouped_spec. apply sublist_filter.
Qed.

(** X5.  A file in a bucket is an input file that belongs to the
    subfolder of the bucket; a file is ungrouped exactly when it is an
    input file that belongs to no configured subfolder. *)
Theorem groupFilesBySubfolder_membership f :
  (∀ i s b,
     grouped (groupFilesBySubfolder files subfolders) !! i = Some (s, b) →
     f ∈ b →
     f ∈ files ∧ belongsToSubfolder (file_path f) (sub_path s) = true)
  ∧ (f ∈ ungrouped (groupFilesBySubfolder files subfolders) ↔
     f ∈ files
     ∧ ∀ s, s ∈ subfolders →
            belongsToSubfolder (file_path f) (sub_path s) = false).
Proof.
  split.
  - intros i s b Hb Hf.
    assert (subfolders !! i = Some s) as Hs.
    { rewrite <- (grouped_keys files subfolders), list_lookup_fmap, Hb. done. }
    rewrite (grouped_lookup _ _ _ _ Hs) in Hb. injection Hb as <-.
    apply list_elem_of_filter in Hf as [Hbk Hf]. split; [done|].
    apply bucketOf_first in Hbk as (s' & Hs' & Hbel & _). congruence.
  - rewrite ungrouped_spec, list_elem_of_filter. split.
    + intros [Hn Hf]. split; [done|]. intros s Hs.
      apply list_elem_of_lookup in Hs as [k Hk].
      apply not_true_is_false. intros Hbel.
      destruct (bucketOf_some _ f k s Hk Hbel) as [i Hi]. congruence.
    + intros [Hf Hn]. split; [|done].
      destruct (bucketOf (sortedSubfolders subfolders) f) as [i|] eqn:E; [|done].
      apply bucketOf_first in E as (s & Hs & Hbel & _).
      rewrite Hn in Hbel; [done|]. by eapply list_elem_of_lookup_2.
Qed.

(** X6.  When the configured subfolders are pairwise different and two
    of them have the same path, the later one gets no file: the sort
    is stable, and the first match wins. *)
Theorem groupFilesBySubfolder_same_path i j s t :
  NoDup subfolders →
  subfolders !! i = Some s →
  subfolders !! j = Some t →
  (i < j)%nat →
  sub_path s = sub_path t →
  grouped (groupFilesBySubfolder files subfolders) !! j = Some (t, []).
Proof.
  intros _ Hs Ht Hij Hp. rewrite (grouped_lookup _ _ _ _ Ht). do 2 f_equal.
  induction files as [|f l IH]; [done|].
  rewrite filter_cons_False; [done|].
  intros (t' & Ht' & Hbel & Hfirst)%bucketOf_first.
  assert (t' = t) as -> by congruence.
  destruct (Hfirst i s Hs) as [?|Hb]; [by rewrite Hp|lia|].
  unfold before, pathLength in Hb. simpl in Hb. rewrite Hp in Hb. lia.
Qed.

End GroupOrder.

(** Two subfolders, one of them with a prompt of its own. *)
Lemma groupFilesBySubfolder_order_witness :
  fst <$> grouped (groupFilesBySubfolder [fl "src/x.ts"; fl "lib/y.ts"]
                     [sf "src";
                      mkSubfolder "lib" (Some "Document the library.") None
                        None None None None])
  = [sf "src";
     mkSubfolder "lib" (Some "Document the library.") None None None None None]
  ∧ (∀ i s b,
       grouped (groupFilesBySubfolder [fl "src/x.ts"; fl "lib/y.ts"]
                  [sf "src";
                   mkSubfolder "lib" (Some "Document the library.") None
                     None None None None]) !! i = Some (s, b) →
       b `sublist_of` [fl "src/x.ts"; fl "lib/y.ts"])
  ∧ ungrouped (groupFilesBySubfolder [fl "src/x.ts"; fl "lib/y.ts"]
                 [sf "src";
                  mkSubfolder "lib" (Some "Document the library.") None
                    None None None None])
    `sublist_of` [fl "src/x.ts"; fl "lib/y.ts"].
Proof.
  apply groupFilesBySubfolder_order.
  apply NoDup_cons. split; [|apply NoDup_singleton].
  intros H%list_elem_of_singleton. discriminate H.
Defined.

(** The subfolder [src] configured by two entries, the second with a
    prompt of its own. *)
Lemma groupFilesBySubfolder_same_path_witness :
  grouped (groupFilesBySubfolder [fl "src/x.ts"]
             [sf "src";
              mkSubfolder "src" (Some "Another prompt.") None None None None
                None])
    !! 1%nat
  = Some (mkSubfolder "src" (Some "Another prompt.") None None None None None,
          []).
Proof.
  apply (groupFilesBySubfolder_same_path _ _ 0%nat 1%nat (sf "src"));
    [|reflexivity|reflexivity|lia|reflexivity].
  apply NoDup_cons. split; [|apply NoDup_singleton].
  intros H%list_elem_of_singleton. discriminate H.
Defined.
(** ** Scanning: [scanFiles], [scanProject] and [getFilesSummary] *)

Section JsMapFacts.

Context {V : Type}.
Implicit Types (m : list (string * V)) (k : string) (v : V).

Lemma set_keys m k v :
  fst <$> JsMap.set m k v
  = if decide (k ∈ fst <$> m) then fst <$> m else (fst <$> m) ++ [k].
Proof.
  induction m as [|[k' v'] m IH].
  - case_decide as H; [by apply elem_of_nil in H|done].
  - cbn [JsMap.set]. destruct (String.eqb k' k) eqn:E.
    + apply String.eqb_eq in E as ->.
      clear IH. case_decide as H; [by rewrite !fmap_cons|]. exfalso. apply H. rewrite fmap_cons. left.
    + apply String.eqb_neq in E. rewrite !fmap_cons, IH. cbn [fst].
      destruct (decide (k ∈ m.*1)) as [H1|H1];
        destruct (decide (k ∈ k' :: m.*1)) as [H2|H2]; try done.
      * exfalso. apply H2. by right.
      * apply elem_of_cons in H2 as [?|?]; [congruence|done].
Qed.

Lemma set_entries m k v e :
  e ∈ JsMap.set m k v → e ∈ m ∨ e = (k, v).
Proof.
  induction m as [|[k' v'] m IH]; simpl.
  - intros ->%list_elem_of_singleton. by right.
  - destruct (String.eqb k' k) eqn:E.
    + apply String.eqb_eq in E as ->.
      intros [->|?]%elem_of_cons; [by right|left; by right].
    + intros [->|H]%elem_of_cons; [left; left|].
      destruct (IH H); [left; by right|by right].
Qed.

Lemma ofEntries_keys (entries : list (string * V)) m :
  NoDup (fst <$> m) →
  NoDup (fst <$> foldl (λ m e, JsMap.set m e.1 e.2) m entries)
  ∧ ∀ k, k ∈ fst <$> foldl (λ m e, JsMap.set m e.1 e.2) m entries
         ↔ k ∈ fst <$> m ∨ k ∈ fst <$> entries.
Proof.
  revert m. induction entries as [|[k0 v0] entries IH]; intros m Hm; simpl.
  - split; [done|]. intros k. rewrite elem_of_nil. tauto.
  - assert (NoDup (fst <$> JsMap.set m k0 v0)) as Hm'.
    { rewrite set_keys. destruct (decide (k0 ∈ fst <$> m)); [done|].
      apply NoDup_app. split; [done|]. split; [|apply NoDup_singleton].
      intros x Hx ->%list_elem_of_singleton. done. }
    destruct (IH _ Hm') as [Hnd Hk]. split; [done|].
    intros k. rewrite Hk, set_keys, elem_of_cons.
    destruct (decide (k0 ∈ fst <$> m)) as [Hin|Hin].
    + split; [tauto|]. intros [?|[->|?]]; auto.
    + rewrite elem_of_app, list_elem_of_singleton. tauto.
Qed.

Lemma ofEntries_entries (entries : list (string * V)) m e :
  e ∈ foldl (λ m e, JsMap.set m e.1 e.2) m entries → e ∈ m ∨ e ∈ entries.
Proof.
  revert m. induction entries as [|[k0 v0] entries IH]; intros m; simpl.
  - by left.
  - intros [[?| ->]%set_entries|?]%IH; [by left|right; left|right; by right].
Qed.

End JsMapFacts.

Section ScanFacts.

Variable glob : FileSystem → string → string → list string → list string.
Variables (fs : FileSystem) (rootDir : string).

Lemma scanMatch_app files m :
  scanMatch fs rootDir files m = files ++ scanMatch fs rootDir [] m.
Proof. unfold scanMatch. destruct (readFileSync _ _); [done|by rewrite app_nil_r]. Qed.

Lemma foldl_scanMatch files ms :
  foldl (scanMatch fs rootDir) files ms
  = files ++ (ms ≫= scanMatch fs rootDir []).
Proof.
  revert files. induction ms as [|m ms IH]; intros files; simpl.
  - by rewrite app_nil_r.
  - rewrite IH, scanMatch_app, <- app_assoc. done.
Qed.

Lemma scannedFiles_bind include exclude :
  scannedFiles glob fs rootDir include exclude
  = include ≫= λ pattern,
      glob fs rootDir pattern exclude ≫= scanMatch fs rootDir [].
Proof.
  unfold scannedFiles.
  enough (∀ files,
            foldl (λ files pattern,
                     foldl (scanMatch fs rootDir) files
                       (glob fs rootDir pattern exclude)) files include
            = files ++ (include ≫= λ pattern,
                glob fs rootDir pattern exclude ≫= scanMatch fs rootDir []))
    as H by apply (H []).
  induction include as [|p include IH]; intros files; simpl.
  - by rewrite app_nil_r.
  - rewrite IH, foldl_scanMatch, <- app_assoc. done.
Qed.

Lemma elem_of_scanMatch f m :
  f ∈ scanMatch fs rootDir [] m ↔
  let absolutePath := NodePath.resolve (fs_cwd fs) [rootDir; m] in
  let relativePath := NodePath.relative (fs_cwd fs) rootDir absolutePath in
  ∃ content,
    readFileSync fs absolutePath = Some content
    ∧ f = mkFile (normalizePath relativePath) content
          (normalizePath
             (if String.eqb (NodePath.dirname relativePath) "."
              then EmptyString else NodePath.dirname relativePath)).
Proof.
  unfold scanMatch. cbv zeta.
  destruct (readFileSync _ _) as [content|].
  - rewrite app_nil_l, list_elem_of_singleton. split.
    + intros ->. by exists content.
    + by intros (c & [= <-] & ->).
  - rewrite elem_of_nil. split; [done|]. by intros (c & ? & _).
Qed.

Lemma scanFiles_entries include exclude :
  let files := scannedFiles glob fs rootDir include exclude in
  ∀ e, e ∈ JsMap.ofEntries ((λ f, (file_path f, f)) <$> files) →
       e.2 ∈ files ∧ e.1 = file_path e.2.
Proof.
  intros files e [He|He]%ofEntries_entries; [by apply elem_of_nil in He|].
  apply list_elem_of_fmap in He as (f & -> & Hf). done.
Qed.

Lemma scanFiles_paths include exclude :
  NoDup (file_path <$> scanFiles glob fs rootDir include exclude)
  ∧ ∀ p, p ∈ file_path <$> scanFiles glob fs rootDir include exclude
         ↔ p ∈ file_path <$> scannedFiles glob fs rootDir include exclude.
Proof.
  unfold scanFiles, JsMap.values. cbv zeta.
  rewrite <- !list_fmap_compose.
  rewrite (Forall_fmap_ext_1 _ fst).
  - destruct (ofEntries_keys
                ((λ f, (file_path f, f))
                   <$> scannedFiles glob fs rootDir include exclude) [])
      as [Hnd Hk]; [constructor|].
    split; [done|]. intros p. rewrite Hk, <- list_fmap_compose.
    rewrite elem_of_nil. tauto.
  - apply Forall_forall. intros e He.
    apply scanFiles_entries in He as [_ ->]. done.
Qed.

(** X7.  [scanFiles] returns no path twice, also when the include
    patterns overlap. *)
Theorem scanFiles_distinct include exclude :
  NoDup (file_path <$> scanFiles glob fs rootDir include exclude).
Proof. apply scanFiles_paths. Qed.

(** X8.  Every file that [scanFiles] returns comes from a match of an
    include pattern, with the content that is on disk and the
    normalised relative path of the match; and the path of every match
    that can be read is among the paths returned. *)
Theorem scanFiles_matches include exclude :
  (∀ f, f ∈ scanFiles glob fs rootDir include exclude →
        ∃ pattern m,
          pattern ∈ include ∧ m ∈ glob fs rootDir pattern exclude
          ∧ readFileSync fs (NodePath.resolve (fs_cwd fs) [rootDir; m])
            = Some (file_content f)
          ∧ file_path f
            = normalizePath
                (NodePath.relative (fs_cwd fs) rootDir
                   (NodePath.resolve (fs_cwd fs) [rootDir; m])))
  ∧ (∀ pattern m,
       pattern ∈ include → m ∈ glob fs rootDir pattern exclude →
       is_Some (readFileSync fs (NodePath.resolve (fs_cwd fs) [rootDir; m])) →
       normalizePath
         (NodePath.relative (fs_cwd fs) rootDir
            (NodePath.resolve (fs_cwd fs) [rootDir; m]))
       ∈ file_path <$> scanFiles glob fs rootDir include exclude).
Proof.
  split.
  - intros f Hf. unfold scanFiles, JsMap.values in Hf. cbv zeta in Hf.
    apply list_elem_of_fmap in Hf as (e & -> & He).
    apply scanFiles_entries in He as [He _].
    rewrite scannedFiles_bind in He.
    apply list_elem_of_bind in He as (pattern & He & Hp).
    apply list_elem_of_bind in He as (m & He & Hm).
    apply elem_of_scanMatch in He as (content & Hread & ->).
    exists pattern, m. done.
  - intros pattern m Hp Hm [content Hread].
    apply scanFiles_paths. apply list_elem_of_fmap.
    eexists. split; [|rewrite scannedFiles_bind; apply list_elem_of_bind;
      exists pattern; split; [apply list_elem_of_bind; exists m; split;
        [apply elem_of_scanMatch; exists content; split; [done|reflexivity]
        |done]|done]].
    done.
Qed.

(** X9.  In the result of [scanProject] the buckets and [ungrouped]
    hold the scanned files, and no path occurs twice in them: every
    scanned file is in exactly one place.  When the configured
    subfolders are pairwise different (no object is listed twice), the
    keys of [grouped] are the configured subfolders (none when the
    configuration has no [subfolders]). *)
Theorem scanProject_partition include exclude subfolders :
  let r := scanProject glob fs rootDir include exclude subfolders in
  (NoDup (default [] subfolders) →
   fst <$> scan_grouped r = default [] subfolders)
  ∧ concat (snd <$> scan_grouped r) ++ scan_ungrouped r ≡ₚ scan_files r
  ∧ NoDup (file_path <$> (concat (snd <$> scan_grouped r) ++ scan_ungrouped r)).
Proof.
  intros r. split; [intros _; apply grouped_keys|].
  assert (concat (snd <$> scan_grouped r) ++ scan_ungrouped r ≡ₚ scan_files r)
    as Hperm.
  { pose proof (containers_slots (scanFiles glob fs rootDir include exclude)
                  (default [] subfolders)) as Hc.
    apply (f_equal (@concat IndexedFile)) in Hc. unfold containers in Hc.
    rewrite concat_app in Hc. cbn [concat] in Hc. rewrite app_nil_r in Hc.
    unfold r, scanProject. cbn [scan_grouped scan_ungrouped scan_files].
    rewrite Hc, concat_slots, filter_all; [done|].
    intros f _. apply slotOf_bound. }
  split; [done|]. rewrite Hperm. apply scanFiles_paths.
Qed.

End ScanFacts.

Section JsMapGet.

Context {V : Type}.
Implicit Types (m : list (string * V)) (k : string) (v : V).




End JsMapGet.

Section Summary.








End Summary.
(** ** Import extraction: what is captured *)

Section RegexSound.

Import Regex.

Lemma run_sound r :
  ∀ A s cap (k : string → option string → option A) a,
    run r s cap k = Some a →
    ∃ s' cap', Matches r s cap s' cap' ∧ k s' cap' = Some a.
Proof.
  induction r as [|p|r1 IH1 r2 IH2|r1 IH1 r2 IH2|r1 IH1|r1 IH1];
    intros A s cap k a; cbn [run].
  - intros H. exists s, cap. split; [constructor|done].
  - destruct s as [|c s]; [done|]. destruct (p c) eqn:E; [|done].
    intros H. exists s, cap. split; [by constructor|done].
  - intros H. apply IH1 in H as (s1 & cap1 & H1 & H).
    apply IH2 in H as (s2 & cap2 & H2 & H).
    exists s2, cap2. split; [by econstructor|done].
  - destruct (run r1 s cap k) as [a'|] eqn:E.
    + intros [= ->]. apply IH1 in E as (s' & cap' & H1 & H).
      exists s', cap'. split; [by apply Matches_Alt_l|done].
    + intros H. apply IH2 in H as (s' & cap' & H2 & H).
      exists s', cap'. split; [by apply Matches_Alt_r|done].
  - generalize (String.length s) at 1. intros fuel. revert s cap.
    induction fuel as [|fuel IHf]; intros s cap.
    + intros H. exists s, cap. split; [constructor|done].
    + match goal with
      | |- context [run r1 s cap ?k1] => destruct (run r1 s cap k1) as [a'|] eqn:E
      end.
      * intros [= ->]. apply IH1 in E as (s1 & cap1 & H1 & H).
        destruct (String.length s1 <? String.length s)%nat; [|done].
        apply IHf in H as (s2 & cap2 & H2 & H).
        exists s2, cap2. split; [by econstructor|done].
      * intros H. exists s, cap. split; [constructor|done].
  - intros H. apply IH1 in H as (s' & cap' & H1 & H).
    exists s', (Some (consumed s s')). split; [by econstructor|done].
Qed.

End RegexSound.

Section RegexCaptures.

Import Regex.

Lemma matches_suffix r s cap s' cap' :
  Matches r s cap s' cap' → ∃ u, s = u +:+ s'.
Proof.
  induction 1 as [s cap|p c s cap Hp|r1 r2 s cap s1 cap1 s2 cap2 _ [u1 ->] _ [u2 ->]
                 |r1 r2 s cap s' cap' _ IH|r1 r2 s cap s' cap' _ IH
                 |r s cap|r s cap s1 cap1 s2 cap2 _ [u1 ->] _ [u2 ->]
                 |r s cap s' cap' _ IH].
  - by exists EmptyString.
  - by exists (String c EmptyString).
  - exists (u1 +:+ u2). by rewrite append_assoc.
  - done.
  - done.
  - by exists EmptyString.
  - exists (u1 +:+ u2). by rewrite append_assoc.
  - done.
Qed.

Lemma matches_keep r s cap s' cap' :
  Matches r s cap s' cap' → groupFree r = true → cap' = cap.
Proof.
  induction 1; cbn [groupFree]; try done.
  - intros [H1 H2]%andb_true_iff. rewrite IHMatches2, IHMatches1; done.
  - intros [H1 H2]%andb_true_iff. auto.
  - intros [H1 H2]%andb_true_iff. auto.
  - intros Hg. rewrite IHMatches2, IHMatches1; done.
Qed.

Lemma matches_star_chr p s cap s' cap' :
  Matches (Star (Chr p)) s cap s' cap' →
  ∃ u, s = u +:+ s'
       ∧ ∀ c, c ∈ String.list_ascii_of_string u → p c = true.
Proof.
  remember (Star (Chr p)) as r eqn:Hr. intros H. revert Hr.
  induction H as [| | | | | |r s cap s1 cap1 s2 cap2 H1 _ H2 IH|]; try done.
  - intros _. exists EmptyString. split; [done|].
    intros c Hc. by apply elem_of_nil in Hc.
  - intros [= ->]. destruct (IH eq_refl) as (u & -> & Hu).
    inversion H1 as [|? c ? ? Hc| | | | | |]; subst.
    exists (String c u). split; [done|].
    intros c' [->|Hc']%elem_of_cons; auto.
Qed.

Lemma consumed_app p t : consumed (p +:+ t) t = p.
Proof.
  unfold consumed. rewrite length_append.
  replace (String.length p + String.length t - String.length t)%nat
    with (String.length p) by lia.
  induction p as [|c p IH]; simpl.
  - by destruct t.
  - by rewrite IH.
Qed.

Lemma capturesQuoted_quoted : capturesQuoted quoted.
Proof.
  intros s cap s' cap' H. unfold quoted, q_, Plus, notQuote in H. cbn [Seqs] in H.
  inversion H as [| |? ? ? ? s1 cap1 ? ? Hq1 H'| | | | |]; subst. clear H.
  inversion Hq1 as [|? q1 ? ? Hquote1| | | | | |]; subst. clear Hq1.
  inversion H' as [| |? ? ? ? s2 cap2 ? ? Hg Hq2| | | | |]; subst. clear H'.
  inversion Hq2 as [|? q2 ? ? Hquote2| | | | | |]; subst. clear Hq2.
  inversion Hg as [| | | | | | |? ? ? ? cap3 Hplus]; subst. clear Hg.
  inversion Hplus as [| |? ? ? ? s3 cap4 ? ? Hc Hstar| | | | |]; subst. clear Hplus.
  inversion Hc as [|? c ? ? Hnq| | | | | |]; subst. clear Hc.
  apply matches_star_chr in Hstar as (u & -> & Hu).
  exists EmptyString, (String c u), q1, q2, EmptyString.
  split; [done|]. split; [done|]. split; [done|]. split.
  - f_equal. apply (consumed_app (String c u)).
  - split; [done|]. intros c' [->|Hc']%elem_of_cons.
    + by apply negb_true_iff.
    + by apply negb_true_iff, Hu.
Qed.

Lemma capturesQuoted_seq_l r1 r2 :
  capturesQuoted r2 → capturesQuoted (Seq r1 r2).
Proof.
  intros H2 s cap s' cap' H.
  inversion H as [| |? ? ? ? s1 cap1 ? ? Hr1 Hr2| | | | |]; subst.
  apply matches_suffix in Hr1 as [u1 ->].
  apply H2 in Hr2 as (u & p & q1 & q2 & v & ? & ? & -> & ? & ? & ?).
  exists (u1 +:+ u), p, q1, q2, v. by rewrite append_assoc.
Qed.

Lemma capturesQuoted_seq_r r1 r2 :
  capturesQuoted r1 → groupFree r2 = true → capturesQuoted (Seq r1 r2).
Proof.
  intros H1 Hg s cap s' cap' H.
  inversion H as [| |? ? ? ? s1 cap1 ? ? Hr1 Hr2| | | | |]; subst.
  pose proof (matches_keep _ _ _ _ _ Hr2 Hg) as ->.
  apply matches_suffix in Hr2 as [u2 ->].
  apply H1 in Hr1 as (u & p & q1 & q2 & v & ? & ? & -> & ? & ? & ?).
  exists u, p, q1, q2, (v +:+ u2). by rewrite append_assoc.
Qed.

Lemma capturesQuoted_patterns :
  capturesQuoted es6ImportRegex ∧ capturesQuoted dynamicImportRegex
  ∧ capturesQuoted requireRegex ∧ capturesQuoted exportFromRegex.
Proof.
  split; [|split; [|split]].
  - do 3 apply capturesQuoted_seq_l. apply capturesQuoted_quoted.
  - do 4 apply capturesQuoted_seq_l.
    apply capturesQuoted_seq_r; [apply capturesQuoted_quoted|reflexivity].
  - do 4 apply capturesQuoted_seq_l.
    apply capturesQuoted_seq_r; [apply capturesQuoted_quoted|reflexivity].
  - do 6 apply capturesQuoted_seq_l. apply capturesQuoted_quoted.
Qed.

Lemma execAll_quoted r content :
  capturesQuoted r →
  ∀ s skip before,
    content = before +:+ s →
    Forall (λ cap, ∃ p, cap = Some p ∧ quotedIn content p) (execAll r s skip).
Proof.
  intros Hr s. induction s as [|c s IH]; intros skip before Hs; [constructor|].
  assert (content = (before +:+ String c EmptyString) +:+ s) as Hs'.
  { by rewrite append_assoc. }
  cbn [execAll]. destruct skip as [|skip]; [|by eapply IH].
  destruct (matchAt r (String c s)) as [[cap rest]|] eqn:E; [|by eapply IH].
  constructor; [|by eapply IH].
  unfold matchAt in E. apply run_sound in E as (s' & cap' & Hm & [= <- <-]).
  apply Hr in Hm as (u & p & q1 & q2 & v & Hq1 & Hq2 & Heq & -> & Hp & Hnq).
  exists p. split; [done|]. split; [done|]. split; [done|].
  exists (before +:+ u), (v +:+ s'), q1, q2.
  split; [done|]. split; [done|]. by rewrite Hs, Heq, append_assoc.
Qed.

(** X11.  Every specifier that [extractImports] returns is not empty,
    holds no quote, and stands in the content between two quotes (of
    either kind, not necessarily the same). *)
Theorem extractImports_quoted content p :
  p ∈ extractImports content → quotedIn content p.
Proof.
  destruct capturesQuoted_patterns as (H1 & H2 & H3 & H4).
  unfold extractImports. rewrite !elem_of_app.
  assert (∀ r, capturesQuoted r →
               p ∈ omap id (execAll r content 0) → quotedIn content p) as Hone.
  { intros r Hr Hp. apply list_elem_of_omap in Hp as (cap & Hcap & Hid).
    pose proof (execAll_quoted r content Hr content 0%nat EmptyString eq_refl)
      as Hall.
    rewrite Forall_forall in Hall. destruct (Hall _ Hcap) as (p' & -> & Hq).
    by injection Hid as <-. }
  intros [?|[?|[?|?]]]; eauto.
Qed.

End RegexCaptures.

Lemma extractImports_quoted_witness :
  quotedIn "import { x } from './b'" "./b".
Proof.
  apply extractImports_quoted. vm_compute. apply list_elem_of_here.
Defined.
(** ** Import resolution: packages, depth and size *)



Section ResolverDepth.

Variables (fs : FileSystem) (rootDir : string).

Lemma resolveLevels_nil n files allFiles :
  importLevel fs rootDir files allFiles = [] →
  resolveLevels fs rootDir n files allFiles = [].
Proof. intros H. destruct n as [|n]; [done|]. cbn [resolveLevels]. by rewrite H. Qed.

(** X13.  When the files import only bare specifiers (packages:
    neither relative nor absolute paths), no import is resolved,
    whatever the depth and whatever is on disk. *)
Theorem resolveImportsForFiles_packages_only files allFiles depth :
  (∀ f i, f ∈ files → i ∈ extractImports (file_content f) →
          Js.startsWith i "." = false ∧ Js.startsWith i "/" = false) →
  resolveImportsForFiles fs rootDir files allFiles depth = [].
Proof.
  intros Hbare. apply resolveLevels_nil. unfold importLevel.
  set (step := λ st file, foldl _ st (extractImports (file_content file))).
  enough (∀ l st, (∀ f, f ∈ l → f ∈ files) → foldl step st l = st) as H.
  { by rewrite H. }
  induction l as [|file l IH]; intros st Hl; [done|].
  cbn [foldl]. rewrite IH by (intros f Hf; apply Hl; by right).
  unfold step.
  assert (∀ i, i ∈ extractImports (file_content file) →
               Js.startsWith i "." = false ∧ Js.startsWith i "/" = false) as Hi.
  { intros i. apply Hbare, Hl. left. }
  revert Hi. generalize (extractImports (file_content file)).
  intros imports. revert st.
  induction imports as [|i imports IHi]; intros st Hi; [done|].
  cbn [foldl]. rewrite IHi by (intros j Hj; apply Hi; by right).
  unfold importStep, resolveImportPath.
  destruct (Hi i) as [-> ->]; [left|]. done.
Qed.

Lemma resolveLevels_prefix n m files allFiles :
  (n ≤ m)%nat →
  resolveLevels fs rootDir n files allFiles
    `prefix_of` resolveLevels fs rootDir m files allFiles.
Proof.
  revert m files allFiles. induction n as [|n IH]; intros m files allFiles Hnm.
  - apply prefix_nil.
  - destruct m as [|m]; [lia|]. cbn [resolveLevels].
    destruct (bool_decide (importLevel fs rootDir files allFiles = [])) eqn:E.
    + done.
    + cbn [negb andb].
      destruct n as [|n].
      * change (0 <? 0)%nat with false. cbv iota.
        destruct (0 <? m)%nat; [by apply prefix_app_r|done].
      * destruct m as [|m]; [lia|].
        change (0 <? S n)%nat with true. change (0 <? S m)%nat with true.
        cbv iota. apply prefix_app, IH. lia.
Qed.

(** X14.  A greater depth only adds to the result: the files
    returned for a depth are a prefix of the files returned for any
    greater depth. *)
Theorem resolveImportsForFiles_depth_prefix files allFiles
    (depth1 depth2 : Q) :
  (depth1 <= depth2)%Q →
  resolveImportsForFiles fs rootDir files allFiles depth1
    `prefix_of` resolveImportsForFiles fs rootDir files allFiles depth2.
Proof.
  intros Hd. apply resolveLevels_prefix.
  apply Qceiling_resp_le in Hd. lia.
Qed.

Lemma importLevel_length files allFiles (known : list IndexedFile) :
  (∀ f, f ∈ allFiles → f ∈ known) →
  (length (importLevel fs rootDir files allFiles) ≤ length known)%nat.
Proof.
  intros Hknown.
  rewrite <- (length_fmap (λ f, normalizePath (file_path f)) (importLevel _ _ _ _)).
  rewrite <- (length_fmap (λ f, normalizePath (file_path f)) known).
  apply submseteq_length, NoDup_submseteq.
  - apply importLevel_fresh.
  - intros p (f & -> & Hf)%list_elem_of_fmap.
    apply (list_elem_of_fmap_2 (λ f, normalizePath (file_path f))).
    apply Hknown. pose proof (importLevel_known fs rootDir files allFiles) as H.
    rewrite Forall_forall in H. by apply H.
Qed.

Lemma resolveLevels_length n files allFiles (known : list IndexedFile) :
  (∀ f, f ∈ allFiles → f ∈ known) →
  (length (resolveLevels fs rootDir n files allFiles) ≤ n * length known)%nat.
Proof.
  revert files allFiles. induction n as [|n IH]; intros files allFiles Hknown.
  - done.
  - cbn [resolveLevels].
    pose proof (importLevel_length files allFiles known Hknown) as Hlevel.
    destruct (negb _ && _); [|lia].
    rewrite length_app.
    assert (length (resolveLevels fs rootDir n
                      (importLevel fs rootDir files allFiles)
                      (allFiles ++ importLevel fs rootDir files allFiles))
            ≤ n * length known)%nat; [|lia].
    apply IH. intros f [Hf|Hf]%elem_of_app; [by apply Hknown|].
    apply Hknown. pose proof (importLevel_known fs rootDir files allFiles) as H.
    rewrite Forall_forall in H. by apply H.
Qed.

(** X15.  The result is bounded, also when the imports form a cycle:
    every level returns at most as many files as are known, so the
    result has at most (number of levels) x (number of known files)
    entries. *)
Theorem resolveImportsForFiles_length files allFiles depth :
  (length (resolveImportsForFiles fs rootDir files allFiles depth)
   ≤ Z.to_nat (Qceiling depth) * length allFiles)%nat.
Proof. by apply resolveLevels_length. Qed.

End ResolverDepth.

(** A module that imports a package only. *)
Lemma resolveImportsForFiles_packages_only_witness :
  resolveImportsForFiles cycleFs "/r"
    [mkFile "m.ts" "import React from 'react'" EmptyString] [fileA; fileB] 2
  = [].
Proof.
  apply resolveImportsForFiles_packages_only.
  intros f i ->%list_elem_of_singleton Hi.
  vm_compute in Hi. apply list_elem_of_singleton in Hi as ->.
  split; reflexivity.
Defined.

(** Depths 1 and 3 in the project of two modules. *)
Lemma resolveImportsForFiles_depth_prefix_witness :
  resolveImportsForFiles cycleFs "/r" [fileA] [fileA; fileB] 1
    `prefix_of` resolveImportsForFiles cycleFs "/r" [fileA] [fileA; fileB] 3.
Proof.
  apply resolveImportsForFiles_depth_prefix.
  unfold Qle. simpl. lia.
Defined.
(** ** Additional files and context files *)

Section AdditionalFiles.

Variable glob : FileSystem → string → string → list string → list string.
Variables (fs : FileSystem) (rootDir : string) (exclude : list string).
Variable existingFiles : gset string.

Lemma loadMatch_app additionalFiles m :
  loadMatch fs rootDir existingFiles additionalFiles m
  = additionalFiles ++ loadMatch fs rootDir existingFiles [] m.
Proof.
  unfold loadMatch. cbv zeta.
  destruct (decide _); [by rewrite app_nil_r|].
  destruct (readFileSync _ _); [done|by rewrite app_nil_r].
Qed.

Lemma foldl_loadMatch additionalFiles ms :
  foldl (loadMatch fs rootDir existingFiles) additionalFiles ms
  = additionalFiles ++ (ms ≫= loadMatch fs rootDir existingFiles []).
Proof.
  revert additionalFiles. induction ms as [|m ms IH]; intros l; simpl.
  - by rewrite app_nil_r.
  - rewrite IH, loadMatch_app, <- app_assoc. done.
Qed.

Lemma loadAdditionalFiles_bind patterns :
  loadAdditionalFiles glob fs rootDir patterns exclude existingFiles
  = patterns ≫= λ pattern,
      glob fs rootDir pattern exclude ≫= loadMatch fs rootDir existingFiles [].
Proof.
  unfold loadAdditionalFiles.
  enough (∀ l,
            foldl (λ additionalFiles pattern,
                     foldl (loadMatch fs rootDir existingFiles) additionalFiles
                       (glob fs rootDir pattern exclude)) l patterns
            = l ++ (patterns ≫= λ pattern,
                glob fs rootDir pattern exclude
                  ≫= loadMatch fs rootDir existingFiles []))
    as H by apply (H []).
  induction patterns as [|p patterns IH]; intros l; simpl.
  - by rewrite app_nil_r.
  - rewrite IH, foldl_loadMatch, <- app_assoc. done.
Qed.

Lemma elem_of_loadMatch m f :
  f ∈ loadMatch fs rootDir existingFiles [] m →
  (normalizePath m ∉ existingFiles)
  ∧ file_path f = normalizePath m
  ∧ readFileSync fs (NodePath.resolve (fs_cwd fs) [rootDir; m])
    = Some (file_content f).
Proof.
  unfold loadMatch. cbv zeta.
  destruct (decide (normalizePath m ∈ existingFiles)) as [|Hfresh];
    [by intros ?%elem_of_nil|].
  destruct (readFileSync _ _) as [content|] eqn:E;
    [|by intros ?%elem_of_nil].
  rewrite app_nil_l. by intros ->%list_elem_of_singleton.
Qed.

Lemma elem_of_loadAdditionalFiles patterns f :
  f ∈ loadAdditionalFiles glob fs rootDir patterns exclude existingFiles →
  ∃ pattern m,
    pattern ∈ patterns ∧ m ∈ glob fs rootDir pattern exclude
    ∧ f ∈ loadMatch fs rootDir existingFiles [] m.
Proof.
  rewrite loadAdditionalFiles_bind.
  intros (pattern & (m & Hf & Hm)%list_elem_of_bind & Hp)%list_elem_of_bind.
  by exists pattern, m.
Qed.

(** X16.  A file that [loadAdditionalFiles] returns is not among the
    existing paths; it is a match of one of the patterns, with the
    normalised match as its path and the content that is on disk. *)
Theorem loadAdditionalFiles_fresh patterns f :
  f ∈ loadAdditionalFiles glob fs rootDir patterns exclude existingFiles →
  (file_path f ∉ existingFiles)
  ∧ ∃ pattern m,
      pattern ∈ patterns ∧ m ∈ glob fs rootDir pattern exclude
      ∧ file_path f = normalizePath m
      ∧ readFileSync fs (NodePath.resolve (fs_cwd fs) [rootDir; m])
        = Some (file_content f).
Proof.
  intros (pattern & m & Hp & Hm & Hf)%elem_of_loadAdditionalFiles.
  apply elem_of_loadMatch in Hf as (Hfresh & Hpath & Hread).
  split; [by rewrite Hpath|]. by exists pattern, m.
Qed.

(** X17.  [loadAdditionalFiles] handles the patterns one after the
    other and independently: the result for a list of patterns is the
    concatenation of the results for its parts (so a file matched by
    two patterns is returned twice). *)
Theorem loadAdditionalFiles_app patterns1 patterns2 :
  loadAdditionalFiles glob fs rootDir (patterns1 ++ patterns2) exclude
    existingFiles
  = loadAdditionalFiles glob fs rootDir patterns1 exclude existingFiles
    ++ loadAdditionalFiles glob fs rootDir patterns2 exclude existingFiles.
Proof. rewrite !loadAdditionalFiles_bind. apply bind_app. Qed.

End AdditionalFiles.

(** X18.  No context file of a subfolder (resolved import or
    additional file) has the path of one of its main files. *)
Theorem contextFilesOf_fresh glob fs rootDir subfolder files allFiles
    exclude f :
  f ∈ contextFilesOf glob fs rootDir subfolder files allFiles exclude →
  file_path f ∉ file_path <$> files.
Proof.
  unfold contextFilesOf. cbv zeta.
  set (contextFiles := if negb _ then _ else []).
  assert (f ∈ contextFiles → file_path f ∉ file_path <$> files) as Hctx.
  { unfold contextFiles. destruct (negb _); [|by intros ?%elem_of_nil].
    intros [Hf _]%list_elem_of_filter Hin. apply Hf.
    by apply elem_of_list_to_set. }
  destruct (sub_additionalFiles subfolder) as [[|pattern patterns]|]; [done| |done].
  intros [Hf|Hf]%elem_of_app; [by apply Hctx|].
  apply elem_of_loadAdditionalFiles in Hf as (pattern' & m & _ & _ & Hf).
  apply elem_of_loadMatch in Hf as (Hf & -> & _). intros Hin. apply Hf.
  apply elem_of_list_to_set, elem_of_app. by left.
Qed.

Lemma loadAdditionalFiles_fresh_witness :
  (file_path fileB ∉ ({["a.ts"]} : gset string))
  ∧ ∃ pattern m,
      pattern ∈ ["*.ts"] ∧ m ∈ ["a.ts"; "b.ts"]
      ∧ file_path fileB = normalizePath m
      ∧ readFileSync cycleFs (NodePath.resolve (fs_cwd cycleFs) ["/r"; m])
        = Some (file_content fileB).
Proof.
  apply (loadAdditionalFiles_fresh (λ _ _ _ _, ["a.ts"; "b.ts"]) cycleFs "/r" []
           {["a.ts"]} ["*.ts"] fileB).
  vm_compute. apply list_elem_of_here.
Defined.

Lemma contextFilesOf_fresh_witness :
  file_path fileB ∉ file_path <$> [fileA].
Proof.
  apply (contextFilesOf_fresh noGlob cycleFs "/r" (sf "a.ts") [fileA]
           [fileA; fileB] [] fileB).
  vm_compute. apply list_elem_of_here.
Defined.
(** ** binary64 arithmetic: rounding twice *)

Section F64Idem.

Import F64.
Local Open Scope Q_scope.

Lemma round_red x : Qred (round x) = round x.
Proof. unfold round. apply Qred_complete, Qred_correct. Qed.

Lemma round_pos_double x : 0 < x → round (round_pos x) == round_pos x.
Proof.
  intros Hx. destruct (round_pos_bounds x Hx) as [H1 H2].
  unfold round_pos in *. set (e := (ilog2 x - 52)%Z) in *.
  set (m := rne (x / pow2 e)) in *.
  pose proof (pow2_pos e) as He.
  assert (m <= 2 ^ 53)%Z as Hm.
  { apply Z.nlt_ge. intros Hlt.
    assert (inject_Z (2 ^ 53 + 1) <= inject_Z m) as Hq
      by (rewrite <- Zle_Qle; lia).
    assert (pow2 (ilog2 x + 1) == inject_Z (2 ^ 53) * pow2 e) as E.
    { rewrite (pow2_inject 53) by lia. rewrite <- pow2_plus.
      unfold e. by replace (53 + (ilog2 x - 52))%Z with (ilog2 x + 1)%Z by lia. }
    rewrite E in H2.
    assert (inject_Z (2 ^ 53 + 1) * pow2 e <= inject_Z m * pow2 e) as Hq'.
    { apply Qmult_le_compat_r; [done|by apply Qlt_le_weak]. }
    rewrite inject_Z_plus in Hq'. change (inject_Z 1) with 1 in Hq'. lra. }
  assert (0 <= m)%Z as Hm0.
  { apply Z.nlt_ge. intros Hlt.
    assert (inject_Z m <= inject_Z (-1)) as Hq by (rewrite <- Zle_Qle; lia).
    assert (inject_Z m * pow2 e <= inject_Z (-1) * pow2 e) as Hq'.
    { apply Qmult_le_compat_r; [done|by apply Qlt_le_weak]. }
    pose proof (pow2_pos (ilog2 x)).
    change (inject_Z (-1)) with (-1 # 1) in Hq'. lra. }
  destruct (decide (m = 2 ^ 53)%Z) as [Hmax|Hne].
  - assert (inject_Z m * pow2 e == inject_Z 1 * pow2 (53 + e)) as E.
    { rewrite Hmax, pow2_plus, <- (pow2_inject 53) by lia.
      change (inject_Z 1) with 1. ring. }
    rewrite (round_comp _ _ E), E. apply round_dyadic. lia.
  - apply round_dyadic. lia.
Qed.

Lemma round_pos_eq x : 0 < x → round x == round_pos x.
Proof.
  intros Hx. unfold round. rewrite Qred_correct.
  destruct (Qcompare_spec x 0) as [H|H|H]; [lra|lra|reflexivity].
Qed.

Lemma round_neg_eq x : x < 0 → round x == - round_pos (- x).
Proof.
  intros Hx. unfold round. rewrite Qred_correct.
  destruct (Qcompare_spec x 0) as [H|H|H]; [lra|reflexivity|lra].
Qed.

Lemma round_double x : round (round x) == round x.
Proof.
  destruct (Qlt_le_dec 0 x) as [Hpos|Hle].
  - rewrite (round_comp _ _ (round_pos_eq x Hpos)).
    rewrite (round_pos_eq x Hpos). by apply round_pos_double.
  - destruct (Qlt_le_dec x 0) as [Hneg|Hge].
    + assert (0 < - x) as Hx by lra.
      rewrite (round_comp _ _ (round_neg_eq x Hneg)).
      rewrite (round_neg_eq x Hneg).
      destruct (round_pos_bounds _ Hx) as [Hb _].
      pose proof (pow2_pos (ilog2 (- x))) as Hp.
      set (z := round_pos (- x)) in *.
      assert (- z < 0) as Hz by lra.
      rewrite (round_neg_eq _ Hz).
      assert (- - z == z) as E by ring.
      assert (0 < - - z) as Hzz by lra.
      rewrite (round_pos_comp _ _ Hzz E).
      assert (0 < z) as Hz' by lra.
      rewrite <- (round_pos_eq z Hz'). unfold z.
      by rewrite (round_pos_double _ Hx).
    + assert (x == 0) as E by lra.
      rewrite (round_comp x 0 E).
      change (round 0) with 0. reflexivity.
Qed.

(** A double is not changed by rounding. *)
Lemma round_idemp x : round (round x) = round x.
Proof.
  transitivity (Qred (round (round x))); [symmetry; apply round_red|].
  transitivity (Qred (round x)); [|apply round_red].
  apply Qred_complete, round_double.
Qed.

End F64Idem.
(** ** Token estimation: bounds, fields, monotonicity *)

Section TokenBounds.

Import F64.
Local Open Scope Q_scope.

Lemma Qmult_le_nonneg_l a b c : 0 <= a → b <= c → a * b <= a * c.
Proof. intros Ha Hbc. rewrite !(Qmult_comm a). by apply Qmult_le_compat_r. Qed.

(** X19.  For every text (of a length that is a safe integer) the
    estimate for prose is not negative and at most the estimate for
    code, which is at most the number of characters. *)
Theorem estimateTokens_bounds s :
  (Z.of_nat (String.length s) < 2 ^ 53)%Z →
  (0 <= estimateTokens s false)%Z
  ∧ (estimateTokens s false <= estimateTokens s true)%Z
  ∧ (estimateTokens s true <= Z.of_nat (String.length s))%Z.
Proof.
  intros Hlen. set (n := Z.of_nat (String.length s)) in *.
  assert (0 <= inject_Z n) as Hn by (rewrite <- (Zle_Qle 0); lia).
  assert (0 <= TOKENS_PER_CHAR_prose) as Hp by apply (ratio_nonneg false).
  assert (TOKENS_PER_CHAR_prose <= TOKENS_PER_CHAR_code) as Hpc
    by (vm_compute; discriminate).
  assert (TOKENS_PER_CHAR_code <= 1) as Hc1 by (vm_compute; discriminate).
  unfold estimateTokens, ceil, mul. fold n. split; [|split].
  - rewrite <- (Qceiling_Z 0). apply Qceiling_resp_le.
    apply round_nonneg. by apply Qmult_le_0_compat.
  - apply Qceiling_resp_le, round_mono.
    + by apply Qmult_le_0_compat.
    + by apply Qmult_le_nonneg_l.
  - rewrite <- (Qceiling_Z n) at 2. apply Qceiling_resp_le.
    rewrite <- (round_Z n) at 2 by lia. apply round_mono.
    + apply Qmult_le_0_compat; [done|]. by apply Qle_trans with TOKENS_PER_CHAR_prose.
    + rewrite <- (Qmult_1_r (inject_Z n)) at 2. by apply Qmult_le_nonneg_l.
Qed.

End TokenBounds.

Section EstimateMonotone.

Import F64.
Local Open Scope Q_scope.

Lemma MODEL_PRICING_positive :
  Forall (λ e : string * Pricing,
            Qle_bool 0 (price_input e.2) = true
            ∧ (0 < price_context e.2)%Z) MODEL_PRICING.
Proof. repeat constructor; vm_compute; reflexivity. Qed.

Lemma findPricing_table model pricing :
  findPricing model = Some pricing → ∃ key, (key, pricing) ∈ MODEL_PRICING.
Proof.
  assert (∀ P, snd <$> List.find P MODEL_PRICING = Some pricing →
               ∃ key, (key, pricing) ∈ MODEL_PRICING) as Hfind.
  { intros P H. destruct (List.find P MODEL_PRICING) as [[k p]|] eqn:E; [|done].
    injection H as <-. exists k. apply find_some in E as [Hin _].
    by apply list_elem_of_In. }
  unfold findPricing. destruct (exactPricing model) as [p|] eqn:E.
  - intros [= <-]. by apply Hfind in E.
  - apply Hfind.
Qed.

Lemma findPricing_positive model pricing :
  findPricing model = Some pricing →
  0 <= price_input pricing ∧ (0 < price_context pricing)%Z.
Proof.
  intros [key Hin]%findPricing_table.
  pose proof MODEL_PRICING_positive as H. rewrite Forall_forall in H.
  destruct (H _ Hin) as [H1 H2]. split; [|done]. by apply Qle_bool_iff.
Qed.

Lemma usagePercent_mono t1 t2 window :
  (0 <= t1 <= t2)%Z → (0 < window)%Z →
  0 <= usagePercent t1 window ∧ usagePercent t1 window <= usagePercent t2 window.
Proof.
  intros [H0 H12] Hw. unfold usagePercent, div, mul, Math_round.
  assert (0 < inject_Z window) as Hw' by (rewrite <- (Zlt_Qlt 0); lia).
  assert (0 <= inject_Z t1) as H1 by (rewrite <- (Zle_Qle 0); lia).
  assert (inject_Z t1 <= inject_Z t2) as H2 by (by rewrite <- Zle_Qle).
  assert (0 <= inject_Z t1 / inject_Z window) as Ha.
  { apply Qle_shift_div_l; [done|]. lra. }
  assert (inject_Z t1 / inject_Z window <= inject_Z t2 / inject_Z window) as Hb.
  { apply Qmult_le_compat_r; [done|]. by apply Qlt_le_weak, Qinv_lt_0_compat. }
  pose proof (round_nonneg _ Ha) as Ha1.
  pose proof (round_mono _ _ Ha Hb) as Hb1.
  set (a1 := round (inject_Z t1 / inject_Z window)) in *.
  set (b1 := round (inject_Z t2 / inject_Z window)) in *.
  assert (0 <= a1 * 100) as Ha2 by lra.
  assert (a1 * 100 <= b1 * 100) as Hb2 by lra.
  pose proof (round_nonneg _ Ha2) as Ha3.
  pose proof (round_mono _ _ Ha2 Hb2) as Hb3.
  set (a2 := round (a1 * 100)) in *. set (b2 := round (b1 * 100)) in *.
  assert (0 <= a2 * 10) as Ha4 by lra.
  assert (a2 * 10 <= b2 * 10) as Hb4 by lra.
  pose proof (round_nonneg _ Ha4) as Ha5.
  pose proof (round_mono _ _ Ha4 Hb4) as Hb5.
  set (a3 := round (a2 * 10)) in *. set (b3 := round (b2 * 10)) in *.
  assert (0 <= Qfloor (a3 + (1 # 2)))%Z as Ha6.
  { rewrite <- (Qfloor_Z 0). apply Qfloor_resp_le.
    change (inject_Z 0) with 0. lra. }
  assert (Qfloor (a3 + (1 # 2)) <= Qfloor (b3 + (1 # 2)))%Z as Hb6.
  { apply Qfloor_resp_le. lra. }
  rewrite Zle_Qle in Ha6, Hb6. change (inject_Z 0) with 0 in Ha6.
  set (a4 := inject_Z (Qfloor (a3 + (1 # 2)))) in *.
  set (b4 := inject_Z (Qfloor (b3 + (1 # 2)))) in *.
  assert (0 <= a4 / 10) as Ha7.
  { apply Qle_shift_div_l; [reflexivity|]. lra. }
  assert (a4 / 10 <= b4 / 10) as Hb7.
  { apply Qmult_le_compat_r; [done|]. discriminate. }
  split; [by apply round_nonneg|by apply round_mono].
Qed.

(** X21.  For a model with a pricing, a longer content never has a
    smaller estimated cost or a smaller context usage, and neither is
    negative: the binary64 roundings on the way are monotone. *)
Theorem getTokenEstimate_monotone s t model isCode pricing :
  model ≠ EmptyString →
  findPricing model = Some pricing →
  (String.length s ≤ String.length t)%nat →
  ∃ cost1 cost2 usage1 usage2,
    estimatedCost (getTokenEstimate s (Some model) isCode) = Some cost1
    ∧ estimatedCost (getTokenEstimate t (Some model) isCode) = Some cost2
    ∧ contextUsagePercent (getTokenEstimate s (Some model) isCode) = Some usage1
    ∧ contextUsagePercent (getTokenEstimate t (Some model) isCode) = Some usage2
    ∧ 0 <= cost1 ∧ cost1 <= cost2 ∧ 0 <= usage1 ∧ usage1 <= usage2.
Proof.
  intros Hne Hp Hlen.
  rewrite !(getTokenEstimate_found _ _ _ _ Hne Hp).
  cbn [estimatedCost contextUsagePercent].
  destruct (findPricing_positive _ _ Hp) as [Hin Hw].
  pose proof (estimateTokens_mono s t isCode Hlen) as Hmono.
  assert (0 <= estimateTokens s isCode)%Z as H0.
  { rewrite <- (estimateTokens_empty isCode).
    apply estimateTokens_mono. simpl. lia. }
  generalize dependent (estimateTokens s isCode). intros n1.
  generalize (estimateTokens t isCode). intros n2 Hmono H0.
  do 4 eexists. do 4 (split; [reflexivity|]).
  destruct (usagePercent_mono n1 n2 (price_context pricing)) as [Hu0 Hu]; [lia|done|].
  split; [|split; [|split]]; [| |done|done].
  - unfold mul, div. apply round_nonneg. apply Qmult_le_0_compat; [|done].
    apply round_nonneg. apply Qle_shift_div_l; [reflexivity|].
    rewrite Qmult_0_l. rewrite <- (Zle_Qle 0). done.
  - unfold mul, div.
    assert (0 <= inject_Z n1 / 1000000) as Ha.
    { apply Qle_shift_div_l; [reflexivity|].
      rewrite Qmult_0_l. rewrite <- (Zle_Qle 0). done. }
    assert (inject_Z n1 / 1000000 <= inject_Z n2 / 1000000) as Hb.
    { apply Qmult_le_compat_r; [by rewrite <- Zle_Qle|discriminate]. }
    pose proof (round_nonneg _ Ha). pose proof (round_mono _ _ Ha Hb).
    apply round_mono.
    + by apply Qmult_le_0_compat.
    + by apply Qmult_le_compat_r.
Qed.

End EstimateMonotone.

Section EstimateFields.

Import F64.
Local Open Scope Q_scope.

(** X20.  For a model name that is not the name of a member of
    [Object.prototype], the estimate carries the number of characters
    and the token estimate of the content; cost, context window and
    usage are set together, exactly when a model name is given, is not
    empty and has a pricing; a warning is only set together with
    them. *)
Theorem getTokenEstimate_fields content model isCode :
  plainModelName model →
  let e := getTokenEstimate content model isCode in
  characters e = Z.of_nat (String.length content)
  ∧ tokens e = estimateTokens content isCode
  ∧ (is_Some (estimatedCost e) ↔
     ∃ m, model = Some m ∧ m ≠ EmptyString ∧ is_Some (findPricing m))
  ∧ (is_Some (contextWindow e) ↔ is_Some (estimatedCost e))
  ∧ (is_Some (contextUsagePercent e) ↔ is_Some (estimatedCost e))
  ∧ (is_Some (warning e) → is_Some (contextUsagePercent e)).
Proof.
  intros _.
  assert (∀ A, ¬ is_Some (@None A)) as Hnone by (intros A [x Hx]; done).
  assert (∀ e : TokenEstimate,
            estimatedCost e = None → contextWindow e = None →
            contextUsagePercent e = None → warning e = None →
            (∀ m, model = Some m → m ≠ EmptyString → findPricing m = None) →
            (is_Some (estimatedCost e) ↔
             ∃ m, model = Some m ∧ m ≠ EmptyString ∧ is_Some (findPricing m))
            ∧ (is_Some (contextWindow e) ↔ is_Some (estimatedCost e))
            ∧ (is_Some (contextUsagePercent e) ↔ is_Some (estimatedCost e))
            ∧ (is_Some (warning e) → is_Some (contextUsagePercent e))) as Hbare.
  { intros e -> -> -> -> Hm. split; [|done]. split; [by intros ?%Hnone|].
    intros (m & Hmodel & Hne & Hp). rewrite (Hm m Hmodel Hne) in Hp.
    by apply Hnone in Hp. }
  destruct model as [[|c m]|].
  - unfold getTokenEstimate. cbv zeta.
    split; [done|]. split; [done|]. apply Hbare; try done.
    by intros m [= <-].
  - destruct (findPricing (String c m)) as [p|] eqn:E.
    + assert (String c m ≠ EmptyString) as Hne by done.
      rewrite (getTokenEstimate_found _ _ _ _ Hne E). cbv zeta.
      cbn [characters tokens estimatedCost contextWindow contextUsagePercent warning].
      split; [done|]. split; [done|]. split; [|done].
      split; [|by eexists]. intros _. exists (String c m). by rewrite E.
    + unfold getTokenEstimate. rewrite E. cbv zeta.
      split; [done|]. split; [done|]. apply Hbare; try done.
      by intros m' [= <-].
  - unfold getTokenEstimate. cbv zeta.
    split; [done|]. split; [done|]. apply Hbare; done.
Qed.

(** X22.  Aggregating the single estimate of a priced model returns
    that estimate unchanged: adding the cost to 0 does not round, the
    usage is recomputed to the same value, and the warning is the
    same. *)
Theorem aggregateEstimates_single content model isCode :
  model ≠ EmptyString →
  is_Some (findPricing model) →
  aggregateEstimates [getTokenEstimate content (Some model) isCode]
  = getTokenEstimate content (Some model) isCode.
Proof.
  intros Hne [pricing Hp]. rewrite (getTokenEstimate_found _ _ _ _ Hne Hp).
  cbv zeta. destruct (findPricing_positive _ _ Hp) as [_ Hw].
  generalize (estimateTokens content isCode). intros n.
  unfold aggregateEstimates. cbn [List.find hasContextWindow contextWindow].
  assert ((price_context pricing =? 0)%Z = false) as -> by lia.
  cbn [negb foldl addEstimate characters tokens estimatedCost contextWindow
         default].
  rewrite !Z.add_0_l. unfold id.
  generalize (usagePercent n (price_context pricing)). intros p.
  f_equal.
  - f_equal. unfold add, mul.
    set (y := div (inject_Z n) 1000000 * price_input pricing).
    assert (0 + round y == round y) as E by ring.
    rewrite (round_comp _ _ E). apply round_idemp.
  - destruct (gtb p 80) eqn:E; [done|].
    destruct (gtb p 95) eqn:E'; [|done].
    apply gtb_95_80 in E'. congruence.
Qed.

(** X23.  Every key of [MODEL_PRICING] is priced by its own entry:
    the exact match comes first, so [gpt-4o-mini] is not priced as
    [gpt-4o], whose name it contains. *)
Theorem findPricing_exact key pricing :
  (key, pricing) ∈ MODEL_PRICING → findPricing key = Some pricing.
Proof.
  assert (Forall (λ e, findPricing e.1 = Some e.2) MODEL_PRICING) as H.
  { repeat constructor; vm_compute; reflexivity. }
  rewrite Forall_forall in H. intros Hin. apply (H _ Hin).
Qed.

End EstimateFields.

(** Five characters: 2 tokens as prose, 2 as code. *)
Lemma estimateTokens_bounds_witness :
  (0 <= estimateTokens "abcde" false)%Z
  ∧ (estimateTokens "abcde" false <= estimateTokens "abcde" true)%Z
  ∧ (estimateTokens "abcde" true <= Z.of_nat (String.length "abcde"))%Z.
Proof. apply estimateTokens_bounds. vm_compute. reflexivity. Defined.

(** The estimate of 1000 characters for [gpt-4o]. *)
Lemma aggregateEstimates_single_witness :
  aggregateEstimates [getTokenEstimate (text 1000) (Some "gpt-4o") true]
  = getTokenEstimate (text 1000) (Some "gpt-4o") true.
Proof.
  apply aggregateEstimates_single; [discriminate|].
  vm_compute. eexists. reflexivity.
Defined.

(** The entry of [gpt-4o-mini]. *)
Lemma findPricing_exact_witness :
  findPricing "gpt-4o-mini" = Some (pricing (15 # 100) (6 # 10) 128000).
Proof.
  apply findPricing_exact. unfold MODEL_PRICING.
  do 5 apply list_elem_of_further. apply list_elem_of_here.
Defined.

(** Three and six characters for [gpt-4o]. *)
Lemma getTokenEstimate_monotone_witness :
  ∃ cost1 cost2 usage1 usage2,
    estimatedCost (getTokenEstimate "abc" (Some "gpt-4o") true) = Some cost1
    ∧ estimatedCost (getTokenEstimate "abcdef" (Some "gpt-4o") true) = Some cost2
    ∧ contextUsagePercent (getTokenEstimate "abc" (Some "gpt-4o") true)
      = Some usage1
    ∧ contextUsagePercent (getTokenEstimate "abcdef" (Some "gpt-4o") true)
      = Some usage2
    ∧ (0 <= cost1 ∧ cost1 <= cost2 ∧ 0 <= usage1 ∧ usage1 <= usage2)%Q.
Proof.
  apply (getTokenEstimate_monotone "abc" "abcdef" "gpt-4o" true
           (pricing (25 # 10) 10 128000)).
  - discriminate.
  - vm_compute. reflexivity.
  - simpl. lia.
Defined.

(** The estimate of three characters for [gpt-4o]. *)
Lemma getTokenEstimate_fields_witness :
  let e := getTokenEstimate "abc" (Some "gpt-4o") true in
  characters e = Z.of_nat (String.length "abc")
  ∧ tokens e = estimateTokens "abc" true
  ∧ (is_Some (estimatedCost e) ↔
     ∃ m, Some "gpt-4o" = Some m ∧ m ≠ EmptyString ∧ is_Some (findPricing m))
  ∧ (is_Some (contextWindow e) ↔ is_Some (estimatedCost e))
  ∧ (is_Some (contextUsagePercent e) ↔ is_Some (estimatedCost e))
  ∧ (is_Some (warning e) → is_Some (contextUsagePercent e)).
Proof.
  apply (getTokenEstimate_fields "abc" (Some "gpt-4o") true).
  intros m [= <-]. vm_compute. intros H.
  repeat (apply elem_of_cons in H as [H|H]; [discriminate H|]).
  by apply elem_of_nil in H.
Defined.
(** ** The generator: runs that are not dry *)

Section Stepped.

Lemma stepped_refl s : stepped s s [] [].
Proof. unfold stepped. by rewrite !app_nil_r. Qed.

Lemma stepped_trans s s1 s2 w1 w2 q1 q2 :
  stepped s s1 w1 q1 → stepped s1 s2 w2 q2 →
  stepped s s2 (w1 ++ w2) (q1 ++ q2).
Proof.
  intros (Hc1 & Hw1 & Hq1) (Hc2 & Hw2 & Hq2). unfold stepped.
  rewrite Hc2, Hc1, Hw2, Hw1, Hq2, Hq1, !app_assoc. done.
Qed.

Lemma writesOf_snoc trace e :
  writesOf (trace ++ [e])
  = writesOf trace ++ match e with WriteCall p c => [(p, c)] | _ => [] end.
Proof. unfold writesOf. rewrite omap_app. by destruct e. Qed.

Lemma requestsOf_snoc trace e :
  requestsOf (trace ++ [e])
  = requestsOf trace ++ match e with LlmCall r => [r] | _ => [] end.
Proof. unfold requestsOf. rewrite omap_app. by destruct e. Qed.

Lemma callLlm_stepped service request s content s' :
  callLlm (Some service) request s = (Returned content, s') →
  service request = Some content ∧ stepped s s' [] [request].
Proof.
  unfold callLlm. rewrite bind_unfold. cbn [emit].
  destruct (service request) as [c|]; [|done].
  intros [= <- <-]. split; [done|]. unfold stepped.
  cbn [st_fs st_trace]. by rewrite writesOf_snoc, requestsOf_snoc.
Qed.

Lemma finish_stepped service request outputPath sourceFiles
    (estimate : TokenEstimate) s (r : StepResult) s' :
  (content ← callLlm (Some service) request;
   mret (Some (mkDoc outputPath content sourceFiles), Some estimate)) s
    = (Returned r, s') →
  ∃ content,
    r = (Some (mkDoc outputPath content sourceFiles), Some estimate)
    ∧ service request = Some content ∧ stepped s s' [] [request].
Proof.
  rewrite bind_unfold.
  destruct (callLlm (Some service) request s) as [[content|e] s1] eqn:E; [|done].
  intros [= <- <-]. apply callLlm_stepped in E as [Hs Hst]. by exists content.
Qed.

Lemma mkdirSync_stepped dir s u s' :
  NodeFs.mkdirSync dir s = (Returned u, s') → stepped s s' [] [].
Proof.
  unfold NodeFs.mkdirSync. rewrite !bind_unfold. cbn [getFs emit].
  destruct (NodeFs.mkdirp _ _ _) as [entries|]; [|done].
  intros [= _ <-]. unfold stepped.
  cbn [st_fs st_trace fs_cwd]. by rewrite writesOf_snoc, requestsOf_snoc.
Qed.

Lemma writeFileSync_stepped p content s u s' :
  NodeFs.writeFileSync p content s = (Returned u, s') →
  stepped s s' [(p, content)] []
  ∧ fs_entries (st_fs s') = <[p := RegularFile content]> (fs_entries (st_fs s)).
Proof.
  unfold NodeFs.writeFileSync. rewrite !bind_unfold. cbn [getFs emit st_fs].
  destruct (fs_entries (st_fs s) !! NodePath.dirname p) as [[c|]|]; [done| |done].
  destruct (fs_entries (st_fs s) !! p) as [[c|]|]; [|done|];
    intros [= _ <-]; (split; [|done]); unfold stepped;
    cbn [st_fs st_trace fs_cwd]; by rewrite writesOf_snoc, requestsOf_snoc.
Qed.

Lemma writeDoc_stepped rootDir outputPath content s u s' :
  writeDoc rootDir outputPath content s = (Returned u, s') →
  stepped s s'
    [(NodePath.resolve (fs_cwd (st_fs s)) [rootDir; outputPath], content)] []
  ∧ fs_entries (st_fs s')
      !! NodePath.resolve (fs_cwd (st_fs s)) [rootDir; outputPath]
    = Some (RegularFile content).
Proof.
  unfold writeDoc. rewrite bind_unfold. cbn [getFs]. cbv zeta.
  set (fullPath := NodePath.resolve _ _). rewrite bind_unfold.
  destruct (existsSync _ _).
  - cbn [mret Gen_ret]. intros [Hst He]%writeFileSync_stepped.
    split; [done|]. by rewrite He, lookup_insert_eq.
  - destruct (NodeFs.mkdirSync (NodePath.dirname fullPath) s)
      as [[[]|e] s1] eqn:E; [|done].
    apply mkdirSync_stepped in E.
    intros [Hst He]%writeFileSync_stepped. split.
    + apply (stepped_trans _ _ _ [] _ [] _ E Hst).
    + by rewrite He, lookup_insert_eq.
Qed.

End Stepped.

Section RealRun.

Variable glob : FileSystem → string → string → list string → list string.
Variables (service : LLMService) (config : Config) (rootDir : string).

Lemma generateSubfolderDoc_answered subfolder files allFiles prompt exclude
    model s r s' :
  generateSubfolderDoc glob (Some service) rootDir subfolder files allFiles
    prompt exclude model false s = (Returned r, s') →
  answered service s r s'.
Proof.
  unfold generateSubfolderDoc. destruct files as [|file files].
  { by intros [= <- <-]. }
  rewrite !bind_unfold.
  set (readDoc := if truthy _ then _ else _).
  assert (quiet readDoc) as Hq
    by (unfold readDoc; destruct (truthy _); apply quiet_readExistingDoc).
  specialize (Hq s).
  destruct (readDoc s) as [[existing|e] s1]; cbn [snd] in Hq; subst s1; [|done].
  rewrite !bind_unfold. cbn [getFs].
  intros (content & -> & Hs & Hst)%finish_stepped.
  unfold answered. cbn [fst doc_content]. eauto.
Qed.

Lemma generateUngroupedDocs_answered files outputDir prompt model s r s' :
  generateUngroupedDocs (Some service) rootDir files outputDir prompt model
    false s = (Returned r, s') →
  answered service s r s'.
Proof.
  unfold generateUngroupedDocs. destruct files as [|file files].
  { by intros [= <- <-]. }
  rewrite !bind_unfold.
  pose proof (quiet_readExistingDoc rootDir
                (outputDir +:+ "/api-reference.md") s) as Hq.
  destruct (readExistingDoc _ _ s) as [[existing|e] s1]; cbn [snd] in Hq;
    subst s1; [|done].
  intros (content & -> & Hs & Hst)%finish_stepped.
  unfold answered. cbn [fst doc_content]. eauto.
Qed.

Lemma generateReadme_answered allFiles prompt model s r s' :
  generateReadme (Some service) rootDir allFiles prompt model false s
    = (Returned r, s') →
  answered service s r s'.
Proof.
  unfold generateReadme. rewrite !bind_unfold.
  pose proof (quiet_readExistingDoc rootDir "README.md" s) as Hq.
  destruct (readExistingDoc _ _ s) as [[existing|e] s1]; cbn [snd] in Hq;
    subst s1; [|done].
  intros (content & -> & Hs & Hst)%finish_stepped.
  unfold answered. cbn [fst doc_content]. eauto.
Qed.

Lemma written_refl cwd s acc : written service cwd rootDir s acc s acc.
Proof.
  exists [], []. rewrite app_nil_r. split; [done|].
  split; [apply stepped_refl|constructor].
Qed.

Lemma written_trans cwd s acc s1 acc1 s2 acc2 :
  written service cwd rootDir s acc s1 acc1 →
  written service cwd rootDir s1 acc1 s2 acc2 →
  written service cwd rootDir s acc s2 acc2.
Proof.
  intros (d1 & q1 & Ha1 & Hs1 & Hf1) (d2 & q2 & Ha2 & Hs2 & Hf2).
  exists (d1 ++ d2), (q1 ++ q2). split; [by rewrite Ha2, Ha1, app_assoc|].
  split; [rewrite fmap_app; by eapply stepped_trans|by apply Forall2_app].
Qed.

Lemma collect_written acc r s s1 acc' s' :
  answered service s r s1 →
  collect rootDir false acc r s1 = (Returned acc', s') →
  written service (fs_cwd (st_fs s)) rootDir s acc s' acc'.
Proof.
  unfold answered, collect. destruct r.1 as [doc|].
  - intros (request & Hreq & Hst). rewrite bind_unfold.
    destruct (writeDoc _ _ _ s1) as [[[]|e] s2] eqn:E; [|done].
    intros [= <- <-]. apply writeDoc_stepped in E as [Hw _].
    pose proof Hst as (Hcwd & _). rewrite Hcwd in Hw.
    pose proof (stepped_trans _ _ _ _ _ _ _ Hst Hw) as H.
    rewrite app_nil_l, app_nil_r in H.
    exists [doc], [request]. split; [done|]. split; [done|by constructor].
  - intros -> [= <- <-]. apply written_refl.
Qed.

Lemma written_cwd cwd s acc s' acc' :
  written service cwd rootDir s acc s' acc' →
  fs_cwd (st_fs s') = fs_cwd (st_fs s).
Proof. by intros (? & ? & _ & (? & _) & _). Qed.

Lemma generateSubfolders_written allFiles groups acc s acc' s' :
  generateSubfolders glob (Some service) config rootDir false allFiles groups
    acc s = (Returned acc', s') →
  written service (fs_cwd (st_fs s)) rootDir s acc s' acc'.
Proof.
  revert acc s. induction groups as [|[subfolder files] groups IH]; intros acc s.
  - intros [= <- <-]. apply written_refl.
  - cbn [generateSubfolders]. rewrite bind_unfold.
    destruct (generateSubfolderDoc _ _ _ _ _ _ _ _ _ _ s) as [[r|e] s1] eqn:E;
      [|done].
    apply generateSubfolderDoc_answered in E. rewrite bind_unfold.
    destruct (collect _ _ _ _ s1) as [[acc1|e] s2] eqn:Ec; [|done].
    pose proof (collect_written _ _ _ _ _ _ E Ec) as H1.
    intros H2%IH. rewrite (written_cwd _ _ _ _ _ H1) in H2.
    by eapply written_trans.
Qed.

Lemma generateRun_written scanResult s acc s' :
  generateRun glob (Some service) config rootDir false scanResult s
    = (Returned acc, s') →
  written service (fs_cwd (st_fs s)) rootDir s ([], []) s' acc.
Proof.
  unfold generateRun.
  rewrite bool_decide_eq_true_2 by (by eexists). cbn [negb andb].
  rewrite bind_unfold.
  destruct (generateSubfolders _ _ _ _ _ _ _ _ s) as [[acc1|e] s1] eqn:E1;
    [|done].
  apply generateSubfolders_written in E1. rewrite bind_unfold.
  destruct (generateUngroupedDocs _ _ _ _ _ _ _ s1) as [[r2|e] s2] eqn:E2;
    [|done].
  apply generateUngroupedDocs_answered in E2. rewrite bind_unfold.
  destruct (collect _ _ _ _ s2) as [[acc2|e] s3] eqn:E3; [|done].
  pose proof (collect_written _ _ _ _ _ _ E2 E3) as H2.
  rewrite (written_cwd _ _ _ _ _ E1) in H2.
  pose proof (written_trans _ _ _ _ _ _ _ E1 H2) as H12.
  rewrite bind_unfold.
  destruct (generateReadme _ _ _ _ _ _ s3) as [[r3|e] s4] eqn:E4; [|done].
  apply generateReadme_answered in E4.
  intros E5. pose proof (collect_written _ _ _ _ _ _ E4 E5) as H3.
  rewrite (written_cwd _ _ _ _ _ H12) in H3.
  by eapply written_trans.
Qed.

End RealRun.

(** X24.  In a run that is not dry and returns, the service is there,
    the files written are exactly the returned documents, in order,
    each at its output path resolved against the root with the content
    of the document, and one request was made per document, whose
    answer is that content. *)
Theorem generate_writes glob llmService config rootDir scanResult s docs
    s' :
  generate glob llmService config rootDir false scanResult s
    = (Returned docs, s') →
  ∃ service requests,
    llmService = Some service
    ∧ writesOf (st_trace s')
      = writesOf (st_trace s)
        ++ (docWrite (fs_cwd (st_fs s)) rootDir <$> docs)
    ∧ requestsOf (st_trace s') = requestsOf (st_trace s) ++ requests
    ∧ Forall2 (λ doc request, service request = Some (doc_content doc))
        docs requests.
Proof.
  unfold generate. rewrite bind_unfold.
  destruct llmService as [service|]; [|done].
  destruct (generateRun _ _ _ _ _ _ s) as [[acc|e] s1] eqn:E; [|done].
  intros [= <- <-].
  apply generateRun_written in E as (d & q & Hd & (_ & Hw & Hq) & Hf).
  cbn [fst] in Hd. rewrite app_nil_l in Hd. subst d.
  by exists service, q.
Qed.

Section AnyRun.

Variable glob : FileSystem → string → string → list string → list string.
Variables (llmService : option LLMService) (config : Config).
Variables (rootDir : string) (dryRun : bool).

Lemma collect_push acc (r : StepResult) s acc' s' :
  collect rootDir dryRun acc r s = (Returned acc', s') →
  acc'.1 = acc.1 ++ option_list r.1.
Proof.
  unfold collect. destruct r.1 as [doc|]; cbn [option_list].
  - destruct dryRun.
    + by intros [= <- _].
    + rewrite bind_unfold. destruct (writeDoc _ _ _ s) as [[[]|e] s1]; [|done].
      by intros [= <- _].
  - intros [= <- _]. by rewrite app_nil_r.
Qed.

Lemma generateSubfolders_length allFiles groups acc s acc' s' :
  generateSubfolders glob llmService config rootDir dryRun allFiles groups
    acc s = (Returned acc', s') →
  ∃ docs, acc'.1 = acc.1 ++ docs ∧ (length docs ≤ length groups)%nat.
Proof.
  revert acc s. induction groups as [|[subfolder files] groups IH]; intros acc s.
  - intros [= <- _]. exists []. by rewrite app_nil_r.
  - cbn [generateSubfolders]. rewrite bind_unfold.
    destruct (generateSubfolderDoc _ _ _ _ _ _ _ _ _ _ s) as [[r|e] s1]; [|done].
    rewrite bind_unfold.
    destruct (collect _ _ _ _ s1) as [[acc1|e] s2] eqn:Ec; [|done].
    apply collect_push in Ec.
    intros (docs & Hd & Hlen)%IH. exists (option_list r.1 ++ docs).
    split; [by rewrite Hd, Ec, app_assoc|].
    rewrite length_app. destruct r.1; simpl; lia.
Qed.

Lemma generateReadme_doc allFiles prompt model s (r : StepResult) s' :
  generateReadme llmService rootDir allFiles prompt model dryRun s
    = (Returned r, s') →
  ∃ content, r.1 = Some (mkDoc "README.md" content (file_path <$> allFiles)).
Proof.
  unfold generateReadme. rewrite bind_unfold.
  destruct (readExistingDoc _ _ s) as [[existing|e] s1]; [|done].
  cbv zeta. generalize (getTokenEstimate
                          (fullInput prompt (formatFilesForLLM allFiles) existing)
                          (Some model) true).
  intros estimate. destruct dryRun.
  - intros [= <- _]. eexists. reflexivity.
  - rewrite bind_unfold. destruct (callLlm _ _ s1) as [[content|e] s2]; [|done].
    intros [= <- _]. eexists. reflexivity.
Qed.

(** X25.  Whenever [generate] returns, dry or not, the last document
    is [README.md] with the paths of all scanned files as its sources
    (also when nothing was scanned); before it come at most one document
    per configured subfolder and one for the ungrouped files. *)
Theorem generate_readme_last scanResult s docs s' :
  generate glob llmService config rootDir dryRun scanResult s
    = (Returned docs, s') →
  ∃ rest content,
    docs = rest ++ [mkDoc "README.md" content
                      (file_path <$> scan_files scanResult)]
    ∧ (length rest ≤ S (length (scan_grouped scanResult)))%nat.
Proof.
  unfold generate. rewrite bind_unfold.
  destruct (generateRun _ _ _ _ _ _ s) as [[acc|e] s0] eqn:E; [|done].
  intros [= <- _]. revert E. unfold generateRun.
  destruct (negb dryRun && _); [done|]. rewrite bind_unfold.
  destruct (generateSubfolders _ _ _ _ _ _ _ _ s) as [[acc1|e] s1] eqn:E1;
    [|done].
  apply generateSubfolders_length in E1 as (d1 & Hd1 & Hlen).
  rewrite bind_unfold.
  destruct (generateUngroupedDocs _ _ _ _ _ _ _ s1) as [[r2|e] s2]; [|done].
  rewrite bind_unfold.
  destruct (collect _ _ _ _ s2) as [[acc2|e] s3] eqn:E3; [|done].
  apply collect_push in E3. rewrite bind_unfold.
  destruct (generateReadme _ _ _ _ _ _ s3) as [[r3|e] s4] eqn:E4; [|done].
  apply generateReadme_doc in E4 as [content Hr3].
  intros E5%collect_push. rewrite Hr3 in E5. cbn [option_list] in E5.
  exists acc2.1, content. split; [done|].
  rewrite E3, Hd1, length_app. cbn [fst app length].
  destruct r2.1; simpl; lia.
Qed.

End AnyRun.

Section WriteDoc.

Lemma mkdirp_files fuel dir entries entries' q :
  NodeFs.mkdirp fuel dir entries = Some entries' →
  readFileSync (mkFs entries' q.1) q.2 = readFileSync (mkFs entries q.1) q.2.
Proof.
  unfold readFileSync. cbn [fs_entries].
  revert dir entries'. induction fuel as [|fuel IH]; intros dir entries';
    cbn [NodeFs.mkdirp].
  - destruct (entries !! dir) as [[c|]|] eqn:E; [done|by intros [= <-]|].
    intros [= <-]. destruct (decide (q.2 = dir)) as [->|Hne].
    + by rewrite lookup_insert_eq, E.
    + by rewrite lookup_insert_ne.
  - destruct (entries !! dir) as [[c|]|] eqn:E; [done|by intros [= <-]|].
    destruct (String.eqb (NodePath.dirname dir) dir).
    + intros [= <-]. destruct (decide (q.2 = dir)) as [->|Hne].
      * by rewrite lookup_insert_eq, E.
      * by rewrite lookup_insert_ne.
    + destruct (NodeFs.mkdirp fuel _ entries) as [e1|] eqn:E1; [|done].
      cbn [fmap option_fmap option_map]. intros [= <-].
      destruct (decide (q.2 = dir)) as [->|Hne].
      * by rewrite lookup_insert_eq, E.
      * rewrite lookup_insert_ne by done. by apply IH in E1.
Qed.

(** X26.  After [writeDoc] has returned, [readExistingDoc] of the
    same path returns the content written. *)
Theorem writeDoc_readExistingDoc rootDir outputPath content s u s' :
  writeDoc rootDir outputPath content s = (Returned u, s') →
  readExistingDoc rootDir outputPath s' = (Returned (Some content), s').
Proof.
  intros [(Hcwd & _) Hfile]%writeDoc_stepped.
  unfold readExistingDoc. rewrite bind_unfold. cbn [getFs]. cbv zeta.
  rewrite Hcwd. unfold existsSync, readFileSync. rewrite Hfile.
  by rewrite bool_decide_eq_true_2 by (by eexists).
Qed.

(** X27.  [writeDoc] changes the content of no other file, whether
    it returns or throws: the directories it makes replace nothing (the
    file system has no links). *)
Theorem writeDoc_other_files rootDir outputPath content s q :
  q ≠ NodePath.resolve (fs_cwd (st_fs s)) [rootDir; outputPath] →
  readFileSync (st_fs (writeDoc rootDir outputPath content s).2) q
  = readFileSync (st_fs s) q.
Proof.
  intros Hq. unfold writeDoc. rewrite bind_unfold. cbn [getFs]. cbv zeta.
  set (fullPath := NodePath.resolve _ _) in *. rewrite bind_unfold.
  assert (∀ s1, readFileSync (st_fs s1) q = readFileSync (st_fs s) q →
                readFileSync
                  (st_fs (NodeFs.writeFileSync fullPath content s1).2) q
                = readFileSync (st_fs s) q) as Hwrite.
  { intros s1 <-. unfold NodeFs.writeFileSync. rewrite !bind_unfold.
    cbn [getFs emit st_fs].
    destruct (fs_entries (st_fs s1) !! NodePath.dirname fullPath)
      as [[c|]|]; [done| |done].
    destruct (fs_entries (st_fs s1) !! fullPath) as [[c|]|]; [|done|];
      unfold putEntries, readFileSync; rewrite bind_unfold;
      cbn [emit snd st_fs fs_entries]; by rewrite lookup_insert_ne. }
  destruct (existsSync _ _).
  - by apply Hwrite.
  - unfold NodeFs.mkdirSync. rewrite !bind_unfold. cbn [getFs emit st_fs].
    destruct (NodeFs.mkdirp _ _ _) as [entries|] eqn:E; [|done].
    cbn [putEntries]. apply Hwrite. cbn [st_fs].
    apply (mkdirp_files _ _ _ _ (fs_cwd (st_fs s), q)) in E. cbn [fst snd] in E.
    rewrite E. by destruct (st_fs s).
Qed.

End WriteDoc.

Lemma generate_writes_witness :
  ∃ service requests,
    Some (λ _ : LlmRequest, Some "text") = Some service
    ∧ writesOf
        (st_trace
           (generate noGlob (Some (λ _, Some "text")) exampleConfig "/r" false
              exampleScan (mkState cycleFs [])).2)
      = writesOf []
        ++ (docWrite "/r" "/r"
              <$> [mkDoc "docs/a.md" "text" ["a.ts"; "b.ts"];
                   mkDoc "docs/api-reference.md" "text" ["b.ts"];
                   mkDoc "README.md" "text" ["a.ts"; "b.ts"]])
    ∧ requestsOf
        (st_trace
           (generate noGlob (Some (λ _, Some "text")) exampleConfig "/r" false
              exampleScan (mkState cycleFs [])).2)
      = requestsOf [] ++ requests
    ∧ Forall2 (λ doc request, service request = Some (doc_content doc))
        [mkDoc "docs/a.md" "text" ["a.ts"; "b.ts"];
         mkDoc "docs/api-reference.md" "text" ["b.ts"];
         mkDoc "README.md" "text" ["a.ts"; "b.ts"]]
        requests.
Proof.
  apply (generate_writes noGlob (Some (λ _, Some "text")) exampleConfig "/r"
           exampleScan (mkState cycleFs [])).
  apply injective_projections; [vm_compute; reflexivity|reflexivity].
Defined.

Lemma generate_readme_last_witness :
  ∃ rest content,
    [mkDoc "docs/a.md" DRY_RUN_CONTENT ["a.ts"; "b.ts"];
     mkDoc "docs/api-reference.md" DRY_RUN_CONTENT ["b.ts"];
     mkDoc "README.md" DRY_RUN_CONTENT ["a.ts"; "b.ts"]]
    = rest ++ [mkDoc "README.md" content (file_path <$> scan_files exampleScan)]
    ∧ (length rest ≤ S (length (scan_grouped exampleScan)))%nat.
Proof.
  apply (generate_readme_last noGlob None exampleConfig "/r" true exampleScan
           (mkState cycleFs []) _ (mkState cycleFs [])).
  vm_compute. reflexivity.
Defined.

Lemma writeDoc_readExistingDoc_witness :
  readExistingDoc "/r" "docs/x.md"
    (writeDoc "/r" "docs/x.md" "text" (mkState cycleFs [])).2
  = (Returned (Some "text"),
     (writeDoc "/r" "docs/x.md" "text" (mkState cycleFs [])).2).
Proof.
  apply (writeDoc_readExistingDoc "/r" "docs/x.md" "text" (mkState cycleFs []) ()).
  apply injective_projections; [vm_compute; reflexivity|reflexivity].
Defined.

Lemma writeDoc_other_files_witness :
  readFileSync
    (st_fs (writeDoc "/r" "docs/x.md" "text" (mkState cycleFs [])).2) "/r/a.ts"
  = readFileSync (st_fs (mkState cycleFs [])) "/r/a.ts".
Proof.
  apply writeDoc_other_files. vm_compute. discriminate.
Defined.
(** ** The LLM service: what is sent *)

(** X28.  The answer of the service depends on the model only through
    its response to the messages of the request.  These carry at least
    38 characters more than the text the generator estimates for the
    request, so the token estimate of the generator is a lower bound
    of the estimate of what is sent. *)
Theorem answer_request_size request :
  (∀ model1 model2,
     model1 (requestMessages request) = model2 (requestMessages request) →
     Llm.answer model1 request = Llm.answer model2 request)
  ∧ (String.length (estimatedInput request) + 38 ≤ charactersSent request)%nat
  ∧ (∀ sent isCode,
       String.length sent = charactersSent request →
       (estimateTokens (estimatedInput request) isCode
        ≤ estimateTokens sent isCode)%Z).
Proof.
  assert (String.length (estimatedInput request) + 38 ≤ charactersSent request)%nat
    as Hlen.
  { unfold charactersSent, estimatedInput, requestMessages, Llm.messages,
      fullInput, Llm.userContent, Llm.apiPrompt, Llm.readmePrompt.
    destruct request as [p f e|p f e|p f n e];
      cbn [fmap list_fmap sum_list sum_list_with messageLength];
      destruct (truthy e); rewrite !length_append; unfold nl, Llm.dquote;
      cbn [String.length]; unfold id; lia. }
  split; [|split; [done|]].
  - intros model1 model2 H.
    destruct request as [p f e|p f e|p f n e];
      unfold Llm.answer, Llm.generateApiReference, Llm.generateReadme,
        Llm.generateDocumentation; cbn [requestMessages] in H; by rewrite H.
  - intros sent isCode Hsent. apply estimateTokens_mono. lia.
Qed.
(** ** Token estimation: the aggregate of what was estimated *)

Section AggregateEstimated.




End AggregateEstimated.

